(** * Deferred evaluation of operator trees (dedalus/core/future.py)

    A shallow embedding of the class [Future]; its two typed variants,
    [FutureArray] and [FutureField], differ in the class attribute
    [future_type] only.  Two views of the same objects are used:

    - the structural queries ([__eq__], [atoms], [has], [replace]) never
      write; they are functions over the tree reachable through [args];
    - [evaluate] mutates nodes in place ([args], [last_id], [last_out]) while
      parents, [args] and [original_args] all refer to the same child
      objects, so it runs over a store of nodes addressed by location.

    Both views share one record of node fields, parametric in how an
    argument refers to a deferred node. *)

From stdpp Require Import base option list gmap strings.
From Stdlib Require Import ZArith QArith.

Close Scope Q_scope.
Set Warnings "-register-all,-clear-no-such-hyp".

(** ** Python values and outcomes *)

(** Class objects (operator identities and concrete operator types). *)
Definition pyclass := string.

(** The two data containers of [field.py]; [future_type] is one of them. *)
Inductive data_kind := Array | Field.

Definition basis := nat.
Definition bases_t := list (option basis).
Definition distributor := nat.
Definition scale := Q.

(** A reference to a data container: its concrete kind, its identity and
    the bases it was allocated with. *)
Record dref := Data { dkind : data_kind; daddr : nat; dbases : bases_t }.

Inductive layout := grid_layout (d : distributor) | coeff_layout (d : distributor).

(** Anything that can be passed as an argument, as [old] or as [new]:
    a plain number, a data container, a deferred node (referred to through
    [R]) or a class object.  Numbers are integers only: floats and booleans,
    which [==] identifies with the integer of the same value while they
    print differently, are not represented. *)
Inductive value (R : Type) :=
| VNum (z : Z)
| VData (d : dref)
| VFut (r : R)
| VClass (c : pyclass).
Arguments VNum {R} z.
Arguments VData {R} d.
Arguments VFut {R} r.
Arguments VClass {R} c.

Inductive exn :=
| ValueError (msg : string)
| AttributeError (attr : string)
| TypeError (msg : string)
| IndexError
| NotImplementedError
| KernelError (code : Z).

(** Result of code that returns or raises. *)
Inductive result (A : Type) :=
| Ok (a : A)
| Raise (e : exn).
Arguments Ok {A} a.
Arguments Raise {A} e.

#[global] Instance result_ret : MRet result := fun _ a => Ok a.
#[global] Instance result_bind : MBind result := fun _ _ f r =>
  match r with Ok a => f a | Raise e => Raise e end.
#[global] Instance result_fmap : FMap result := fun _ _ f r =>
  match r with Ok a => Ok (f a) | Raise e => Raise e end.

(** What a rich comparison method hands back. *)
Inductive cmp_result := CmpBool (b : bool) | NotImplemented.

#[global] Instance data_kind_eq_dec : EqDecision data_kind.
Proof. solve_decision. Defined.
#[global] Instance dref_eq_dec : EqDecision dref.
Proof. solve_decision. Defined.
#[global] Instance value_eq_dec {R} `{EqDecision R} : EqDecision (value R).
Proof. solve_decision. Defined.

(** ** Node fields *)

Definition ident := Z.

Record Future (V : Type) := {
  cls : pyclass;                 (* type(self) *)
  args : list V;
  original_args : list V;
  out : option dref;
  bases : bases_t;
  dist : distributor;
  _grid_layout : layout;
  _coeff_layout : layout;
  last_id : option ident;
  last_out : option dref;
  scales : scale
}.
Arguments cls {V} _.
Arguments args {V} _.
Arguments original_args {V} _.
Arguments out {V} _.
Arguments bases {V} _.
Arguments dist {V} _.
Arguments _grid_layout {V} _.
Arguments _coeff_layout {V} _.
Arguments last_id {V} _.
Arguments last_out {V} _.
Arguments scales {V} _.

(** [self.domain = Domain(self.dist, self.bases)]. *)
Definition domain {V} (n : Future V) : distributor * bases_t := (dist n, bases n).

Definition set_args {V} (l : list V) (n : Future V) : Future V :=
  {| cls := cls n; args := l; original_args := original_args n; out := out n;
     bases := bases n; dist := dist n; _grid_layout := _grid_layout n;
     _coeff_layout := _coeff_layout n; last_id := last_id n;
     last_out := last_out n; scales := scales n |}.

Definition set_last {V} (i : option ident) (o : option dref) (n : Future V) : Future V :=
  {| cls := cls n; args := args n; original_args := original_args n; out := out n;
     bases := bases n; dist := dist n; _grid_layout := _grid_layout n;
     _coeff_layout := _coeff_layout n; last_id := i;
     last_out := o; scales := scales n |}.

(** ** What the operator classes supply

    Class attributes and the hooks every concrete operator implements.
    [Future] itself leaves them abstract ([raise NotImplementedError()]). *)

Class OperatorClasses (V : Type) := {
  (* class attribute [base]: the operator identity of a concrete type *)
  base : pyclass → pyclass;
  (* class attribute [store_last] *)
  store_last : pyclass → bool;
  (* class attribute [future_type] *)
  future_type : pyclass → data_kind;
  (* what [self.bases] yields on an instance whose [__init__] has not yet
     assigned it: a class-level attribute, if the class declares one *)
  class_bases : pyclass → option bases_t;
  (* the concrete type of the object that calling a class object builds *)
  instantiate : pyclass → list V → result pyclass;
  _build_bases : pyclass → list V → result bases_t;
  (* unify_attributes(args, 'dist', require=False) *)
  unify_dist : list V → result (option distributor)
}.

(** ** Construction *)

Section construction.
Context {V : Type} `{OperatorClasses V}.

Definition __init__ (c : pyclass) (a : list V) (o : option dref) : result (Future V) :=
  (* Check output consistency *)
  _ ← match o with
      | Some od =>
          match class_bases c with
          | None => Raise (AttributeError "bases")
          | Some sb =>
              if decide (dbases od ≠ sb)
              then Raise (ValueError "Output field has wrong bases.")
              else Ok tt
          end
      | None => Ok tt
      end;
  (* Attributes *)
  b ← _build_bases c a;
  od ← unify_dist a;
  (* self.domain = Domain(self.dist, self.bases), then
     self.dist.grid_layout: no distributor, no attribute *)
  d ← match od with
      | Some d => Ok d
      | None => Raise (AttributeError "grid_layout")
      end;
  Ok {| cls := c; args := a; original_args := a; out := o;
        bases := b; dist := d;
        _grid_layout := grid_layout d; _coeff_layout := coeff_layout d;
        (* [last_out] is not assigned here; [None] stands for the
           attribute that does not exist yet *)
        last_id := None; last_out := None; scales := 1%Q |}.

(** Calling a class object [c] on the arguments [a], with no [out]. *)
Definition construct (c : pyclass) (a : list V) : result (Future V) :=
  t ← instantiate c a;
  __init__ t a None.
End construction.

(** ** Structural queries over the tree of arguments *)

Inductive tree := Tree (n : Future (value tree)).

Definition node (t : tree) : Future (value tree) := match t with Tree n => n end.

Abbreviation tvalue := (value tree).

Definition list_eqb {A} (f : A → A → bool) : list A → list A → bool :=
  fix go l1 l2 :=
    match l1, l2 with
    | [], [] => true
    | x :: l1', y :: l2' => f x y && go l1' l2'
    | _, _ => false
    end.

Definition mapM {A B} (f : A → result B) : list A → result (list B) :=
  fix go l :=
    match l with
    | [] => Ok []
    | x :: l' => y ← f x; ys ← go l'; Ok (y :: ys)
    end.

(** The operator [x == y], given the method [__eq__] of deferred nodes.
    When [__eq__] hands back [NotImplemented] the reflected method is tried:
    for a node on the right it tests the same two types and declines too,
    numbers and class objects decline, and the comparison falls back to
    object identity, which is false between objects of different types.
    Numbers compare by value, class objects and data containers by
    identity, as objects do by default. *)
Definition py_eq_with (eqm : tree → tvalue → cmp_result) (x y : tvalue) : bool :=
  match x, y with
  | VFut a, _ => match eqm a y with CmpBool b => b | NotImplemented => false end
  | VNum a, VNum b => bool_decide (a = b)
  | VData d, VData e => bool_decide (d = e)
  | VClass c, VClass c' => bool_decide (c = c')
  | _, _ => false
  end.

Fixpoint __eq__ (self : tree) (other : tvalue) {struct self} : cmp_result :=
  (* Require same class and arguments *)
  match other with
  | VFut o =>
      if decide (cls (node o) = cls (node self))
      then CmpBool (list_eqb (py_eq_with __eq__) (args (node self)) (args (node o)))
      else NotImplemented
  | _ => NotImplemented
  end.

Definition py_eq : tvalue → tvalue → bool := py_eq_with __eq__.

Definition __ne__ (self : tree) (other : tvalue) : cmp_result :=
  (* Negate equality test *)
  match other with
  | VFut o =>
      if decide (cls (node o) = cls (node self))
      then match __eq__ self other with
           | CmpBool b => CmpBool (negb b)
           | NotImplemented => CmpBool false   (* not NotImplemented is False *)
           end
      else NotImplemented
  | _ => NotImplemented
  end.

(** The operator [x != y], given the method [__ne__] of deferred nodes.
    When [__ne__] hands back [NotImplemented] the reflected method declines
    as well and the comparison falls back to object identity: objects of
    different types are different objects.  Numbers compare by value, class
    objects and data containers by identity. *)
Definition py_ne (x y : tvalue) : bool :=
  match x, y with
  | VFut a, _ => match __ne__ a y with CmpBool b => b | NotImplemented => true end
  | VNum a, VNum b => negb (bool_decide (a = b))
  | VData d, VData e => negb (bool_decide (d = e))
  | VClass c, VClass c' => negb (bool_decide (c = c'))
  | _, _ => true
  end.

(** [x in vars]. *)
Definition py_in (x : tvalue) (vars : list tvalue) : bool := existsb (py_eq x) vars.

(** No plain number occurs among the arguments, at any depth. *)
Fixpoint number_free (t : tree) {struct t} : bool :=
  forallb (fun arg => match arg with
                      | VNum _ => false
                      | VFut a => number_free a
                      | _ => true
                      end) (args (node t)).

(** Modelled from the spec: [OrderedSet] of [tools/general.py], a set
    without duplicates that keeps insertion order. *)
Definition OrderedSet := list dref.

Definition oset_add (x : dref) (s : OrderedSet) : OrderedSet :=
  if decide (x ∈ s) then s else s ++ [x].

Definition oset_update (s xs : OrderedSet) : OrderedSet :=
  foldl (fun acc x => oset_add x acc) s xs.

(** Modelled from the spec: the [Operand] methods of a leaf of
    [field.py].  A leaf reports itself among the atoms when its kind is one
    of the requested kinds, is contained in a tree query when it is one of
    the targets, and is substituted when it is [old].

    In the queries below [isinstance(arg, Operand)] holds of data
    containers and deferred nodes, whose method is then called, and fails
    for plain numbers and class objects. *)
Definition Data_atoms (d : dref) (types : list data_kind) : OrderedSet :=
  if decide (dkind d ∈ types) then [d] else [].

Definition Data_has (d : dref) (vars : list tvalue) : bool :=
  py_in (VData d) vars.

Definition Data_replace (d : dref) (old new : tvalue) : tvalue :=
  if py_eq (VData d) old then new else VData d.

Section queries.
Context `{OperatorClasses tvalue}.

Fixpoint atoms (self : tree) (types : list data_kind) {struct self} : OrderedSet :=
  (* Recursively collect atoms *)
  foldl (fun atoms_ arg =>
           match arg with
           | VData d => oset_update atoms_ (Data_atoms d types)
           | VFut a => oset_update atoms_ (atoms a types)
           | VNum _ | VClass _ => atoms_
           end) [] (args (node self)).

Fixpoint has (self : tree) (vars : list tvalue) {struct self} : bool :=
  (* Check for matching operator *)
  if py_in (VClass (base (cls (node self)))) vars then true
  (* Check arguments *)
  else existsb (fun arg =>
                  match arg with
                  | VData d => Data_has d vars
                  | VFut a => has a vars
                  | VNum _ | VClass _ => false
                  end) (args (node self)).

(** Calling [f] on the arguments [a]: only class objects are callable. *)
Definition call (f : tvalue) (a : list tvalue) : result tvalue :=
  match f with
  | VClass c => n ← construct c a; Ok (VFut (Tree n))
  | _ => Raise (TypeError "object is not callable")
  end.

Fixpoint replace (self : tree) (old new : tvalue) {struct self} : result tvalue :=
  (* Check for entire expression match *)
  if py_eq (VFut self) old then Ok new
  else
    let replaced :=
      mapM (fun arg =>
              match arg with
              | VData d => Ok (Data_replace d old new)
              | VFut a => replace a old new
              | VNum _ | VClass _ => Ok arg
              end) (args (node self)) in
    (* Check base and call with replaced arguments *)
    if py_eq (VClass (base (cls (node self)))) old then
      a ← replaced; call new a
    (* Call with replaced arguments *)
    else
      a ← replaced; call (VClass (base (cls (node self)))) a.
End queries.

(** ** Printing *)

Section printing.
Context `{OperatorClasses tvalue}.

(** [__name__] of a class object, and [repr] and [str] of the arguments
    that are not deferred nodes (numbers, data containers, class objects):
    none of them is defined in this file of the source. *)
Variable __name__ : pyclass → string.
Variable repr_other : tvalue → string.
Variable str_other : tvalue → string.

(** The property [name]: [self.base.__name__]. *)
Definition name (self : tree) : string := __name__ (base (cls (node self))).

(** [sep.join(l)] *)
Definition join (sep : string) : list string → string :=
  fix go l :=
    match l with
    | [] => ""
    | [x] => x
    | x :: l' => x +:+ sep +:+ go l'
    end.

Fixpoint __repr__ (self : tree) {struct self} : string :=
  let repr_args := map (fun arg => match arg with
                                   | VFut a => __repr__ a
                                   | _ => repr_other arg
                                   end) (args (node self)) in
  name self +:+ "(" +:+ join ", " repr_args +:+ ")".

Fixpoint __str__ (self : tree) {struct self} : string :=
  let str_args := map (fun arg => match arg with
                                  | VFut a => __str__ a
                                  | _ => str_other arg
                                  end) (args (node self)) in
  name self +:+ "(" +:+ join ", " str_args +:+ ")".
End printing.

(** ** The evaluation engine over a store of nodes *)

Definition loc := nat.

Abbreviation hvalue := (value loc).
Abbreviation hnode := (Future hvalue).

(** The two ways [evaluate] calls [future_type]. *)
Inductive alloc_call :=
| FromBases (d : distributor) (b : bases_t) (tensorsig dtype : nat)
| FromDomain (dom : distributor * bases_t).

(** The collaborators of [evaluate]: the three hooks of the concrete
    operator, which act on the data held by the containers ([E]) and may
    raise, and the data containers and domain of [field.py] and
    [domain.py]. *)
Class Collaborators (E : Type) := {
  check_conditions : hnode → E → result bool * E;
  enforce_conditions : hnode → E → result unit * E;
  operate : hnode → dref → E → result unit * E;
  tensorsig : hnode → nat;
  dtype : hnode → nat;
  require_scales : dref → scale → E → E;
  set_scales : dref → scale → E → E;
  new_data : data_kind → alloc_call → E → dref * E;
  truth : dref → E → bool;
  dealias : distributor * bases_t → scale
}.

(** Calls made by a node during [evaluate], in program order. *)
Inductive event :=
| ERequireScales (self : loc) (i : nat) (a : dref) (s : scale)
| EArg (self : loc) (i : nat) (a : loc) (a_eval : option dref)
| EEnforce (self : loc)
| ECheck (self : loc) (ready : bool)
| ENewData (self : loc) (o : dref)
| ESetScales (self : loc) (o : dref) (s : scale)
| EOperate (self : loc) (o : dref).

Record state (E : Type) := State {
  nodes : gmap loc hnode;
  world : E;
  trace : list event
}.
Arguments State {E} _ _ _.
Arguments nodes {E} _.
Arguments world {E} _.
Arguments trace {E} _.

Inductive outcome (A : Type) :=
| Returns (a : A)
| Raises (e : exn)
| OutOfFuel.
Arguments Returns {A} a.
Arguments Raises {A} e.
Arguments OutOfFuel {A}.

Definition M (E A : Type) : Type := state E → outcome A * state E.

Definition ret {E A} (a : A) : M E A := fun st => (Returns a, st).

Definition bind {E A B} (m : M E A) (k : A → M E B) : M E B := fun st =>
  match m st with
  | (Returns a, st') => k a st'
  | (Raises e, st') => (Raises e, st')
  | (OutOfFuel, st') => (OutOfFuel, st')
  end.

Declare Scope eval_scope.
Delimit Scope eval_scope with eval.
Notation "x <- m ;; k" := (bind m (fun x => k))
  (at level 100, m at next level, right associativity) : eval_scope.
Notation "m ;;; k" := (bind m (fun _ => k))
  (at level 100, right associativity) : eval_scope.

Section engine.
Context {E : Type} `{OperatorClasses hvalue} `{Collaborators E}.
Open Scope eval_scope.

Definition raise {A} (e : exn) : M E A := fun st => (Raises e, st).
Definition out_of_fuel {A} : M E A := fun st => (OutOfFuel, st).

(** Reading the fields of the object at [self]. *)
Definition deref (self : loc) : M E hnode := fun st =>
  match nodes st !! self with
  | Some n => (Returns n, st)
  | None => (Raises (AttributeError "no such object"), st)
  end.

(** Writing fields of the object at [self]. *)
Definition update (self : loc) (f : hnode → hnode) : M E unit := fun st =>
  (Returns tt, State (alter f self (nodes st)) (world st) (trace st)).

Definition emit (e : event) : M E unit := fun st =>
  (Returns tt, State (nodes st) (world st) (trace st ++ [e])).

Definition hook {A} (h : E → result A * E) : M E A := fun st =>
  match h (world st) with
  | (Ok a, w) => (Returns a, State (nodes st) w (trace st))
  | (Raise e, w) => (Raises e, State (nodes st) w (trace st))
  end.

Definition act (f : E → E) : M E unit := fun st =>
  (Returns tt, State (nodes st) (f (world st)) (trace st)).

Definition ask {A} (f : E → A) : M E A := fun st => (Returns (f (world st)), st).

(** [self.args[i] = v] *)
Definition setitem_args (self : loc) (i : nat) (v : hvalue) : M E unit :=
  n <- deref self ;;
  if decide (i < length (args n))%nat
  then update self (fun n => set_args (<[i := v]> (args n)) n)
  else raise IndexError.

Definition reset (self : loc) : M E unit :=
  (* Restore original arguments. *)
  update self (fun n => set_args (original_args n) n).

Definition any_bases (b : bases_t) : bool :=
  existsb (fun x => match x with Some _ => true | None => false end) b.

(** The loop over [enumerate(self.args)].  [ev] is the recursive call;
    [s] is [self.domain.dealias], which [__init__] fixes once and for all.
    The loop visits the elements the list holds on entry: slot [i] is
    overwritten only after it has been visited. *)
Definition resolve_args (ev : loc → M E (option dref)) (self : loc) (s : scale)
  : nat → list hvalue → bool → M E bool :=
  fix go i l all_eval :=
    match l with
    | [] => ret all_eval
    | a :: l' =>
        (match a with
         | VData d =>
             match dkind d with
             | Field => emit (ERequireScales self i d s) ;;; act (require_scales d s)
             | Array => ret tt
             end
         | _ => ret tt
         end) ;;;
        all_eval' <- (match a with
                      | VFut c =>
                          a_eval <- ev c ;;
                          emit (EArg self i c a_eval) ;;;
                          match a_eval with
                          (* If evaluation succeeds, substitute result *)
                          | Some r => setitem_args self i (VData r) ;;; ret all_eval
                          (* Otherwise change flag *)
                          | None => ret false
                          end
                      | _ => ret all_eval
                      end) ;;
        go (S i) l' all_eval'
    end.

(** The layout gate of [evaluate]: with [force] the operator makes its
    arguments ready, without it the operator is only asked. *)
Definition layout_gate (self : loc) (force : bool) : M E bool :=
  n <- deref self ;;
  (* Check conditions unless forcing evaluation *)
  if force
  then emit (EEnforce self) ;;; hook (enforce_conditions n) ;;; ret true
  else b <- hook (check_conditions n) ;; emit (ECheck self b) ;;; ret b.

(** The output [evaluate] writes into: [self.out] when it is there (and
    true), a new container otherwise. *)
Definition allocate_output (self : loc) : M E dref :=
  n <- deref self ;;
  (* Allocate output field if necessary *)
  let allocate :=
    o <- hook (fun w =>
                 let '(o, w') :=
                   new_data (future_type (cls n))
                     (if any_bases (bases n)
                      then FromBases (dist n) (bases n) (tensorsig n) (dtype n)
                      else FromDomain (domain n)) w
                 in (Ok o, w')) ;;
    emit (ENewData self o) ;;; ret o in
  match out n with
  | Some so => t <- ask (truth so) ;; if t then ret so else allocate
  | None => allocate
  end.

(** Everything [evaluate] does after the storage check. *)
Definition pipeline (ev : loc → M E (option dref)) (self : loc)
    (id : option ident) (force : bool) : M E (option dref) :=
  (* Recursively attempt evaluation of all operator arguments *)
  n0 <- deref self ;;
  all_eval <- resolve_args ev self (dealias (domain n0)) 0 (args n0) true ;;
  (* Return None if any arguments are not evaluable *)
  if negb all_eval then ret None else
  ready <- layout_gate self force ;;
  (* Return None if operator conditions are not satisfied *)
  if negb ready then ret None else
  o <- allocate_output self ;;
  (* Copy metadata *)
  n2 <- deref self ;;
  emit (ESetScales self o (dealias (domain n2))) ;;;
  act (set_scales o (dealias (domain n2))) ;;;
  (* Perform operation *)
  n3 <- deref self ;;
  emit (EOperate self o) ;;;
  hook (operate n3 o) ;;;
  (* Reset to free temporary field arguments *)
  reset self ;;;
  (* Update storage *)
  (if store_last (cls n3) && bool_decide (id ≠ None)
   then update self (set_last id (Some o))
   else ret tt) ;;;
  ret (Some o).

Fixpoint evaluate (fuel : nat) (self : loc) (id : option ident) (force : bool)
    {struct fuel} : M E (option dref) :=
  match fuel with
  | O => out_of_fuel
  | S fuel' =>
      n <- deref self ;;
      (* Check storage *)
      if store_last (cls n) && bool_decide (id ≠ None) then
        if bool_decide (id = last_id n) then ret (last_out n)
        else
          (* Clear cache to free output field *)
          update self (set_last None None) ;;;
          pipeline (fun a => evaluate fuel' a id force) self id force
      else pipeline (fun a => evaluate fuel' a id force) self id force
  end.

Definition attempt (fuel : nat) (self : loc) (id : option ident) : M E (option dref) :=
  (* Recursively attempt to evaluate operation. *)
  evaluate fuel self id false.
End engine.

(** ** The hooks as [Future] defines them *)

(** The three hooks as [Future] itself defines them:
    [raise NotImplementedError()]. *)
Definition Future_check_conditions {E} (self : hnode) (w : E) : result bool * E :=
  (Raise NotImplementedError, w).

Definition Future_enforce_conditions {E} (self : hnode) (w : E) : result unit * E :=
  (Raise NotImplementedError, w).

Definition Future_operate {E} (self : hnode) (out : dref) (w : E) : result unit * E :=
  (Raise NotImplementedError, w).


(** ** Notions used to state the properties of the tree queries *)

(** [other] is an instance of the very class of the node [A]. *)
Definition same_type (A : tree) (other : tvalue) : Prop :=
  match other with
  | VFut B => cls (node B) = cls (node A)
  | _ => False
  end.

(** [subnode t u]: [u] is [t] or a deferred node below it. *)
Inductive subnode : tree → tree → Prop :=
| subnode_root t : subnode t t
| subnode_arg t a u : VFut a ∈ args (node t) → subnode a u → subnode t u.

Section query_notions.
Context `{OperatorClasses tvalue}.

(** One step of the loop of [atoms]. *)
Definition atoms_step (types : list data_kind) (atoms_ : OrderedSet) (arg : tvalue)
  : OrderedSet :=
  match arg with
  | VData d => oset_update atoms_ (Data_atoms d types)
  | VFut a => oset_update atoms_ (atoms a types)
  | VNum _ | VClass _ => atoms_
  end.

(** The substitution [replace] applies to one argument. *)
Definition replace_arg (old new : tvalue) (arg : tvalue) : result tvalue :=
  match arg with
  | VData d => Ok (Data_replace d old new)
  | VFut a => replace a old new
  | VNum _ | VClass _ => Ok arg
  end.

(** [old] is met somewhere by [replace]: as a whole subtree, as the
    operator identity of a node, or as a leaf. *)
Fixpoint occurs (old : tvalue) (t : tree) {struct t} : bool :=
  py_eq (VFut t) old
  || py_eq (VClass (base (cls (node t)))) old
  || existsb (fun arg =>
                match arg with
                | VData d => py_eq (VData d) old
                | VFut a => occurs old a
                | VNum _ | VClass _ => false
                end) (args (node t)).

(** Calling the operator identity of each node on arguments equal to its
    own builds a node of the same concrete type. *)
Inductive rebuildable : tree → Prop :=
| rebuildable_node t :
    (∀ a', Forall2 (fun x y => py_eq x y = true) a' (args (node t)) →
           ∃ n', construct (base (cls (node t))) a' = Ok n' ∧ cls n' = cls (node t)) →
    (∀ a, VFut a ∈ args (node t) → rebuildable a) →
    rebuildable t.
End query_notions.

Arguments py_eq : simpl never.
Arguments replace : simpl never.
Arguments occurs : simpl never.

(** ** Notions used to state the properties of the engine *)

(** The node that makes the call an event records. *)
Definition actor (e : event) : loc :=
  match e with
  | ERequireScales self _ _ _ | EArg self _ _ _ | EEnforce self | ECheck self _
  | ENewData self _ | ESetScales self _ _ | EOperate self _ => self
  end.

(** The events a node emits inside its loop over the arguments. *)
Definition loop_kind (e : event) : Prop :=
  match e with
  | ERequireScales _ _ _ _ | EArg _ _ _ _ => True
  | _ => False
  end.

(** The events of [Δ] emitted by [self] itself. *)
Definition own (self : loc) (Δ : list event) : list event :=
  filter (fun e => actor e = self) Δ.

Definition is_fut (v : hvalue) : bool :=
  match v with VFut _ => true | _ => false end.

(** What a slot of [args] holds after the loop has visited it: the
    argument itself, or the output substituted for a deferred node. *)
Definition resolved (a a' : hvalue) : Prop :=
  match a with
  | VFut c => a' = VFut c ∨ ∃ r, a' = VData r
  | _ => a' = a
  end.

(** The calls the node itself makes for the slot [i], which held [a] and
    holds [a'] afterwards. *)
Definition arg_events (self : loc) (s : scale) (i : nat) (a a' : hvalue) : list event :=
  match a with
  | VData d =>
      match dkind d with
      | Field => [ERequireScales self i d s]
      | Array => []
      end
  | VFut c => [EArg self i c (match a' with VData r => Some r | _ => None end)]
  | _ => []
  end.

Fixpoint loop_events (self : loc) (s : scale) (i : nat) (l l' : list hvalue) : list event :=
  match l, l' with
  | a :: l, a' :: l' => arg_events self s i a a' ++ loop_events self s (S i) l l'
  | _, _ => []
  end.

(** The event of the layout gate when it lets the evaluation through. *)
Definition gate_event (self : loc) (force : bool) : event :=
  if force then EEnforce self else ECheck self true.

(** Fields that [evaluate] never assigns. *)
Definition same_shape (n n' : hnode) : Prop :=
  cls n' = cls n ∧ original_args n' = original_args n ∧ out n' = out n ∧
  bases n' = bases n ∧ dist n' = dist n.

Section engine_notions.
Context {E : Type} `{OperatorClasses hvalue} `{Collaborators E}.

(** An action keeps the relation [R] from every state that satisfies [P]. *)
Definition pres {A} (R : loc → state E → state E → Prop) (P : state E → Prop)
    (self : loc) (m : M E A) : Prop :=
  ∀ st r st', P st → m st = (r, st') → R self st st'.

Definition stable (st st' : state E) : Prop :=
  (∀ l n, nodes st !! l = Some n → ∃ n', nodes st' !! l = Some n' ∧ same_shape n n') ∧
  ∃ Δ, trace st' = trace st ++ Δ.

Definition memo_kept (st st' : state E) : Prop :=
  ∀ l n, nodes st !! l = Some n →
         ∃ n', nodes st' !! l = Some n' ∧ last_id n' = last_id n ∧ last_out n' = last_out n.

(** [m'] does what [m] does whenever [m] does not run out of fuel. *)
Definition refines {A} (m m' : M E A) : Prop :=
  ∀ st r st', m st = (r, st') → r ≠ OutOfFuel → m' st = (r, st').

(** Every stored id comes with a stored output. *)
Definition memo_ok (st : state E) : Prop :=
  map_Forall (fun _ n => last_id n ≠ None → last_out n ≠ None) (nodes st).

(** The storage check returns the stored output. *)
Definition cache_hit (n : hnode) (id : option ident) : bool :=
  store_last (cls n) && bool_decide (id ≠ None) && bool_decide (id = last_id n).

(** The node after the storage check, when the check does not return. *)
Definition checked (n : hnode) (id : option ident) : hnode :=
  if store_last (cls n) && bool_decide (id ≠ None) then set_last None None n else n.

(** What the storage update does to the node. *)
Definition store (id : option ident) (o : dref) (n : hnode) : hnode :=
  if store_last (cls n) && bool_decide (id ≠ None) then set_last id (Some o) n else n.

(** The store holds a forest: a rank decreases from every node to the
    deferred nodes among its arguments. *)
Definition below (rank : loc → nat) (l : loc) (v : hvalue) : Prop :=
  match v with VFut c => rank c < rank l | _ => True end.

Definition acyclic (rank : loc → nat) (st : state E) : Prop :=
  map_Forall (fun l n => Forall (below rank l) (args n) ∧
                         Forall (below rank l) (original_args n))
             (nodes st).

(** What a call on [self] may change: nothing above [self], and every
    event is emitted at or below [self]. *)
Definition framed (rank : loc → nat) (self : loc) (st st' : state E) : Prop :=
  (acyclic rank st → acyclic rank st') ∧
  (∀ l, rank self < rank l → nodes st' !! l = nodes st !! l) ∧
  ∃ Δ, trace st' = trace st ++ Δ ∧ Forall (fun e => rank (actor e) ≤ rank self) Δ.
End engine_notions.

(** [n'] is [n] with [args], [last_id] and [last_out] possibly reassigned. *)
Definition reassigned (n n' : hnode) : Prop :=
  n' = set_last (last_id n') (last_out n') (set_args (args n') n).

(** The layout-gate events a call with the flag [force] may emit. *)
Definition gate_matches (force : bool) (e : event) : Prop :=
  match e with
  | EEnforce _ => force = true
  | ECheck _ _ => force = false
  | _ => True
  end.

(** The calls a node makes after its loop, by what the call returns;
    [built] tells whether the output was allocated by the call. *)
Definition tail_events (self : loc) (s : scale) (force : bool) (l' : list hvalue)
    (r : option dref) (built : bool) : list event :=
  match r with
  | Some o =>
      gate_event self force :: (if built then [ENewData self o] else []) ++
      [ESetScales self o s; EOperate self o]
  | None =>
      if forallb (fun v => negb (is_fut v)) l' then [ECheck self false] else []
  end.

Section further_engine_notions.
Context {E : Type} `{OperatorClasses hvalue} `{Collaborators E}.

(** The same objects, each up to the fields [evaluate] assigns. *)
Definition same_objects (st st' : state E) : Prop :=
  ∀ l, option_Forall2 reassigned (nodes st !! l) (nodes st' !! l).

(** What a call with the id [id] may do to a cache slot: leave it, clear
    it, or store an output under [id]. *)
Definition memo_step (id : option ident) (st st' : state E) : Prop :=
  ∀ l n, nodes st !! l = Some n →
    ∃ n', nodes st' !! l = Some n' ∧
      ((last_id n' = last_id n ∧ last_out n' = last_out n) ∨
       (last_id n' = None ∧ last_out n' = None) ∨
       (last_id n' = id ∧ id ≠ None ∧ last_out n' ≠ None)).

(** Every output stored under the id [i] is still stored. *)
Definition memo_held (i : ident) (st st' : state E) : Prop :=
  ∀ l n, nodes st !! l = Some n → store_last (cls n) = true → last_id n = Some i →
    ∃ n', nodes st' !! l = Some n' ∧ cls n' = cls n ∧
          last_id n' = Some i ∧ last_out n' = last_out n.

(** The trace grows by events that all satisfy [Q]. *)
Definition emits (Q : event → Prop) (st st' : state E) : Prop :=
  ∃ Δ, trace st' = trace st ++ Δ ∧ Forall Q Δ.

(** How [evaluate] calls [future_type] on the node [n]: with the bases
    when any of them is set, with the domain when none is. *)
Definition output_request (n : hnode) : alloc_call :=
  if any_bases (bases n)
  then FromBases (dist n) (bases n) (tensorsig n) (dtype n)
  else FromDomain (domain n).

(** Every node holds its original arguments. *)
Definition clean (st : state E) : Prop :=
  map_Forall (fun _ n => args n = original_args n) (nodes st).

(** The same for the nodes of rank at most [r]. *)
Definition clean_upto (rank : loc → nat) (r : nat) (st : state E) : Prop :=
  ∀ l n, nodes st !! l = Some n → rank l ≤ r → args n = original_args n.

End further_engine_notions.

(** The same collaborators with another [check_conditions]. *)
Definition with_check {E} (chk : hnode → E → result bool * E) (C : Collaborators E)
  : Collaborators E :=
  {| check_conditions := chk;
     enforce_conditions := enforce_conditions;
     operate := operate;
     tensorsig := tensorsig;
     dtype := dtype;
     require_scales := require_scales;
     set_scales := set_scales;
     new_data := new_data;
     truth := truth;
     dealias := dealias |}.

(** The same collaborators with another [enforce_conditions]. *)
Definition with_enforce {E} (enf : hnode → E → result unit * E) (C : Collaborators E)
  : Collaborators E :=
  {| check_conditions := check_conditions;
     enforce_conditions := enf;
     operate := operate;
     tensorsig := tensorsig;
     dtype := dtype;
     require_scales := require_scales;
     set_scales := set_scales;
     new_data := new_data;
     truth := truth;
     dealias := dealias |}.

(** ** A small table of operators and collaborators, for concrete runs *)

(** Bases of an argument, as the demonstration classes read them. *)
Definition tvalue_bases (v : tvalue) : option bases_t :=
  match v with
  | VData d => Some (dbases d)
  | VFut t => Some (bases (node t))
  | VNum _ | VClass _ => None
  end.

Definition hvalue_bases (v : hvalue) : option bases_t :=
  match v with
  | VData d => Some (dbases d)
  | _ => None
  end.

(** Operators [Add], [Negate], [Divide] and [Differentiate]; each is its
    own operator identity, none declares a class-level [bases], only
    [Differentiate] keeps its last output, and all produce fields.  The
    output bases are those of the first argument that has some. *)
Definition demo_classes {V : Type} (vb : V → option bases_t) : OperatorClasses V := {|
  base := fun c => c;
  store_last := fun c => bool_decide (c = "Differentiate");
  future_type := fun _ => Field;
  class_bases := fun _ => None;
  instantiate := fun c _ => Ok c;
  _build_bases := fun _ a => Ok (default [] (list_find (fun o => is_Some o) (map vb a) ≫= snd));
  unify_dist := fun _ => Ok (Some 0%nat)
|}.

(** The same table, for a class [Convert] that declares [bases] at class
    level. *)
Definition preset_classes {V : Type} (vb : V → option bases_t) : OperatorClasses V := {|
  base := fun c => c;
  store_last := fun _ => false;
  future_type := fun _ => Field;
  class_bases := fun c => if decide (c = "Convert") then Some [Some 7%nat] else None;
  instantiate := fun c _ => Ok c;
  _build_bases := fun _ a => Ok (default [] (list_find (fun o => is_Some o) (map vb a) ≫= snd));
  unify_dist := fun _ => Ok (Some 0%nat)
|}.

(** The data world of the demonstration: the containers that are in the
    layout the operators need, and the next free address. *)
Record demo_world := World { ready : list nat; next : nat }.

Definition data_addrs (l : list hvalue) : list nat :=
  omap (fun v => match v with VData d => Some (daddr d) | _ => None end) l.

Definition demo_collaborators : Collaborators demo_world := {|
  check_conditions := fun n w =>
    (Ok (forallb (fun a => bool_decide (a ∈ ready w)) (data_addrs (args n))), w);
  enforce_conditions := fun n w =>
    (Ok tt, World (data_addrs (args n) ++ ready w) (next w));
  operate := fun n o w =>
    if decide (cls n = "Divide")
    then (Raise (KernelError 0%Z), w)
    else (Ok tt, World (daddr o :: ready w) (next w));
  tensorsig := fun _ => 0%nat;
  dtype := fun _ => 0%nat;
  require_scales := fun _ _ w => w;
  set_scales := fun _ _ w => w;
  new_data := fun k c w =>
    (Data k (next w) match c with FromBases _ b _ _ => b | FromDomain dom => dom.2 end,
     World (ready w) (S (next w)));
  truth := fun _ _ => true;
  dealias := fun _ => (3 # 2)%Q
|}.

Definition leaf (k : data_kind) (a : nat) : dref := Data k a [Some 0%nat].

(** A node as [__init__] leaves it. *)
Definition fresh {V} (c : pyclass) (a : list V) : Future V := {|
  cls := c; args := a; original_args := a; out := None;
  bases := [Some 0%nat]; dist := 0%nat;
  _grid_layout := grid_layout 0; _coeff_layout := coeff_layout 0;
  last_id := None; last_out := None; scales := 1%Q |}.

(** [Add(Negate(a), b)] *)
Definition ex_tree : tree :=
  Tree (fresh "Add" [VFut (Tree (fresh "Negate" [VData (leaf Field 1)])); VData (leaf Field 2)]).

Definition demo_ops : OperatorClasses hvalue := demo_classes hvalue_bases.
Definition demo_tree_ops : OperatorClasses tvalue := demo_classes tvalue_bases.

(** A store with [Negate(a)] at 0, [Negate(b)] at 1, [Add] of the two at
    2, a caching [Differentiate(a)] at 3, [Divide(Negate(a), b)] at 4 and a
    [Differentiate(a)] that remembers the output 9 for the id 7 at 5.  Only
    the container [a] is in the layout the operators need. *)
Definition demo_nodes : gmap loc hnode :=
  <[0 := fresh "Negate" [VData (leaf Field 1)]]>
  (<[1 := fresh "Negate" [VData (leaf Field 2)]]>
  (<[2 := fresh "Add" [VFut 0; VFut 1]]>
  (<[3 := fresh "Differentiate" [VData (leaf Field 1)]]>
  (<[4 := fresh "Divide" [VFut 0; VData (leaf Field 2)]]>
  (<[5 := set_last (Some 7%Z) (Some (leaf Field 9))
            (fresh "Differentiate" [VData (leaf Field 1)])]> ∅))))).

Definition demo_state : state demo_world := State demo_nodes (World [1] 10) [].

Definition demo_rank (l : loc) : nat := l.

(** [Add(Negate(a), b)] again, as another object with a stored output. *)
Definition ex_tree_cached : tree :=
  Tree (set_last (Some 3%Z) (Some (leaf Field 9)) (node ex_tree)).

(** A node built with [out] supplied. *)
Definition with_out {V} (o : dref) (n : Future V) : Future V :=
  {| cls := cls n; args := args n; original_args := original_args n; out := Some o;
     bases := bases n; dist := dist n; _grid_layout := _grid_layout n;
     _coeff_layout := _coeff_layout n; last_id := last_id n;
     last_out := last_out n; scales := scales n |}.

(** A second store: at 0 a caching [Differentiate(b)] that remembers the
    output 9 for the id 7, at 1 a [Negate(a)] built with the output 20
    supplied.  Only the container [a] is in the layout the operators
    need. *)
Definition demo_nodes2 : gmap loc hnode :=
  <[0 := set_last (Some 7%Z) (Some (leaf Field 9))
           (fresh "Differentiate" [VData (leaf Field 2)])]>
  (<[1 := with_out (leaf Field 20) (fresh "Negate" [VData (leaf Field 1)])]> ∅).

Definition demo_state2 : state demo_world := State demo_nodes2 (World [1] 10) [].

(** The collaborators of the demonstration for operator classes that
    override none of the hooks. *)
Definition bare_collaborators : Collaborators demo_world := {|
  check_conditions := Future_check_conditions;
  enforce_conditions := Future_enforce_conditions;
  operate := Future_operate;
  tensorsig := fun _ => 0%nat;
  dtype := fun _ => 0%nat;
  require_scales := fun _ _ w => w;
  set_scales := fun _ _ w => w;
  new_data := fun k c w =>
    (Data k (next w) match c with FromBases _ b _ _ => b | FromDomain dom => dom.2 end,
     World (ready w) (S (next w)));
  truth := fun _ _ => true;
  dealias := fun _ => (3 # 2)%Q
|}.

(** A world that only records the scales asked of the containers, each
    with the address of its container, latest first. *)
Definition scale_log := list (nat * scale).

(** Collaborators over that world: the hooks always succeed, the dealias
    factor is 3/2. *)
Definition logging_collaborators : Collaborators scale_log := {|
  check_conditions := fun _ w => (Ok true, w);
  enforce_conditions := fun _ w => (Ok tt, w);
  operate := fun _ _ w => (Ok tt, w);
  tensorsig := fun _ => 0%nat;
  dtype := fun _ => 0%nat;
  require_scales := fun d s w => (daddr d, s) :: w;
  set_scales := fun o s w => (daddr o, s) :: w;
  new_data := fun k c w =>
    (Data k 10 match c with FromBases _ b _ _ => b | FromDomain dom => dom.2 end, w);
  truth := fun _ _ => true;
  dealias := fun _ => (3 # 2)%Q
|}.

(** The demonstration store over that world, with nothing recorded. *)
Definition logging_state : state scale_log := State demo_nodes [] [].

(** * Properties of the tree queries *)

Lemma tree_ind' (P : tree → Prop) :
  (∀ n, Forall (fun v => match v with VFut a => P a | _ => True end) (args n) → P (Tree n)) →
  ∀ t, P t.
Proof.
  intros IH. fix rec 1. intros [n]. apply IH.
  induction (args n) as [|v a IHa]; constructor; [|exact IHa].
  destruct v; auto.
Qed.

Lemma list_eqb_Forall2 {A} (f : A → A → bool) l1 l2 :
  list_eqb f l1 l2 = true ↔ Forall2 (fun x y => f x y = true) l1 l2.
Proof.
  revert l2. induction l1 as [|x l1 IH]; intros [|y l2]; simpl.
  - split; [constructor | done].
  - split; [done | inversion 1].
  - split; [done | inversion 1].
  - rewrite andb_true_iff, IH. split.
    + intros [? ?]. by constructor.
    + inversion 1; subst. done.
Qed.

Lemma eq_unfold (A : tree) (other : tvalue) :
  __eq__ A other =
  match other with
  | VFut o =>
      if decide (cls (node o) = cls (node A))
      then CmpBool (list_eqb py_eq (args (node A)) (args (node o)))
      else NotImplemented
  | _ => NotImplemented
  end.
Proof. destruct A; reflexivity. Qed.


(** C9.  [A == B] holds exactly when [A] and [B] are of the same concrete
    operator type and their current [args] are equal element by element;
    [__eq__] hands back [NotImplemented], not [False], exactly when the
    other value is not of the node's own type. *)
Theorem eq_same_type_and_args (A B : tree) :
  (__eq__ A (VFut B) = CmpBool true ↔
     cls (node A) = cls (node B) ∧
     Forall2 (fun x y => py_eq x y = true) (args (node A)) (args (node B)))
  ∧ (py_eq (VFut A) (VFut B) = true ↔ __eq__ A (VFut B) = CmpBool true)
  ∧ (∀ other : tvalue, __eq__ A other = NotImplemented ↔ ¬ same_type A other).
Proof.
  split; [|split].
  - rewrite eq_unfold. case_decide as Hc.
    + rewrite <- list_eqb_Forall2. split.
      * intros [= ->]. done.
      * intros [_ ->]. done.
    + split; [done | intros [? _]; congruence].
  - unfold py_eq, py_eq_with. fold py_eq. destruct (__eq__ A (VFut B)) as [[]|]; split; congruence.
  - intros other. rewrite eq_unfold. destruct other as [z|d|o|c]; simpl; try tauto.
    case_decide; split; try done.
Qed.



Lemma elem_of_oset_add x y s : x ∈ oset_add y s ↔ x ∈ s ∨ x = y.
Proof.
  unfold oset_add. case_decide; [|set_solver].
  split; [auto|]. intros [?| ->]; done.
Qed.

Lemma elem_of_oset_update x s xs : x ∈ oset_update s xs ↔ x ∈ s ∨ x ∈ xs.
Proof.
  unfold oset_update. revert s. induction xs as [|y xs IH]; intros s; simpl.
  - set_solver.
  - rewrite IH, elem_of_oset_add. set_solver.
Qed.

Lemma elem_of_Data_atoms x d types : x ∈ Data_atoms d types ↔ x = d ∧ dkind d ∈ types.
Proof. unfold Data_atoms. case_decide; set_solver. Qed.

Section atoms_has.
Context `{OperatorClasses tvalue}.


Lemma atoms_unfold t types : atoms t types = foldl (atoms_step types) [] (args (node t)).
Proof. destruct t; reflexivity. Qed.

Lemma has_unfold t vars :
  has t vars =
  if py_in (VClass (base (cls (node t)))) vars then true
  else existsb (fun arg => match arg with
                           | VData d => Data_has d vars
                           | VFut a => has a vars
                           | VNum _ | VClass _ => false
                           end) (args (node t)).
Proof. destruct t; reflexivity. Qed.

Lemma elem_of_foldl_atoms x types l s :
  x ∈ foldl (atoms_step types) s l ↔
  x ∈ s ∨ (∃ d, VData d ∈ l ∧ x ∈ Data_atoms d types) ∨ (∃ a, VFut a ∈ l ∧ x ∈ atoms a types).
Proof.
  revert s. induction l as [|v l IH]; intros s; simpl.
  - set_solver.
  - rewrite IH. destruct v as [z|d|a|c]; simpl; rewrite ?elem_of_oset_update.
    + set_solver.
    + split.
      * intros [[?|?]|[(d'&?&?)|(a&?&?)]]; [auto| right; left; exists d; set_solver | right; left; exists d'; set_solver | right; right; exists a; set_solver].
      * intros [?|[(d'&Hd&?)|(a&Ha&?)]]; [auto| |].
        -- apply elem_of_cons in Hd as [[= <-]|?]; [auto|]. right; left; eauto.
        -- apply elem_of_cons in Ha as [[=]|?]. right; right; eauto.
    + split.
      * intros [[?|?]|[(d'&?&?)|(a'&?&?)]]; [auto| right; right; exists a; set_solver | right; left; exists d'; set_solver | right; right; exists a'; set_solver].
      * intros [?|[(d'&Hd&?)|(a'&Ha&?)]]; [auto| |].
        -- apply elem_of_cons in Hd as [[=]|?]. right; left; eauto.
        -- apply elem_of_cons in Ha as [[= <-]|?]; [auto|]. right; right; eauto.
    + set_solver.
Qed.

(** A leaf is an atom of its own kind exactly when it is an argument of
    some node of the tree. *)
Lemma elem_of_atoms t d :
  d ∈ atoms t [dkind d] ↔ ∃ u, subnode t u ∧ VData d ∈ args (node u).
Proof.
  induction t as [n IH] using tree_ind'.
  rewrite atoms_unfold, elem_of_foldl_atoms. simpl. split.
  - intros [?|[(d'&Hd'&Hx)|(a&Ha&Hx)]]; [set_solver| |].
    + apply elem_of_Data_atoms in Hx as [-> _]. exists (Tree n). split; [constructor|done].
    + rewrite Forall_forall in IH. pose proof (IH _ Ha) as IHa. simpl in IHa.
      apply IHa in Hx as (u&?&?).
      exists u. split; [|done]. by econstructor.
  - intros (u&Hsub&Hu). inversion Hsub as [|? a ? Ha Hsub']; subst.
    + right; left. exists d. split; [done|]. apply elem_of_Data_atoms. set_solver.
    + right; right. exists a. split; [done|]. rewrite Forall_forall in IH.
      apply (IH (VFut a)); [done|]. eauto.
Qed.

Lemma py_in_singleton x y : py_in x [y] = py_eq x y.
Proof. unfold py_in; simpl. by rewrite orb_false_r. Qed.

Lemma py_eq_class c (X : tvalue) : py_eq (VClass c) X = true ↔ X = VClass c.
Proof.
  destruct X; simpl; try (split; [done|congruence]).
  unfold py_eq, py_eq_with. rewrite bool_decide_eq_true. split; congruence.
Qed.

Lemma py_eq_data d (X : tvalue) : py_eq (VData d) X = true ↔ X = VData d.
Proof.
  destruct X; simpl; try (split; [done|congruence]).
  unfold py_eq, py_eq_with. rewrite bool_decide_eq_true. split; congruence.
Qed.

(** C6, as amended.  [tree.has(X)] is true exactly when [X] is the
    operator identity of the root or of a deferred node below it, or [X] is
    a leaf among [tree.atoms(type(X))]. *)
Theorem has_iff_operator_or_atom (t : tree) (X : tvalue) :
  has t [X] = true ↔
  (∃ u, subnode t u ∧ X = VClass (base (cls (node u)))) ∨
  (∃ d, X = VData d ∧ d ∈ atoms t [dkind d]).
Proof.
  induction t as [n IH] using tree_ind'.
  rewrite has_unfold, py_in_singleton.
  destruct (py_eq (VClass (base (cls (node (Tree n))))) X) eqn:Hroot.
  - split; [|done]. intros _. left. exists (Tree n). split; [constructor|].
    by apply py_eq_class in Hroot.
  - rewrite existsb_exists. setoid_rewrite elem_of_atoms. split.
    + intros (arg & Hin & Harg). destruct arg as [z|d|a|c]; try done.
      * unfold Data_has in Harg. rewrite py_in_singleton in Harg.
        apply py_eq_data in Harg. right. exists d. split; [done|].
        exists (Tree n). split; [constructor|]. by apply list_elem_of_In.
      * rewrite Forall_forall in IH. apply list_elem_of_In in Hin.
        apply (IH _ Hin) in Harg.
        destruct Harg as [(u&?&?)|(d&?&Hd)].
        -- left. exists u. split; [|done]. by econstructor.
        -- right. exists d. split; [done|]. apply elem_of_atoms in Hd as (u&?&?).
           exists u. split; [|done]. by econstructor.
    + intros [(u&Hsub&HX)|(d&HX&u&Hsub&Hd)].
      * inversion Hsub as [|? a ? Ha Hsub']; subst.
        -- apply not_true_iff_false in Hroot. exfalso. apply Hroot. by apply py_eq_class.
        -- exists (VFut a). split; [by apply list_elem_of_In|].
           rewrite Forall_forall in IH. apply (IH (VFut a)); [done|].
           left. eauto.
      * inversion Hsub as [|? a ? Ha Hsub']; subst.
        -- exists (VData d). split; [by apply list_elem_of_In|].
           unfold Data_has. rewrite py_in_singleton. by apply py_eq_data.
        -- exists (VFut a). split; [by apply list_elem_of_In|].
           rewrite Forall_forall in IH. apply (IH (VFut a)); [done|].
           right. exists d. split; [done|]. apply elem_of_atoms. eauto.
Qed.
End atoms_has.





Lemma py_eq_nodes (a b : tree) :
  py_eq (VFut a) (VFut b) = true ↔
  cls (node a) = cls (node b) ∧ Forall2 (fun x y => py_eq x y = true) (args (node a)) (args (node b)).
Proof.
  unfold py_eq at 1, py_eq_with. rewrite eq_unfold. case_decide.
  - rewrite list_eqb_Forall2. split; [intros ?|intros [_ ?]]; done.
  - split; [done|]. intros [? _]; congruence.
Qed.

Lemma py_eq_unfold (x y : tvalue) :
  py_eq x y =
  match x, y with
  | VFut a, VFut b =>
      bool_decide (cls (node b) = cls (node a)) &&
      list_eqb py_eq (args (node a)) (args (node b))
  | VNum a, VNum b => bool_decide (a = b)
  | VData d, VData e => bool_decide (d = e)
  | VClass c, VClass c' => bool_decide (c = c')
  | _, _ => false
  end.
Proof.
  destruct x as [z|d|a|c], y as [z'|d'|b|c']; try reflexivity;
    unfold py_eq at 1, py_eq_with; rewrite eq_unfold; try reflexivity.
  case_decide.
  - by rewrite bool_decide_eq_true_2.
  - by rewrite bool_decide_eq_false_2.
Qed.

Lemma list_eqb_sym {A} (f : A → A → bool) l1 l2 :
  Forall (fun x => ∀ y, f x y = f y x) l1 → list_eqb f l1 l2 = list_eqb f l2 l1.
Proof.
  intros Hall. revert l2. induction Hall as [|x l1 Hx _ IH]; intros [|y l2]; simpl; try done.
  by rewrite Hx, IH.
Qed.

Lemma py_eq_sym (x y : tvalue) : py_eq x y = py_eq y x.
Proof.
  assert (∀ a b : tree, py_eq (VFut a) (VFut b) = py_eq (VFut b) (VFut a)) as Htree.
  { induction a as [n IH] using tree_ind'. intros b. rewrite !py_eq_unfold.
    rewrite (list_eqb_sym py_eq (args (node (Tree n)))).
    - f_equal. apply bool_decide_ext. split; congruence.
    - simpl. eapply Forall_impl; [exact IH|]. intros v Hv w.
      destruct v as [z|d|a|c], w as [z'|d'|b0|c']; rewrite ?Hv; try done;
        rewrite !py_eq_unfold; try done; apply bool_decide_ext; split; congruence. }
  destruct x as [z|d|a|c], y as [z'|d'|b|c']; try apply Htree;
    rewrite !py_eq_unfold; try done; apply bool_decide_ext; split; congruence.
Qed.

Section replace_proofs.
Context `{OperatorClasses tvalue}.



Lemma replace_unfold t old new :
  replace t old new =
  if py_eq (VFut t) old then Ok new
  else if py_eq (VClass (base (cls (node t)))) old
       then a ← mapM (replace_arg old new) (args (node t)); call new a
       else a ← mapM (replace_arg old new) (args (node t));
            call (VClass (base (cls (node t)))) a.
Proof. destruct t; reflexivity. Qed.

Lemma occurs_unfold old t :
  occurs old t =
  py_eq (VFut t) old
  || py_eq (VClass (base (cls (node t)))) old
  || existsb (fun arg =>
                match arg with
                | VData d => py_eq (VData d) old
                | VFut a => occurs old a
                | VNum _ | VClass _ => false
                end) (args (node t)).
Proof. destruct t; reflexivity. Qed.

Lemma construct_args c a n : construct c a = Ok n →
  args n = a ∧ original_args n = a ∧ out n = None ∧ last_id n = None ∧ last_out n = None.
Proof.
  unfold construct, __init__. destruct (instantiate c a) as [t|]; simpl; [|done].
  destruct (_build_bases t a); simpl; [|done].
  destruct (unify_dist a) as [[d|]|]; simpl; try done.
  intros [= <-]. done.
Qed.

Lemma py_eq_refl_leaf (v : tvalue) :
  match v with VFut _ => True | _ => py_eq v v = true end.
Proof. destruct v; simpl; try done; unfold py_eq, py_eq_with; by rewrite bool_decide_eq_true. Qed.

Lemma replace_absent t old new :
  occurs old t = false → rebuildable t →
  ∃ t', replace t old new = Ok (VFut t') ∧
        py_eq (VFut t') (VFut t) = true ∧
        out (node t') = None ∧ last_id (node t') = None ∧
        original_args (node t') = args (node t').
Proof.
  induction t as [n IH] using tree_ind'. intros Hocc Hre.
  rewrite occurs_unfold in Hocc. apply orb_false_iff in Hocc as [Hocc Hargs].
  apply orb_false_iff in Hocc as [Hroot Hbase].
  rewrite replace_unfold, Hroot, Hbase.
  inversion Hre as [? Hbuild Hsub]; subst.
  assert (∃ a', mapM (replace_arg old new) (args (node (Tree n))) = Ok a' ∧
                Forall2 (fun x y => py_eq x y = true) a' (args (node (Tree n)))) as (a' & Ha' & Heq).
  { simpl in *. clear Hbuild Hroot Hbase Hre.
    induction (args n) as [|v l IHl]; simpl.
    - eexists; split; [done|constructor].
    - apply orb_false_iff in Hargs as [Hv Hl].
      apply Forall_cons in IH as [IHv IHl'].
      destruct (IHl IHl' Hl) as (l' & Hl' & Hall); [set_solver|].
      rewrite Hl'. destruct v as [z|d|a|c]; simpl.
      + eexists; split; [done|]. constructor; [|done]. unfold py_eq; simpl. by rewrite bool_decide_eq_true.
      + unfold Data_replace. rewrite Hv. simpl. eexists; split; [done|]. constructor; [|done].
        unfold py_eq; simpl. by rewrite bool_decide_eq_true.
      + destruct (IHv Hv) as (t' & -> & Ht' & _); [apply Hsub; set_solver|].
        eexists; split; [done|]. by constructor.
      + eexists; split; [done|]. constructor; [|done]. unfold py_eq; simpl. by rewrite bool_decide_eq_true. }
  rewrite Ha'. destruct (Hbuild a' Heq) as (n' & Hn' & Hcls).
  simpl in *. unfold mbind, result_bind. rewrite Hn'.
  apply construct_args in Hn' as (Hargs' & Horig & Hout & Hid & _).
  exists (Tree n'). split; [done|]. split; [|simpl; by rewrite Horig, Hargs'].
  apply py_eq_nodes. simpl. rewrite Hargs'. done.
Qed.
(** C8.  [tree.replace(old, new)] returns [new] itself when the whole tree
    equals [old]; otherwise it returns an operator applied to the
    recursively replaced arguments, [new] when [old] is the operator
    identity of the tree and the tree's own operator identity if not.  When
    [old] occurs nowhere, the result is a newly constructed node (no [out],
    no stored id, [original_args] set from its arguments) that is equal to
    the original tree. *)
Theorem replace_cases (t : tree) (old new : tvalue) :
  replace t old new =
    (if py_eq (VFut t) old then Ok new
     else a ← mapM (replace_arg old new) (args (node t));
          call (if py_eq (VClass (base (cls (node t)))) old
                then new else VClass (base (cls (node t)))) a)
  ∧ (occurs old t = false → rebuildable t →
     ∃ t', replace t old new = Ok (VFut t') ∧
           py_eq (VFut t') (VFut t) = true ∧ py_eq (VFut t) (VFut t') = true ∧
           out (node t') = None ∧ last_id (node t') = None ∧
           original_args (node t') = args (node t')).
Proof.
  split.
  - rewrite replace_unfold. destruct (py_eq (VFut t) old); [done|].
    by destruct (py_eq (VClass (base (cls (node t)))) old).
  - intros Hocc Hre.
    destruct (replace_absent t old new Hocc Hre) as (t' & ? & Heq & ? & ? & ?).
    exists t'. split_and!; try done. by rewrite py_eq_sym.
Qed.

End replace_proofs.

(** * Properties of the evaluation engine *)


Lemma bind_inv {E A B} (m : M E A) (k : A → M E B) st r st' :
  bind m k st = (r, st') →
  (∃ a st1, m st = (Returns a, st1) ∧ k a st1 = (r, st')) ∨
  (∃ e, m st = (Raises e, st') ∧ r = Raises e) ∨
  (m st = (OutOfFuel, st') ∧ r = OutOfFuel).
Proof.
  unfold bind. destruct (m st) as [[a|e|] st1]; intros Heq.
  - left. eauto.
  - right; left. inversion Heq; subst. eauto.
  - right; right. inversion Heq; subst. eauto.
Qed.

Section preservation.
Context {E : Type} `{OperatorClasses hvalue} `{Collaborators E}.
Variable R : loc → state E → state E → Prop.
Variable P : state E → Prop.
Variable child_ok : loc → loc → Prop.
Variable id : option ident.
Hypothesis R_refl : ∀ self st, R self st st.
Hypothesis R_trans : ∀ self st1 st2 st3, R self st1 st2 → R self st2 st3 → R self st1 st3.
Hypothesis R_P : ∀ self st st', P st → R self st st' → P st'.
Hypothesis R_emit : ∀ self st e,
  actor e = self → R self st (State (nodes st) (world st) (trace st ++ [e])).
Hypothesis R_world : ∀ self st w, R self st (State (nodes st) w (trace st)).
Hypothesis R_setitem : ∀ self st i d,
  R self st (State (alter (fun n => set_args (<[i:=VData d]> (args n)) n) self (nodes st))
                   (world st) (trace st)).
Hypothesis R_reset : ∀ self st,
  R self st (State (alter (fun n => set_args (original_args n) n) self (nodes st))
                   (world st) (trace st)).
Hypothesis R_last : ∀ self st a b,
  id ≠ None → (a = None ∧ b = None) ∨ (a = id ∧ b ≠ None) →
  R self st (State (alter (set_last a b) self (nodes st)) (world st) (trace st)).
Hypothesis R_child : ∀ self c st st', child_ok self c → R c st st' → R self st st'.
Hypothesis P_children : ∀ st self n c,
  P st → nodes st !! self = Some n → VFut c ∈ args n → child_ok self c.


Lemma pres_ret {A} self (a : A) : pres R P self (ret a).
Proof. intros st r st' _ [= <- <-]. apply R_refl. Qed.

Lemma pres_raise {A} self e : pres R P self (@raise E A e).
Proof. intros st r st' _ [= <- <-]. apply R_refl. Qed.

Lemma pres_bind {A B} self (m : M E A) (k : A → M E B) :
  pres R P self m → (∀ a, pres R P self (k a)) → pres R P self (bind m k).
Proof.
  intros Hm Hk st r st' HP Hrun.
  apply bind_inv in Hrun as [(a & st1 & Hm1 & Hk1)|[(e & Hm1 & _)|[Hm1 _]]]; [|by eauto..].
  pose proof (Hm _ _ _ HP Hm1) as HR1.
  eapply R_trans; [exact HR1|]. eapply Hk; [|exact Hk1]. by eapply R_P.
Qed.

Lemma pres_deref self l : pres R P self (deref l).
Proof.
  intros st r st' _. unfold deref. destruct (nodes st !! l); intros [= <- <-]; apply R_refl.
Qed.

Lemma pres_emit self e : actor e = self → pres R P self (emit e).
Proof. intros He st r st' _ [= <- <-]. by apply R_emit. Qed.

Lemma pres_hook {A} self (h : E → result A * E) : pres R P self (hook h).
Proof.
  intros st r st' _. unfold hook. destruct (h (world st)) as [[a|e] w]; intros [= <- <-]; apply R_world.
Qed.

Lemma pres_act self f : pres R P self (act f).
Proof. intros st r st' _ [= <- <-]. apply R_world. Qed.

Lemma pres_ask {A} self (f : E → A) : pres R P self (ask f).
Proof. intros st r st' _ [= <- <-]. apply R_refl. Qed.

Lemma pres_setitem self i d : pres R P self (setitem_args self i (VData d)).
Proof.
  apply pres_bind; [apply pres_deref|]. intros n. case_decide; [|apply pres_raise].
  intros st r st' _ [= <- <-]. apply R_setitem.
Qed.

Lemma pres_reset self : pres R P self (reset self).
Proof. intros st r st' _ [= <- <-]. apply R_reset. Qed.

Lemma pres_set_last self a b :
  id ≠ None → (a = None ∧ b = None) ∨ (a = id ∧ b ≠ None) →
  pres R P self (update self (set_last a b)).
Proof. intros Hid Hab st r st' _ [= <- <-]. by apply R_last. Qed.

Lemma pres_resolve_args ev self s l :
  (∀ c, VFut c ∈ l → child_ok self c) →
  (∀ c, pres R P c (ev c)) →
  ∀ i all_eval, pres R P self (resolve_args ev self s i l all_eval).
Proof.
  intros Hl Hev. induction l as [|a l IH]; intros i all_eval; simpl.
  - apply pres_ret.
  - apply pres_bind.
    { destruct a as [z|d|c|c]; try apply pres_ret.
      destruct (dkind d); [apply pres_ret|].
      apply pres_bind; [by apply pres_emit|]. intros _. apply pres_act. }
    intros _. apply pres_bind.
    { destruct a as [z|d|c|c]; try apply pres_ret.
      apply pres_bind.
      { intros st r st' HP Hrun. eapply R_child; [apply Hl; left|]. eapply Hev; eauto. }
      intros a_eval. apply pres_bind; [by apply pres_emit|]. intros _.
      destruct a_eval; [|apply pres_ret].
      apply pres_bind; [apply pres_setitem|]. intros _. apply pres_ret. }
    intros all_eval'. apply IH. intros c Hc. apply Hl. by right.
Qed.

Lemma pres_layout_gate self force : pres R P self (layout_gate self force).
Proof.
  apply pres_bind; [apply pres_deref|]. intros n. destruct force.
  - apply pres_bind; [by apply pres_emit|]. intros _.
    apply pres_bind; [apply pres_hook|]. intros _. apply pres_ret.
  - apply pres_bind; [apply pres_hook|]. intros b.
    apply pres_bind; [by apply pres_emit|]. intros _. apply pres_ret.
Qed.

Lemma pres_allocate_output self : pres R P self (allocate_output self).
Proof.
  apply pres_bind; [apply pres_deref|]. intros n.
  match goal with |- pres _ _ _ (let allocate := ?m in _) => assert (pres R P self m) as Halloc end.
  { apply pres_bind; [apply pres_hook|]. intros o.
    apply pres_bind; [by apply pres_emit|]. intros _. apply pres_ret. }
  simpl. destruct (out n); [|exact Halloc].
  apply pres_bind; [apply pres_ask|]. intros [|]; [apply pres_ret|exact Halloc].
Qed.

Lemma pres_pipeline ev self force :
  (∀ c, pres R P c (ev c)) → pres R P self (pipeline ev self id force).
Proof.
  intros Hev st r st' HP. unfold pipeline.
  unfold bind at 1. unfold deref at 1. destruct (nodes st !! self) as [n0|] eqn:Hn0;
    [|intros [= <- <-]; apply R_refl].
  revert st' r.
  match goal with |- ∀ st' r, ?m st = _ → _ => enough (pres R P self m) as Hp by (intros; eapply Hp; eauto) end.
  apply pres_bind.
  { apply pres_resolve_args; [|done]. intros c Hc. eapply P_children; eauto. }
  intros all_eval. destruct all_eval; simpl; [|apply pres_ret].
  apply pres_bind; [apply pres_layout_gate|].
  intros ready. destruct ready; simpl; [|apply pres_ret].
  apply pres_bind; [apply pres_allocate_output|]. intros o.
  apply pres_bind; [apply pres_deref|]. intros n2.
  apply pres_bind; [by apply pres_emit|]. intros _.
  apply pres_bind; [apply pres_act|]. intros _.
  apply pres_bind; [apply pres_deref|]. intros n3.
  apply pres_bind; [by apply pres_emit|]. intros _.
  apply pres_bind; [apply pres_hook|]. intros _.
  apply pres_bind; [apply pres_reset|]. intros _.
  apply pres_bind; [|intros _; apply pres_ret].
  destruct (store_last (cls n3)); simpl; [|apply pres_ret].
  case_bool_decide; [apply pres_set_last; [done|by right]|apply pres_ret].
Qed.

Theorem pres_evaluate k : ∀ self force, pres R P self (evaluate k self id force).
Proof.
  induction k as [|k IH]; intros self force; simpl.
  - intros st r st' _ [= <- <-]. apply R_refl.
  - apply pres_bind; [apply pres_deref|]. intros n.
    destruct (store_last (cls n)); simpl; [|apply pres_pipeline; intros c; apply IH].
    case_bool_decide as Hid; simpl; [|apply pres_pipeline; intros c; apply IH].
    case_bool_decide; [apply pres_ret|].
    apply pres_bind; [apply pres_set_last; [done|by left]|]. intros _.
    apply pres_pipeline. intros c. apply IH.
Qed.
End preservation.


Section invariants.
Context {E : Type} `{OperatorClasses hvalue} `{Collaborators E}.



Lemma stable_nodes (st st' : state E) Δ :
  nodes st' = nodes st → trace st' = trace st ++ Δ → stable st st'.
Proof.
  intros Heq Ht. split; [|by exists Δ].
  intros l n Hl. exists n. rewrite Heq. by repeat split.
Qed.

Lemma stable_refl (st : state E) : stable st st.
Proof. apply (stable_nodes st st []); [done|by rewrite app_nil_r]. Qed.

Lemma stable_trans (st1 st2 st3 : state E) : stable st1 st2 → stable st2 st3 → stable st1 st3.
Proof.
  intros [H12 (Δ1 & T1)] [H23 (Δ2 & T2)]. split.
  - intros l n Hl. destruct (H12 _ _ Hl) as (n2 & Hl2 & S2).
    destruct (H23 _ _ Hl2) as (n3 & Hl3 & S3). exists n3. split; [done|].
    unfold same_shape in *. intuition congruence.
  - exists (Δ1 ++ Δ2). by rewrite T2, T1, app_assoc.
Qed.

Lemma stable_alter (f : hnode → hnode) self (st : state E) :
  (∀ n, same_shape n (f n)) →
  stable st (State (alter f self (nodes st)) (world st) (trace st)).
Proof.
  intros Hf. split; [|exists []; by rewrite app_nil_r].
  intros l n Hl. simpl. destruct (decide (self = l)) as [->|Hne].
  - exists (f n). rewrite lookup_alter_eq, Hl. done.
  - exists n. rewrite lookup_alter_ne by done. split; [done|]. by repeat split.
Qed.

Lemma stable_steps :
  (∀ (self : loc) (st : state E) e,
     stable st (State (nodes st) (world st) (trace st ++ [e]))) ∧
  (∀ (self : loc) (st : state E) w, stable st (State (nodes st) w (trace st))).
Proof.
  split; intros.
  - by apply (stable_nodes _ _ [e]).
  - apply (stable_nodes _ _ []); [done|]. by rewrite app_nil_r.
Qed.

Lemma evaluate_stable k self id force (st st' : state E) r :
  evaluate k self id force st = (r, st') → stable st st'.
Proof.
  intros Hrun. destruct stable_steps as [Hemit Hworld].
  eapply (pres_evaluate (fun _ => stable) (fun _ => True) (fun _ _ => True) id);
    [..|exact Hrun]; try done;
    try solve [intros; first [apply stable_refl | by apply Hemit | by apply Hworld
                             | by apply stable_alter | eapply stable_trans; eassumption]].
Qed.

Lemma memo_kept_nodes (st st' : state E) : nodes st' = nodes st → memo_kept st st'.
Proof. intros Heq l n Hl. exists n. by rewrite Heq. Qed.

Lemma memo_kept_refl (st : state E) : memo_kept st st.
Proof. by apply memo_kept_nodes. Qed.

Lemma memo_kept_trans (st1 st2 st3 : state E) : memo_kept st1 st2 → memo_kept st2 st3 → memo_kept st1 st3.
Proof.
  intros H12 H23 l n Hl. destruct (H12 _ _ Hl) as (n2 & Hl2 & ? & ?).
  destruct (H23 _ _ Hl2) as (n3 & Hl3 & ? & ?). exists n3. split; [done|]. split; congruence.
Qed.

Lemma memo_kept_set_args g self (st : state E) w t :
  memo_kept st (State (alter (fun n => set_args (g n) n) self (nodes st)) w t).
Proof.
  intros l n Hl. simpl. destruct (decide (self = l)) as [->|Hne].
  - exists (set_args (g n) n). rewrite lookup_alter_eq, Hl. done.
  - exists n. by rewrite lookup_alter_ne.
Qed.

Lemma evaluate_memo_kept k self force (st st' : state E) r :
  evaluate k self None force st = (r, st') → memo_kept st st'.
Proof.
  intros Hrun.
  eapply (pres_evaluate (fun _ => memo_kept) (fun _ => True) (fun _ _ => True) None);
    [..|exact Hrun]; try done;
    try solve [intros; first [by apply memo_kept_nodes
                             | apply (memo_kept_set_args (fun n => <[_:=_]> (args n)))
                             | apply (memo_kept_set_args original_args)]].
  intros _. apply memo_kept_trans.
Qed.
End invariants.

Section frame.
Context {E : Type} `{OperatorClasses hvalue} `{Collaborators E}.
Variable rank : loc → nat.


Lemma framed_nodes self (st st' : state E) Δ :
  nodes st' = nodes st → trace st' = trace st ++ Δ →
  Forall (fun e => rank (actor e) ≤ rank self) Δ →
  framed rank self st st'.
Proof.
  intros Hn Ht HΔ. split; [|split].
  - unfold acyclic. by rewrite Hn.
  - intros. by rewrite Hn.
  - eauto.
Qed.

Lemma framed_refl self (st : state E) : framed rank self st st.
Proof. apply (framed_nodes self st st []); [done|by rewrite app_nil_r|constructor]. Qed.

Lemma framed_trans self (st1 st2 st3 : state E) :
  framed rank self st1 st2 → framed rank self st2 st3 → framed rank self st1 st3.
Proof.
  intros (A1 & F1 & Δ1 & T1 & R1) (A2 & F2 & Δ2 & T2 & R2). split; [|split].
  - auto.
  - intros l Hl. rewrite F2, F1; done.
  - exists (Δ1 ++ Δ2). split; [by rewrite T2, T1, app_assoc|]. by apply Forall_app.
Qed.

Lemma framed_alter (f : hnode → hnode) self (st : state E) :
  (∀ l n, Forall (below rank l) (args n) ∧ Forall (below rank l) (original_args n) →
          Forall (below rank l) (args (f n)) ∧ Forall (below rank l) (original_args (f n))) →
  framed rank self st (State (alter f self (nodes st)) (world st) (trace st)).
Proof.
  intros Hf. split; [|split].
  - intros Hac l n. simpl. rewrite lookup_alter. case_decide as Hl.
    + subst l. destruct (nodes st !! self) as [n0|] eqn:Hn0; simpl; [|done].
      intros [= <-]. apply Hf. by apply (Hac self n0).
    + apply Hac.
  - intros l Hl. simpl. apply lookup_alter_ne. intros ->. lia.
  - exists []. split; [by rewrite app_nil_r|constructor].
Qed.

Lemma framed_child self c (st st' : state E) : rank c < rank self → framed rank c st st' → framed rank self st st'.
Proof.
  intros Hc (A & F & Δ & T & R). split; [done|split].
  - intros l Hl. apply F. lia.
  - exists Δ. split; [done|]. eapply Forall_impl; [exact R|]. simpl. intros. lia.
Qed.

Lemma evaluate_framed k self id force (st st' : state E) r :
  acyclic rank st → evaluate k self id force st = (r, st') → framed rank self st st'.
Proof.
  intros Hac Hrun.
  eapply (pres_evaluate (framed rank) (acyclic rank) (fun s c => rank c < rank s) id);
    [..|exact Hac|exact Hrun].
  - apply framed_refl.
  - apply framed_trans.
  - intros ? ? ? Hst (A & _). auto.
  - intros s st0 e He. apply (framed_nodes s st0 _ [e]); [done|done|].
    constructor; [|constructor]. rewrite He. done.
  - intros s st0 w. apply (framed_nodes s st0 _ []); [done|by rewrite app_nil_r|constructor].
  - intros s st0 i d. apply framed_alter. intros l n [Ha Ho]. simpl. split; [|done].
    by apply Forall_insert.
  - intros s st0. apply framed_alter. intros l n [Ha Ho]. done.
  - intros s st0 a b _ _. apply framed_alter. intros l n [Ha Ho]. done.
  - intros s c st0 st1 Hc. by apply framed_child.
  - intros st0 s n c Hst Hn Hc. destruct (Hst s n Hn) as [Ha _].
    rewrite Forall_forall in Ha. apply (Ha _ Hc).
Qed.

Lemma own_below self Δ :
  Forall (fun e => rank (actor e) < rank self) Δ →
  filter (fun e => actor e = self) Δ = [].
Proof.
  induction 1 as [|e Δ He _ IH]; [done|].
  rewrite filter_cons. case_decide as Heq; [|done]. rewrite Heq in He. lia.
Qed.
End frame.

Lemma bind_returns {E A B} (m : M E A) (k : A → M E B) st b st' :
  bind m k st = (Returns b, st') →
  ∃ a st1, m st = (Returns a, st1) ∧ k a st1 = (Returns b, st').
Proof.
  intros Hrun. apply bind_inv in Hrun as [?|[(e & _ & ?)|[_ ?]]]; done.
Qed.


Section loop.
Context {E : Type} `{OperatorClasses hvalue} `{Collaborators E}.
Variable rank : loc → nat.

Lemma own_app self Δ1 Δ2 : own self (Δ1 ++ Δ2) = own self Δ1 ++ own self Δ2.
Proof. apply filter_app. Qed.

Lemma set_args_id (n : hnode) : set_args (args n) n = n.
Proof. by destruct n. Qed.

Lemma set_args_set_args (l1 l2 : list hvalue) (n : hnode) :
  set_args l1 (set_args l2 n) = set_args l1 n.
Proof. reflexivity. Qed.

Lemma resolve_args_spec k id force self s l :
  ∀ pre all_eval (st : state E) n all_eval' st1,
  acyclic rank st → nodes st !! self = Some n → args n = pre ++ l →
  resolve_args (fun a => evaluate k a id force) self s (length pre) l all_eval st
    = (Returns all_eval', st1) →
  ∃ l' Δ,
    nodes st1 !! self = Some (set_args (pre ++ l') n) ∧
    Forall2 resolved l l' ∧
    all_eval' = all_eval && forallb (fun v => negb (is_fut v)) l' ∧
    trace st1 = trace st ++ Δ ∧
    own self Δ = loop_events self s (length pre) l l' ∧
    Forall (fun e => rank (actor e) ≤ rank self) Δ ∧
    acyclic rank st1.
Proof.
  induction l as [|a l IH]; intros pre all_eval st n all_eval' st1 Hac Hn Hargs Hrun.
  - simpl in Hrun. injection Hrun as <- <-. exists [], []. rewrite app_nil_r in *.
    split_and!; try done.
    + by rewrite <- Hargs, set_args_id.
    + by rewrite andb_true_r.
    + by rewrite app_nil_r.
  - simpl in Hrun.
    apply bind_returns in Hrun as ([] & sta & Hscale & Hrun).
    apply bind_returns in Hrun as (flag & stb & Hcall & Hrun).
    assert (∃ a' Δa, nodes stb !! self = Some (set_args (pre ++ a' :: l) n) ∧
                     resolved a a' ∧ flag = all_eval && negb (is_fut a') ∧
                     trace stb = trace st ++ Δa ∧
                     own self Δa = arg_events self s (length pre) a a' ∧
                     Forall (fun e => rank (actor e) ≤ rank self) Δa ∧
                     acyclic rank stb) as (a' & Δa & Hnb & Hres & Hflag & Htr & Hown & Hrk & Hacb).
    { destruct a as [z|d|c|c].
      - injection Hscale as <-. injection Hcall as <- <-. exists (VNum z), [].
        rewrite app_nil_r, andb_true_r. split_and!; try done. by rewrite <- Hargs, set_args_id.
      - injection Hcall as <- <-. exists (VData d). destruct (dkind d) eqn:Hk.
        + injection Hscale as <-. exists []. simpl. rewrite Hk, app_nil_r, andb_true_r.
          split_and!; try done. by rewrite <- Hargs, set_args_id.
        + apply bind_returns in Hscale as ([] & st0 & Hemit & Hact).
          injection Hemit as <-. injection Hact as <-. simpl.
          exists [ERequireScales self (length pre) d s]. rewrite Hk, andb_true_r.
          split_and!; try done.
          * by rewrite <- Hargs, set_args_id.
          * unfold own. rewrite filter_cons. simpl. by rewrite decide_True.
          * by repeat constructor.
      - injection Hscale as <-.
        apply bind_returns in Hcall as (a_eval & stc & Hev & Hrest).
        assert (rank c < rank self) as Hc.
        { destruct (Hac self n Hn) as [Ha _]. rewrite Hargs in Ha.
          apply Forall_app in Ha as [_ Ha]. by inversion Ha. }
        destruct (evaluate_framed rank _ _ _ _ _ _ _ Hac Hev) as (Hacc & Hframe & Δc & Htrc & Hrkc).
        pose proof (Hframe self Hc) as Hself. rewrite Hn in Hself.
        apply bind_returns in Hrest as ([] & std & Hemit & Hrest). injection Hemit as <-.
        assert (own self (Δc ++ [EArg self (length pre) c a_eval]) = [EArg self (length pre) c a_eval]) as Hownc.
        { rewrite own_app. unfold own at 1. rewrite (own_below rank).
          - unfold own. rewrite filter_cons. simpl. by rewrite decide_True.
          - eapply Forall_impl; [exact Hrkc|]. simpl. intros. lia. }
        assert (Forall (fun e => rank (actor e) ≤ rank self) (Δc ++ [EArg self (length pre) c a_eval])) as Hrkc'.
        { apply Forall_app. split; [|by repeat constructor].
          eapply Forall_impl; [exact Hrkc|]. simpl. intros. lia. }
        destruct a_eval as [r|].
        + apply bind_returns in Hrest as ([] & ste & Hset & Hret). injection Hret as <- <-.
          unfold setitem_args in Hset. apply bind_returns in Hset as (n' & st0 & Hd & Hset).
          unfold deref in Hd. simpl in Hd. rewrite Hself in Hd. injection Hd as <- <-.
          case_decide as Hlen; [|done]. injection Hset as <-. simpl.
          exists (VData r), (Δc ++ [EArg self (length pre) c (Some r)]).
          rewrite andb_true_r. split_and!; try done.
          * rewrite lookup_alter_eq, Hself. simpl. f_equal. unfold set_args at 1. simpl.
            rewrite Hargs. rewrite (insert_app_r_alt pre) by lia.
            rewrite Nat.sub_diag. simpl. by destruct n.
          * right. eauto.
          * by rewrite Htrc, app_assoc.
          * intros l0 n0. simpl. rewrite lookup_alter. case_decide as Hl0.
            -- subst l0. rewrite Hself. simpl. intros [= <-].
               destruct (Hac self n Hn) as [Ha Ho]. simpl. split; [|done]. by apply Forall_insert.
            -- apply (Hacc Hac).
        + injection Hrest as <- <-. exists (VFut c), (Δc ++ [EArg self (length pre) c None]).
          simpl. rewrite andb_false_r. split_and!; try done.
          * rewrite Hself. by rewrite <- Hargs, set_args_id.
          * by left.
          * by rewrite Htrc, app_assoc.
          * by apply Hacc.
      - injection Hscale as <-. injection Hcall as <- <-. exists (VClass c), [].
        rewrite app_nil_r, andb_true_r. split_and!; try done. by rewrite <- Hargs, set_args_id. }
    specialize (IH (pre ++ [a']) flag stb (set_args (pre ++ a' :: l) n) all_eval' st1 Hacb Hnb).
    rewrite length_app, Nat.add_1_r in IH. simpl in IH.
    destruct IH as (l' & Δ & Hn1 & Hres' & Hflag' & Htr' & Hown' & Hrk' & Hac1);
      [by rewrite <- app_assoc|exact Hrun|].
    exists (a' :: l'), (Δa ++ Δ). split_and!.
    + rewrite Hn1, set_args_set_args, <- app_assoc. done.
    + by constructor.
    + rewrite Hflag', Hflag. simpl. by rewrite andb_assoc.
    + by rewrite Htr', Htr, app_assoc.
    + rewrite own_app, Hown, Hown'. done.
    + by apply Forall_app.
    + done.
Qed.
End loop.

Section after.
Context {E : Type} `{OperatorClasses hvalue} `{Collaborators E}.


Lemma alter_lookup (f : hnode → hnode) (m : gmap loc hnode) i n :
  m !! i = Some n → alter f i m = <[i := f n]> m.
Proof.
  intros Hn. apply map_eq. intros l. destruct (decide (i = l)) as [->|Hne].
  - by rewrite lookup_alter_eq, lookup_insert_eq, Hn.
  - by rewrite lookup_alter_ne, lookup_insert_ne.
Qed.

Lemma layout_gate_run self force (st : state E) n :
  nodes st !! self = Some n →
  layout_gate self force st =
  if force then
    match enforce_conditions n (world st) with
    | (Ok _, w) => (Returns true, State (nodes st) w (trace st ++ [EEnforce self]))
    | (Raise e, w) => (Raises e, State (nodes st) w (trace st ++ [EEnforce self]))
    end
  else
    match check_conditions n (world st) with
    | (Ok b, w) => (Returns b, State (nodes st) w (trace st ++ [ECheck self b]))
    | (Raise e, w) => (Raises e, State (nodes st) w (trace st))
    end.
Proof.
  intros Hn. unfold layout_gate, bind, deref. rewrite Hn. destruct force.
  - unfold emit, hook, ret. simpl. by destruct (enforce_conditions _ _) as [[[]|e] w].
  - unfold emit, hook, ret. simpl. by destruct (check_conditions _ _) as [[b|e] w].
Qed.

Lemma allocate_output_run self (st : state E) n :
  nodes st !! self = Some n →
  ∃ o w alloc,
    allocate_output self st = (Returns o, State (nodes st) w (trace st ++ alloc)) ∧
    (alloc = [] ∨ alloc = [ENewData self o]).
Proof.
  intros Hn. unfold allocate_output, bind at 1, deref. rewrite Hn.
  assert (∀ st0 : state E, nodes st0 = nodes st → trace st0 = trace st →
    ∃ o w,
      bind (hook (fun w => let '(o, w') :=
             new_data (future_type (cls n))
               (if any_bases (bases n)
                then FromBases (dist n) (bases n) (tensorsig n) (dtype n)
                else FromDomain (domain n)) w in (Ok o, w')))
           (fun o => bind (emit (ENewData self o)) (fun _ => ret o)) st0
      = (Returns o, State (nodes st) w (trace st ++ [ENewData self o]))) as Halloc.
  { intros st0 Hn0 Ht0. unfold bind, hook, emit, ret.
    destruct (new_data _ _ _) as [o w']. simpl. rewrite Hn0, Ht0. eauto. }
  simpl. destruct (out n) as [so|].
  - unfold bind at 1, ask. destruct (truth so (world st)).
    + exists so, (world st), []. rewrite app_nil_r. split; [by destruct st|auto].
    + destruct (Halloc st eq_refl eq_refl) as (o & w & ->). eauto 10.
  - destruct (Halloc st eq_refl eq_refl) as (o & w & ->). eauto 10.
Qed.

(** The rest of [pipeline], once the loop has returned [all_eval] in the
    state [st1] where the node is [n1]. *)
Lemma pipeline_after_args ev self id force (st st1 st' : state E) n0 n1 all_eval r :
  nodes st !! self = Some n0 →
  resolve_args ev self (dealias (domain n0)) 0 (args n0) true st = (Returns all_eval, st1) →
  nodes st1 !! self = Some n1 →
  pipeline ev self id force st = (r, st') →
  match r with
  | Returns None =>
      nodes st' = nodes st1 ∧
      ((all_eval = false ∧ trace st' = trace st1) ∨
       (all_eval = true ∧ force = false ∧ trace st' = trace st1 ++ [ECheck self false]))
  | Returns (Some o) =>
      all_eval = true ∧
      nodes st' = <[self := store id o (set_args (original_args n1) n1)]> (nodes st1) ∧
      ∃ alloc, (alloc = [] ∨ alloc = [ENewData self o]) ∧
        trace st' = trace st1 ++ gate_event self force :: alloc ++
                      [ESetScales self o (dealias (domain n1)); EOperate self o]
  | Raises e =>
      all_eval = true ∧ nodes st' = nodes st1 ∧
      ((force = false ∧ trace st' = trace st1 ∧
        ∃ w, check_conditions n1 (world st1) = (Raise e, w)) ∨
       (force = true ∧ trace st' = trace st1 ++ [EEnforce self] ∧
        ∃ w, enforce_conditions n1 (world st1) = (Raise e, w)) ∨
       (∃ o alloc w w', trace st' = trace st1 ++ gate_event self force :: alloc ++
                      [ESetScales self o (dealias (domain n1)); EOperate self o] ∧
                    operate n1 o w = (Raise e, w')))
  | OutOfFuel => False
  end.
Proof.
  intros Hn0 Hloop Hn1. unfold pipeline.
  unfold bind at 1. unfold deref at 1. rewrite Hn0.
  unfold bind at 1. rewrite Hloop.
  destruct all_eval; simpl; [|intros [= <- <-]; auto].
  unfold bind at 1. rewrite (layout_gate_run _ _ _ _ Hn1).
  set (st2 := fun w : E => State (nodes st1) w (trace st1 ++ [gate_event self force])).
  assert (∀ w, nodes (st2 w) !! self = Some n1) as Hn2 by done.
  assert (∀ w, bind (allocate_output self) (fun o =>
      bind (deref self) (fun n2 =>
      bind (emit (ESetScales self o (dealias (domain n2)))) (fun _ =>
      bind (act (set_scales o (dealias (domain n2)))) (fun _ =>
      bind (deref self) (fun n3 =>
      bind (emit (EOperate self o)) (fun _ =>
      bind (hook (operate n3 o)) (fun _ =>
      bind (reset self) (fun _ =>
      bind (if store_last (cls n3) && bool_decide (id ≠ None)
            then update self (set_last id (Some o)) else ret tt) (fun _ =>
      ret (Some o)))))))))) (st2 w) = (r, st') →
    match r with
    | Returns None => False
    | Returns (Some o) =>
        nodes st' = <[self := store id o (set_args (original_args n1) n1)]> (nodes st1) ∧
        ∃ alloc, (alloc = [] ∨ alloc = [ENewData self o]) ∧
          trace st' = trace st1 ++ gate_event self force :: alloc ++
                        [ESetScales self o (dealias (domain n1)); EOperate self o]
    | Raises e =>
        nodes st' = nodes st1 ∧
        ∃ o alloc w w', trace st' = trace st1 ++ gate_event self force :: alloc ++
                        [ESetScales self o (dealias (domain n1)); EOperate self o] ∧
                      operate n1 o w = (Raise e, w')
    | OutOfFuel => False
    end) as Hrest.
  { intros w. unfold bind at 1.
    destruct (allocate_output_run self (st2 w) n1 (Hn2 w)) as (o & w2 & alloc & -> & Halloc).
    unfold bind, deref, emit, act, hook, reset, update, ret. simpl. rewrite Hn1. simpl.
    rewrite Hn1.
    destruct (operate n1 o _) as [[[]|e] w4] eqn:Hop; simpl.
    - unfold store. simpl.
      destruct (store_last (cls n1) && bool_decide (id ≠ None)); simpl;
        intros [= <- <-]; simpl; (split;
          [rewrite !(alter_lookup _ _ _ _ Hn1);
           rewrite ?(alter_lookup _ _ self (set_args (original_args n1) n1))
             by apply lookup_insert_eq;
           by rewrite ?insert_insert_eq
          |exists alloc; split; [done|];
           rewrite <- ?app_assoc; simpl; by rewrite <- ?app_assoc]).
    - intros [= <- <-]. simpl. split; [done|]. exists o, alloc. do 2 eexists.
      split; [|exact Hop]. rewrite <- ?app_assoc. simpl. by rewrite <- ?app_assoc. }
  destruct force.
  - destruct (enforce_conditions n1 (world st1)) as [[[]|e] w1] eqn:Hg; simpl.
    + intros Hrun. apply Hrest in Hrun.
      destruct r as [[o|]|e|];
        [by split|done
        |destruct Hrun as [? (o & alloc & w & w' & ? & ?)];
         split_and!; [done|done|right; right; by exists o, alloc, w, w']
        |done].
    + intros [= <- <-]. simpl.
      split_and!; [done|done|right; left; split_and!; [done|done|by exists w1]].
  - destruct (check_conditions n1 (world st1)) as [[[|]|e] w1] eqn:Hg; simpl.
    + intros Hrun. apply Hrest in Hrun.
      destruct r as [[o|]|e|];
        [by split|done
        |destruct Hrun as [? (o & alloc & w & w' & ? & ?)];
         split_and!; [done|done|right; right; by exists o, alloc, w, w']
        |done].
    + intros [= <- <-]. simpl. auto.
    + intros [= <- <-]. simpl.
      split_and!; [done|done|left; split_and!; [done|done|by exists w1]].
Qed.
End after.


Section master.
Context {E : Type} `{OperatorClasses hvalue} `{Collaborators E}.
Variable rank : loc → nat.


Lemma evaluate_hit k self id force (st : state E) n :
  nodes st !! self = Some n → cache_hit n id = true →
  evaluate (S k) self id force st = (Returns (last_out n), st).
Proof.
  intros Hn Hhit. unfold cache_hit in Hhit. apply andb_true_iff in Hhit as [Hc Hid].
  simpl. unfold bind at 1, deref. rewrite Hn, Hc, Hid. done.
Qed.

Lemma evaluate_miss k self id force (st : state E) n :
  nodes st !! self = Some n → cache_hit n id = false →
  evaluate (S k) self id force st =
  pipeline (fun a => evaluate k a id force) self id force
    (State (<[self := checked n id]> (nodes st)) (world st) (trace st)).
Proof.
  intros Hn Hmiss. unfold cache_hit in Hmiss. unfold checked.
  simpl. unfold bind at 1, deref at 1. rewrite Hn.
  destruct (store_last (cls n) && bool_decide (id ≠ None)); simpl in *.
  - rewrite Hmiss. unfold bind at 1, update. simpl.
    by rewrite (alter_lookup _ _ _ _ Hn).
  - rewrite insert_id by done. by destruct st.
Qed.

Lemma acyclic_checked self (st : state E) n id :
  acyclic rank st → nodes st !! self = Some n →
  acyclic rank (State (<[self := checked n id]> (nodes st)) (world st) (trace st)).
Proof.
  intros Hac Hn. unfold acyclic. simpl. apply map_Forall_insert_2; [|done].
  unfold checked. destruct (_ && _); simpl; apply (Hac self n Hn).
Qed.

Lemma resolve_args_events k id force self s l :
  ∀ i all_eval (st : state E) n r st1,
  acyclic rank st → nodes st !! self = Some n → Forall (below rank self) l →
  resolve_args (fun a => evaluate k a id force) self s i l all_eval st = (r, st1) →
  ∃ Δ, trace st1 = trace st ++ Δ ∧ Forall (fun e => actor e = self → loop_kind e) Δ.
Proof.
  induction l as [|a l IH]; intros i all_eval st n r st1 Hac Hn Hl Hrun.
  - injection Hrun as <- <-. exists []. by rewrite app_nil_r.
  - apply Forall_cons in Hl as [Ha Hl]. simpl in Hrun.
    assert (∀ (st0 st2 : state E) Δ0 n0 r0,
      trace st0 = trace st ++ Δ0 → Forall (fun e => actor e = self → loop_kind e) Δ0 →
      acyclic rank st0 → nodes st0 !! self = Some n0 →
      resolve_args (fun a => evaluate k a id force) self s (S i) l r0 st0 = (r, st2) →
      ∃ Δ, trace st2 = trace st ++ Δ ∧ Forall (fun e => actor e = self → loop_kind e) Δ)
      as Hnext.
    { intros st0 st2 Δ0 n0 r0 Ht0 HΔ0 Hac0 Hn0 Hrun0.
      destruct (IH _ _ _ _ _ _ Hac0 Hn0 Hl Hrun0) as (Δ & Ht & HΔ).
      exists (Δ0 ++ Δ). split; [by rewrite Ht, Ht0, app_assoc|by apply Forall_app]. }
    destruct a as [z|d|c|c].
    + eapply (Hnext st _ [] n); [by rewrite app_nil_r|done|done|done|exact Hrun].
    + destruct (dkind d).
      * eapply (Hnext st _ [] n); [by rewrite app_nil_r|done|done|done|exact Hrun].
      * eapply (Hnext _ _ [ERequireScales self i d s] n); [| | | |exact Hrun]; try done.
        by repeat constructor.
    + unfold bind at 1 in Hrun. simpl in Hrun. unfold bind at 1 in Hrun. unfold bind at 1 in Hrun.
      destruct (evaluate k c id force st) as [rc stc] eqn:Hev.
      destruct (evaluate_framed rank _ _ _ _ _ _ _ Hac Hev) as (Hacc & Hframe & Δc & Htrc & Hrkc).
      simpl in Ha. pose proof (Hframe self Ha) as Hself. rewrite Hn in Hself.
      assert (Forall (fun e => actor e = self → loop_kind e) Δc) as HΔc.
      { eapply Forall_impl; [exact Hrkc|]. simpl. intros e He Heq. rewrite Heq in He. lia. }
      destruct rc as [a_eval|e|]; [|injection Hrun as <- <-; eauto..].
      unfold bind at 1, emit at 1 in Hrun.
      assert (Forall (fun e => actor e = self → loop_kind e) (Δc ++ [EArg self i c a_eval])) as HΔc'.
      { apply Forall_app. split; [done|]. by repeat constructor. }
      destruct a_eval as [rv|].
      * unfold bind at 1, setitem_args, bind at 1, deref in Hrun. simpl in Hrun.
        rewrite Hself in Hrun. case_decide.
        -- unfold update in Hrun. simpl in Hrun.
           eapply (Hnext _ _ (Δc ++ [EArg self i c (Some rv)])); [| | | |exact Hrun]; simpl.
           ++ by rewrite Htrc, app_assoc.
           ++ done.
           ++ intros l0 n0. simpl. rewrite lookup_alter. case_decide as Hl0.
              ** subst l0. rewrite Hself. simpl. intros [= <-].
                 destruct (Hac self n Hn) as [Han Hon]. simpl. split; [|done]. by apply Forall_insert.
              ** apply (Hacc Hac).
           ++ rewrite lookup_alter_eq, Hself. done.
        -- injection Hrun as <- <-. simpl. exists (Δc ++ [EArg self i c (Some rv)]).
           split; [by rewrite Htrc, app_assoc|done].
      * eapply (Hnext _ _ (Δc ++ [EArg self i c None])); [| | | |exact Hrun]; simpl.
        -- by rewrite Htrc, app_assoc.
        -- done.
        -- by apply Hacc.
        -- exact Hself.
    + eapply (Hnext st _ [] n); [by rewrite app_nil_r|done|done|done|exact Hrun].
Qed.

(** What a call that misses the cache does, up to the end of the loop and
    after it. *)
Lemma evaluate_miss_inv k self id force (st st' : state E) n r :
  acyclic rank st → nodes st !! self = Some n → cache_hit n id = false →
  evaluate (S k) self id force st = (r, st') →
  (∃ Δ, trace st' = trace st ++ Δ ∧ Forall (fun e => actor e = self → loop_kind e) Δ ∧
        ∀ v, r ≠ Returns v) ∨
  (∃ l' Δ1 st1,
     Forall2 resolved (args n) l' ∧
     nodes st1 !! self = Some (set_args l' (checked n id)) ∧
     trace st1 = trace st ++ Δ1 ∧
     own self Δ1 = loop_events self (dealias (domain n)) 0 (args n) l' ∧
     pipeline (fun a => evaluate k a id force) self id force
       (State (<[self := checked n id]> (nodes st)) (world st) (trace st)) = (r, st') ∧
     resolve_args (fun a => evaluate k a id force) self (dealias (domain (checked n id))) 0
       (args (checked n id)) true
       (State (<[self := checked n id]> (nodes st)) (world st) (trace st))
       = (Returns (forallb (fun v => negb (is_fut v)) l'), st1)).
Proof.
  intros Hac Hn Hmiss Hrun. rewrite (evaluate_miss _ _ _ _ _ _ Hn Hmiss) in Hrun.
  set (stc := State (<[self := checked n id]> (nodes st)) (world st) (trace st)) in *.
  assert (nodes stc !! self = Some (checked n id)) as Hnc by apply lookup_insert_eq.
  assert (acyclic rank stc) as Hacc by by apply acyclic_checked.
  assert (args (checked n id) = args n) as Hargs by (unfold checked; by destruct (_ && _)).
  assert (domain (checked n id) = domain n) as Hdom by (unfold checked; by destruct (_ && _)).
  pose proof Hrun as Hrun0.
  unfold pipeline in Hrun. unfold bind at 1, deref at 1 in Hrun. rewrite Hnc in Hrun.
  unfold bind at 1 in Hrun.
  destruct (resolve_args _ self _ 0 _ true stc) as [rl st1] eqn:Hloop.
  destruct rl as [all_eval|e|].
  - right. destruct (resolve_args_spec rank k id force self _ _ [] true stc _ _ _ Hacc Hnc eq_refl Hloop)
      as (l' & Δ1 & Hn1 & Hres & Hflag & Htr & Hown & _ & _).
    simpl in *. exists l', Δ1, st1. rewrite Hargs in Hres, Hown. rewrite Hdom in Hown.
    subst all_eval. split_and!; done.
  - left. destruct (Hacc self _ Hnc) as [Ha _].
    destruct (resolve_args_events _ _ _ _ _ _ _ _ _ _ _ _ Hacc Hnc Ha Hloop) as (Δ & Ht & HΔ).
    injection Hrun as <- <-. exists Δ. split_and!; done.
  - left. destruct (Hacc self _ Hnc) as [Ha _].
    destruct (resolve_args_events _ _ _ _ _ _ _ _ _ _ _ _ Hacc Hnc Ha Hloop) as (Δ & Ht & HΔ).
    injection Hrun as <- <-. exists Δ. split_and!; done.
Qed.
End master.

Lemma elem_of_own self e Δ : e ∈ own self Δ ↔ e ∈ Δ ∧ actor e = self.
Proof. unfold own. rewrite list_elem_of_filter. tauto. Qed.

Lemma elem_of_loop_events self s l :
  ∀ i0 l' e, e ∈ loop_events self s i0 l l' ↔
    ∃ j a a', l !! j = Some a ∧ l' !! j = Some a' ∧ e ∈ arg_events self s (i0 + j) a a'.
Proof.
  induction l as [|a l IH]; intros i0 l' e; simpl.
  - split; [by intros ?%elem_of_nil|]. intros (j & a & a' & Hj & _). done.
  - destruct l' as [|a' l'].
    + split; [by intros ?%elem_of_nil|]. intros (j & b & b' & _ & Hj & _). done.
    + rewrite elem_of_app, IH. split.
      * intros [He|(j & b & b' & Hb & Hb' & He)].
        -- exists 0, a, a'. by rewrite Nat.add_0_r.
        -- exists (S j), b, b'. by rewrite Nat.add_succ_r.
      * intros (j & b & b' & Hb & Hb' & He). destruct j as [|j]; simpl in *.
        -- left. rewrite Nat.add_0_r in He. by simplify_eq.
        -- right. exists j, b, b'. by rewrite Nat.add_succ_r in He.
Qed.




Lemma loop_events_resampled self s l l' j d :
  Forall2 resolved l l' → l !! j = Some (VData d) → dkind d = Field →
  ERequireScales self j d s ∈ loop_events self s 0 l l'.
Proof.
  intros Hres Hj Hk. destruct (Forall2_lookup_l _ _ _ _ _ Hres Hj) as (a' & Ha' & _).
  apply elem_of_loop_events. exists j, (VData d), a'. split_and!; try done.
  simpl. rewrite Hk. by apply list_elem_of_singleton.
Qed.

Lemma resolved_all (l l' : list hvalue) :
  Forall2 resolved l l' → forallb (fun v => negb (is_fut v)) l' = true →
  Forall (fun v => is_fut v = false) l'.
Proof.
  intros _ Hall. rewrite forallb_forall in Hall. apply Forall_forall. intros v Hv.
  apply list_elem_of_In in Hv. apply Hall in Hv. by destruct (is_fut v).
Qed.

Section inversions.
Context {E : Type} `{OperatorClasses hvalue} `{Collaborators E}.

Lemma resolve_args_stable k id force self s l i all_eval (st st1 : state E) r :
  resolve_args (fun a => evaluate k a id force) self s i l all_eval st = (r, st1) →
  stable st st1.
Proof.
  intros Hrun. destruct (@stable_steps E) as [Hemit Hworld].
  eapply (pres_resolve_args (fun _ => stable) (fun _ => True) (fun _ _ => True));
    [..|exact I|exact Hrun]; try done;
    try solve [intros; first [apply stable_refl | by apply Hemit | by apply Hworld
                             | by apply stable_alter | eapply stable_trans; eassumption]].
  intros c st0 r0 st2 _ Hev. by eapply evaluate_stable.
Qed.

Lemma checked_shape n id :
  cls (checked n id) = cls n ∧ args (checked n id) = args n ∧
  original_args (checked n id) = original_args n ∧ domain (checked n id) = domain n.
Proof. unfold checked. by destruct (_ && _). Qed.

(** A call that misses the cache and returns an output ends with [reset]
    and the storage update. *)
Lemma evaluate_success_inv k self id force (st st' : state E) n o :
  nodes st !! self = Some n → cache_hit n id = false →
  evaluate (S k) self id force st = (Returns (Some o), st') →
  ∃ n1, cls n1 = cls n ∧ original_args n1 = original_args n ∧
        nodes st' !! self = Some (store id o (set_args (original_args n1) n1)).
Proof.
  intros Hn Hmiss Hrun. rewrite (evaluate_miss _ _ _ _ _ _ Hn Hmiss) in Hrun.
  set (stc := State (<[self := checked n id]> (nodes st)) (world st) (trace st)) in *.
  assert (nodes stc !! self = Some (checked n id)) as Hnc by apply lookup_insert_eq.
  pose proof Hrun as Hrun0.
  unfold pipeline in Hrun. unfold bind at 1, deref at 1 in Hrun. rewrite Hnc in Hrun.
  unfold bind at 1 in Hrun.
  destruct (resolve_args _ self _ 0 _ true stc) as [rl st1] eqn:Hloop.
  destruct rl as [all_eval|e|]; [|done..].
  destruct (resolve_args_stable _ _ _ _ _ _ _ _ _ _ _ Hloop) as [Hst _].
  destruct (Hst _ _ Hnc) as (n1 & Hn1 & Hshape).
  pose proof (pipeline_after_args _ _ _ _ _ _ _ _ _ _ _ Hnc Hloop Hn1 Hrun0) as (_ & Hnodes & _).
  destruct Hshape as (Hc & Ho & _). destruct (checked_shape n id) as (Hc' & _ & Ho' & _).
  exists n1. split_and!; [congruence..|]. rewrite Hnodes. apply lookup_insert_eq.
Qed.

Lemma store_args id o (n : hnode) :
  args (store id o n) = args n ∧ original_args (store id o n) = original_args n.
Proof. unfold store. by destruct (_ && _). Qed.

Variable rank : loc → nat.

(** A call that misses the cache and returns: the loop first, then the
    end of the pipeline. *)
Lemma evaluate_returns_inv k self id force (st st' : state E) n r :
  acyclic rank st → nodes st !! self = Some n → cache_hit n id = false →
  evaluate (S k) self id force st = (Returns r, st') →
  ∃ l' Δ1 (st1 : state E),
    Forall2 resolved (args n) l' ∧
    trace st1 = trace st ++ Δ1 ∧
    own self Δ1 = loop_events self (dealias (domain n)) 0 (args n) l' ∧
    match r with
    | None =>
        nodes st' !! self = Some (set_args l' (checked n id)) ∧
        ((forallb (fun v => negb (is_fut v)) l' = false ∧ trace st' = trace st1) ∨
         (forallb (fun v => negb (is_fut v)) l' = true ∧ force = false ∧
          trace st' = trace st1 ++ [ECheck self false]))
    | Some o =>
        forallb (fun v => negb (is_fut v)) l' = true ∧
        ∃ alloc, (alloc = [] ∨ alloc = [ENewData self o]) ∧
          trace st' = trace st1 ++ gate_event self force :: alloc ++
                        [ESetScales self o (dealias (domain n)); EOperate self o]
    end.
Proof.
  intros Hac Hn Hmiss Hrun.
  destruct (evaluate_miss_inv rank _ _ _ _ _ _ _ _ Hac Hn Hmiss Hrun)
    as [(Δ & _ & _ & Hno)|(l' & Δ1 & st1 & Hres & Hn1 & Htr & Hown & Hpipe & Hloop)];
    [by destruct (Hno r)|].
  exists l', Δ1, st1. split_and!; try done.
  pose proof (pipeline_after_args _ _ _ _ _ _ _ _ _ _ _
                (lookup_insert_eq _ _ _) Hloop Hn1 Hpipe) as Hafter.
  destruct (checked_shape n id) as (_ & _ & _ & Hdom).
  destruct r as [o|].
  - destruct Hafter as (Hall & _ & alloc & Halloc & Htr'). split; [done|].
    exists alloc. split; [done|]. rewrite Htr'. unfold domain in *. simpl. by rewrite Hdom.
  - destruct Hafter as (Hnodes & Hcases). rewrite Hnodes. split; [done|]. tauto.
Qed.
End inversions.

Section fuel.
Context {E : Type} `{OperatorClasses hvalue} `{Collaborators E}.

Lemma refines_refl {A} (m : M E A) : refines m m.
Proof. by intros st r st' Hrun _. Qed.

Lemma refines_bind {A B} (m m' : M E A) (k k' : A → M E B) :
  refines m m' → (∀ a, refines (k a) (k' a)) → refines (bind m k) (bind m' k').
Proof.
  intros Hm Hk st r st' Hrun Hr. unfold bind in *.
  destruct (m st) as [[a|e|] st1] eqn:Hmst.
  - rewrite (Hm _ _ _ Hmst) by done. by apply Hk.
  - rewrite (Hm _ _ _ Hmst) by done. done.
  - injection Hrun as <- <-. done.
Qed.

Lemma refines_resolve_args ev ev' self s l :
  (∀ c, refines (ev c) (ev' c)) →
  ∀ i all_eval, refines (resolve_args ev self s i l all_eval)
                        (resolve_args ev' self s i l all_eval).
Proof.
  intros Hev. induction l as [|a l IH]; intros i all_eval; simpl.
  - apply refines_refl.
  - apply refines_bind; [apply refines_refl|]. intros _.
    apply refines_bind; [|intros b; apply IH].
    destruct a as [z|d|c|c]; try apply refines_refl.
    apply refines_bind; [apply Hev|]. intros a_eval. apply refines_refl.
Qed.

Lemma refines_pipeline ev ev' self id force :
  (∀ c, refines (ev c) (ev' c)) →
  refines (pipeline ev self id force) (pipeline ev' self id force).
Proof.
  intros Hev. unfold pipeline.
  apply refines_bind; [apply refines_refl|]. intros n0.
  apply refines_bind; [by apply refines_resolve_args|]. intros all_eval.
  apply refines_refl.
Qed.

(** The fuel is a device of the embedding only: more of it changes no
    result. *)
Lemma evaluate_more_fuel k : ∀ self id force,
  refines (evaluate k self id force) (evaluate (S k) self id force).
Proof.
  induction k as [|k IH]; intros self id force.
  - intros st r st' [= <- <-]. done.
  - change (evaluate (S (S k)) self id force) with
      (bind (deref self) (fun n =>
         if store_last (cls n) && bool_decide (id ≠ None) then
           if bool_decide (id = last_id n) then ret (last_out n)
           else bind (update self (set_last None None)) (fun _ =>
                  pipeline (fun a => evaluate (S k) a id force) self id force)
         else pipeline (fun a => evaluate (S k) a id force) self id force)).
    change (evaluate (S k) self id force) with
      (bind (deref self) (fun n =>
         if store_last (cls n) && bool_decide (id ≠ None) then
           if bool_decide (id = last_id n) then ret (last_out n)
           else bind (update self (set_last None None)) (fun _ =>
                  pipeline (fun a => evaluate k a id force) self id force)
         else pipeline (fun a => evaluate k a id force) self id force)).
    apply refines_bind; [apply refines_refl|]. intros n.
    destruct (store_last (cls n) && bool_decide (id ≠ None)).
    + destruct (bool_decide (id = last_id n)); [apply refines_refl|].
      apply refines_bind; [apply refines_refl|]. intros _.
      apply refines_pipeline. intros c. apply IH.
    + apply refines_pipeline. intros c. apply IH.
Qed.

Variable rank : loc → nat.

Lemma resolve_args_fuel ev self s l :
  (∀ c (st0 st1 : state E) r, rank c < rank self → acyclic rank st0 →
     ev c st0 = (r, st1) → r ≠ OutOfFuel ∧ framed rank c st0 st1) →
  ∀ i all_eval (st : state E) n r st1,
  acyclic rank st → nodes st !! self = Some n → Forall (below rank self) l →
  resolve_args ev self s i l all_eval st = (r, st1) → r ≠ OutOfFuel.
Proof.
  intros Hev. induction l as [|a l IH]; intros i all_eval st n r st1 Hac Hn Hl Hrun.
  - by injection Hrun as <- <-.
  - apply Forall_cons in Hl as [Ha Hl]. simpl in Hrun.
    destruct a as [z|d|c|c].
    + eapply (IH _ _ st n); [done|done|done|exact Hrun].
    + destruct (dkind d); [eapply (IH _ _ st n); [done|done|done|exact Hrun]|].
      eapply (IH _ _ _ n); [| | |exact Hrun]; done.
    + unfold bind at 1 in Hrun. simpl in Hrun. unfold bind at 1 in Hrun.
      unfold bind at 1 in Hrun.
      destruct (ev c st) as [rc stc] eqn:Hevc. simpl in Ha.
      destruct (Hev _ _ _ _ Ha Hac Hevc) as (Hrc & Hacc & Hframe & _).
      pose proof (Hframe self Ha) as Hself. rewrite Hn in Hself.
      destruct rc as [a_eval|e|]; [|by injection Hrun as <- <-|done].
      unfold bind at 1, emit at 1 in Hrun. destruct a_eval as [rv|].
      * unfold bind at 1, setitem_args, bind at 1, deref in Hrun. simpl in Hrun.
        rewrite Hself in Hrun. case_decide; [|by injection Hrun as <- <-].
        unfold update in Hrun. simpl in Hrun.
        match type of Hrun with resolve_args _ _ _ _ _ _ ?s0 = _ =>
          assert (acyclic rank s0) as Hac';
          [|assert (nodes s0 !! self = Some (set_args (<[i:=VData rv]> (args n)) n)) as Hn';
            [|exact (IH _ _ _ _ _ _ Hac' Hn' Hl Hrun)]]
        end.
        -- intros l0 n0. simpl. rewrite lookup_alter. case_decide as Hl0.
           ++ subst l0. rewrite Hself. simpl. intros [= <-].
              destruct (Hac self n Hn) as [Han Hon]. simpl. split; [|done].
              by apply Forall_insert.
           ++ apply (Hacc Hac).
        -- simpl. rewrite lookup_alter_eq, Hself. done.
      * eapply (IH _ _ _ n); [| | |exact Hrun]; [by apply Hacc|exact Hself|done].
    + eapply (IH _ _ st n); [done|done|done|exact Hrun].
Qed.

(** In a forest-shaped store, fuel above the rank of the node is enough:
    the call returns or raises. *)
Theorem evaluate_enough_fuel k : ∀ self id force (st : state E),
  acyclic rank st → rank self < k → (evaluate k self id force st).1 ≠ OutOfFuel.
Proof.
  induction k as [|k IH]; intros self id force st Hac Hk; [lia|].
  destruct (nodes st !! self) as [n|] eqn:Hn.
  - destruct (cache_hit n id) eqn:Hhit.
    + by rewrite (evaluate_hit _ _ _ _ _ _ Hn Hhit).
    + rewrite (evaluate_miss _ _ _ _ _ _ Hn Hhit).
      set (stc := State (<[self := checked n id]> (nodes st)) (world st) (trace st)).
      assert (nodes stc !! self = Some (checked n id)) as Hnc by apply lookup_insert_eq.
      assert (acyclic rank stc) as Hacc by by apply acyclic_checked.
      destruct (pipeline _ self id force stc) as [r st'] eqn:Hpipe. simpl.
      pose proof Hpipe as Hpipe0.
      unfold pipeline in Hpipe. unfold bind at 1, deref at 1 in Hpipe. rewrite Hnc in Hpipe.
      unfold bind at 1 in Hpipe.
      destruct (resolve_args _ self _ 0 _ true stc) as [rl st1] eqn:Hloop.
      assert (rl ≠ OutOfFuel) as Hrl.
      { destruct (Hacc self _ Hnc) as [Ha _].
        assert (∀ c (st0 st2 : state E) r0, rank c < rank self → acyclic rank st0 →
                  evaluate k c id force st0 = (r0, st2) →
                  r0 ≠ OutOfFuel ∧ framed rank c st0 st2) as Hchild.
        { intros c st0 st2 r0 Hc Hac0 Hev. split.
          - intros ->. apply (IH c id force st0 Hac0); [lia|]. by rewrite Hev.
          - by eapply evaluate_framed. }
        exact (resolve_args_fuel _ _ _ _ Hchild _ _ _ _ _ _ Hacc Hnc Ha Hloop). }
      destruct rl as [all_eval|e|]; [|by injection Hpipe as <- <-|done].
      destruct (resolve_args_stable _ _ _ _ _ _ _ _ _ _ _ Hloop) as [Hst _].
      destruct (Hst _ _ Hnc) as (n1 & Hn1 & _).
      pose proof (pipeline_after_args _ _ _ _ _ _ _ _ _ _ _ Hnc Hloop Hn1 Hpipe0) as Hafter.
      by intros ->.
  - simpl. unfold bind, deref. by rewrite Hn.
Qed.
End fuel.

Section memo.
Context {E : Type} `{OperatorClasses hvalue} `{Collaborators E}.

Lemma memo_ok_alter (f : hnode → hnode) self (st : state E) (w : E) t :
  (∀ n, (last_id n ≠ None → last_out n ≠ None) →
        last_id (f n) ≠ None → last_out (f n) ≠ None) →
  memo_ok st → memo_ok (State (alter f self (nodes st)) w t).
Proof.
  intros Hf Hok l n. simpl. rewrite lookup_alter. case_decide as Hl.
  - subst l. destruct (nodes st !! self) as [n0|] eqn:Hn0; simpl; [|done].
    intros [= <-]. apply Hf. by apply (Hok self n0).
  - apply Hok.
Qed.

Lemma evaluate_memo_ok k self id force (st st' : state E) r :
  evaluate k self id force st = (r, st') → memo_ok st → memo_ok st'.
Proof.
  intros Hrun.
  eapply (pres_evaluate (fun _ st st' => memo_ok st → memo_ok st')
            (fun _ => True) (fun _ _ => True) id);
    [..|exact Hrun]; try done; try solve [intros; by apply memo_ok_alter].
  - intros; eauto.
  - intros s st0 a b Hid [[-> ->]|[-> Hb]]; apply memo_ok_alter; done.
Qed.

Lemma resolve_args_memo_ok k id force self s l i all_eval (st st1 : state E) r :
  resolve_args (fun a => evaluate k a id force) self s i l all_eval st = (r, st1) →
  memo_ok st → memo_ok st1.
Proof.
  intros Hrun.
  eapply (pres_resolve_args (fun _ st st' => memo_ok st → memo_ok st')
            (fun _ => True) (fun _ _ => True));
    [..|exact I|exact Hrun]; try done; try solve [intros; by apply memo_ok_alter].
  - intros; eauto.
  - intros c st0 r0 st2 _ Hev. by eapply evaluate_memo_ok.
Qed.

(** The stored pair after a call with an id that returned an output. *)
Lemma memo_after_success k self i force (st st' : state E) n o :
  nodes st !! self = Some n → store_last (cls n) = true →
  evaluate (S k) self (Some i) force st = (Returns (Some o), st') →
  ∃ n', nodes st' !! self = Some n' ∧ cls n' = cls n ∧
        last_id n' = Some i ∧ last_out n' = Some o.
Proof.
  intros Hn Hstore Hrun.
  destruct (evaluate_stable _ _ _ _ _ _ _ Hrun) as [Hst _].
  destruct (Hst _ _ Hn) as (n' & Hn' & Hc & _). exists n'. split_and!; try done.
  - destruct (cache_hit n (Some i)) eqn:Hhit.
    + rewrite (evaluate_hit _ _ _ _ _ _ Hn Hhit) in Hrun. injection Hrun as Hout <-.
      rewrite Hn in Hn'. injection Hn' as <-. unfold cache_hit in Hhit.
      apply andb_true_iff in Hhit as [_ Heq]. by apply bool_decide_eq_true in Heq.
    + destruct (evaluate_success_inv _ _ _ _ _ _ _ _ Hn Hhit Hrun) as (n1 & Hc1 & _ & Hn1).
      rewrite Hn' in Hn1. injection Hn1 as ->. unfold store. simpl.
      by rewrite Hc1, Hstore.
  - destruct (cache_hit n (Some i)) eqn:Hhit.
    + rewrite (evaluate_hit _ _ _ _ _ _ Hn Hhit) in Hrun. injection Hrun as Hout <-.
      rewrite Hn in Hn'. by injection Hn' as <-.
    + destruct (evaluate_success_inv _ _ _ _ _ _ _ _ Hn Hhit Hrun) as (n1 & Hc1 & _ & Hn1).
      rewrite Hn' in Hn1. injection Hn1 as ->. unfold store. simpl.
      by rewrite Hc1, Hstore.
Qed.

(** Cache correctness: after a call with an id that returned an output, a
    call with the same id returns that output again and changes nothing
    (no argument is evaluated, no hook runs). *)
Theorem same_id_returns_stored_output k k' self i force force' (st st' : state E) n o :
  nodes st !! self = Some n → store_last (cls n) = true →
  evaluate (S k) self (Some i) force st = (Returns (Some o), st') →
  evaluate (S k') self (Some i) force' st' = (Returns (Some o), st').
Proof.
  intros Hn Hstore Hrun.
  destruct (memo_after_success _ _ _ _ _ _ _ _ Hn Hstore Hrun) as (n' & Hn' & Hc & Hid & Hout).
  rewrite (evaluate_hit _ _ _ _ _ _ Hn'); [by rewrite Hout|].
  unfold cache_hit. rewrite Hc, Hstore, Hid. simpl. by rewrite bool_decide_eq_true_2.
Qed.

Variable rank : loc → nat.

Lemma resolve_args_forced ev self s l :
  (∀ c (st0 st1 : state E) r, rank c < rank self → acyclic rank st0 → memo_ok st0 →
     ev c st0 = (r, st1) →
     r ≠ Returns None ∧ framed rank c st0 st1 ∧ memo_ok st1) →
  ∀ i all_eval (st : state E) n all_eval' st1,
  acyclic rank st → memo_ok st → nodes st !! self = Some n → Forall (below rank self) l →
  resolve_args ev self s i l all_eval st = (Returns all_eval', st1) →
  all_eval' = all_eval.
Proof.
  intros Hev. induction l as [|a l IH]; intros i all_eval st n r st1 Hac Hok Hn Hl Hrun.
  - by injection Hrun as <- <-.
  - apply Forall_cons in Hl as [Ha Hl]. simpl in Hrun.
    destruct a as [z|d|c|c].
    + eapply (IH _ _ st n); [done|done|done|done|exact Hrun].
    + destruct (dkind d); [eapply (IH _ _ st n); [done|done|done|done|exact Hrun]|].
      eapply (IH _ _ _ n); [| | | |exact Hrun]; done.
    + unfold bind at 1 in Hrun. simpl in Hrun. unfold bind at 1 in Hrun.
      unfold bind at 1 in Hrun.
      destruct (ev c st) as [rc stc] eqn:Hevc. simpl in Ha.
      destruct (Hev _ _ _ _ Ha Hac Hok Hevc) as (Hrc & (Hacc & Hframe & _) & Hokc).
      pose proof (Hframe self Ha) as Hself. rewrite Hn in Hself.
      destruct rc as [a_eval|e|]; [|done..].
      unfold bind at 1, emit at 1 in Hrun. destruct a_eval as [rv|]; [|done].
      unfold bind at 1, setitem_args, bind at 1, deref in Hrun. simpl in Hrun.
      rewrite Hself in Hrun. case_decide; [|done].
      unfold update in Hrun. simpl in Hrun.
      match type of Hrun with resolve_args _ _ _ _ _ _ ?s0 = _ =>
        assert (acyclic rank s0) as Hac';
        [|assert (memo_ok s0) as Hok';
          [|assert (nodes s0 !! self = Some (set_args (<[i:=VData rv]> (args n)) n)) as Hn';
            [|exact (IH _ _ _ _ _ _ Hac' Hok' Hn' Hl Hrun)]]]
      end.
      * intros l0 n0. simpl. rewrite lookup_alter. case_decide as Hl0.
        -- subst l0. rewrite Hself. simpl. intros [= <-].
           destruct (Hac self n Hn) as [Han Hon]. simpl. split; [|done].
           by apply Forall_insert.
        -- apply (Hacc Hac).
      * apply memo_ok_alter; [done|]. simpl. done.
      * simpl. rewrite lookup_alter_eq, Hself. done.
    + eapply (IH _ _ st n); [done|done|done|done|exact Hrun].
Qed.

(** Without stale cache slots, a forced call in a forest-shaped store
    never returns the absent value. *)
Lemma forced_never_absent k : ∀ self id (st st' : state E),
  acyclic rank st → memo_ok st →
  evaluate k self id true st ≠ (Returns None, st').
Proof.
  induction k as [|k IH]; intros self id st st' Hac Hok Hrun; [done|].
  destruct (nodes st !! self) as [n|] eqn:Hn;
    [|simpl in Hrun; unfold bind, deref in Hrun; by rewrite Hn in Hrun].
  destruct (cache_hit n id) eqn:Hhit.
  - rewrite (evaluate_hit _ _ _ _ _ _ Hn Hhit) in Hrun. injection Hrun as Hout _.
    unfold cache_hit in Hhit. apply andb_true_iff in Hhit as [Hc Heq].
    apply andb_true_iff in Hc as [_ Hid].
    apply bool_decide_eq_true in Heq. apply bool_decide_eq_true in Hid.
    apply (Hok self n Hn); congruence.
  - rewrite (evaluate_miss _ _ _ _ _ _ Hn Hhit) in Hrun.
    set (stc := State (<[self := checked n id]> (nodes st)) (world st) (trace st)) in *.
    assert (nodes stc !! self = Some (checked n id)) as Hnc by apply lookup_insert_eq.
    assert (acyclic rank stc) as Hacc by by apply acyclic_checked.
    assert (memo_ok stc) as Hokc.
    { unfold memo_ok, stc. simpl. apply map_Forall_insert_2; [|done].
      unfold checked. destruct (_ && _); simpl; [done|]. apply (Hok self n Hn). }
    pose proof Hrun as Hrun0.
    unfold pipeline in Hrun. unfold bind at 1, deref at 1 in Hrun. rewrite Hnc in Hrun.
    unfold bind at 1 in Hrun.
    destruct (resolve_args _ self _ 0 _ true stc) as [rl st1] eqn:Hloop.
    destruct rl as [all_eval|e|]; [|done..].
    assert (all_eval = true) as ->.
    { destruct (Hacc self _ Hnc) as [Ha _].
      assert (∀ c (st0 st2 : state E) r0, rank c < rank self → acyclic rank st0 →
                memo_ok st0 → evaluate k c id true st0 = (r0, st2) →
                r0 ≠ Returns None ∧ framed rank c st0 st2 ∧ memo_ok st2) as Hchild.
      { intros c st0 st2 r0 Hc Hac0 Hok0 Hev. split_and!.
        - intros ->. by apply (IH c id st0 st2 Hac0 Hok0).
        - by eapply evaluate_framed.
        - by eapply evaluate_memo_ok. }
      exact (resolve_args_forced _ _ _ _ Hchild _ _ _ _ _ _ Hacc Hokc Hnc Ha Hloop). }
    destruct (resolve_args_stable _ _ _ _ _ _ _ _ _ _ _ Hloop) as [Hst _].
    destruct (Hst _ _ Hnc) as (n1 & Hn1 & _).
    pose proof (pipeline_after_args _ _ _ _ _ _ _ _ _ _ _ Hnc Hloop Hn1 Hrun0)
      as (_ & [[? _]|(_ & ? & _)]); done.
Qed.

(** Reset under [force]: a forced call that misses the cache and returns
    does return an output, and leaves [args] equal to [original_args]. *)
Theorem forced_evaluate_restores_args k self id (st st' : state E) n r :
  acyclic rank st → memo_ok st →
  nodes st !! self = Some n → cache_hit n id = false →
  evaluate (S k) self id true st = (Returns r, st') →
  ∃ o n', r = Some o ∧ nodes st' !! self = Some n' ∧ args n' = original_args n' ∧
          original_args n' = original_args n.
Proof.
  intros Hac Hok Hn Hmiss Hrun. destruct r as [o|]; [|by apply forced_never_absent in Hrun].
  destruct (evaluate_success_inv _ _ _ _ _ _ _ _ Hn Hmiss Hrun) as (n1 & _ & Ho & Hn1).
  exists o, (store id o (set_args (original_args n1) n1)). split_and!; try done.
  - by destruct (store_args id o (set_args (original_args n1) n1)) as [-> ->].
  - by destruct (store_args id o (set_args (original_args n1) n1)) as [_ ->].
Qed.
End memo.

Lemma loop_events_substituted self s l l' i c d :
  EArg self i c (Some d) ∈ loop_events self s 0 l l' → l' !! i = Some (VData d).
Proof.
  intros He. apply elem_of_loop_events in He as (j & a & a' & Ha & Ha' & He). simpl in He.
  destruct a as [z|d'|c'|c']; simpl in He; try by apply elem_of_nil in He.
  - destruct (dkind d'); [by apply elem_of_nil in He|]. by apply list_elem_of_singleton in He.
  - apply list_elem_of_singleton in He. injection He as -> -> Hd.
    destruct a' as [z|d'|c''|c'']; try done. by injection Hd as ->.
Qed.


(** ** The run of a call, step by step *)

(** A step that returns hands over to what follows it. *)
Lemma bind_run {E A B} (m : M E A) (k : A → M E B) st a st1 :
  m st = (Returns a, st1) → bind m k st = k a st1.
Proof. intros Hm. unfold bind. by rewrite Hm. Qed.

Section runs.
Context {E : Type} `{OperatorClasses hvalue} `{Collaborators E}.

(** The loop over a list is the loop over its head, then over its tail. *)
Lemma resolve_args_app ev self s l1 l2 :
  ∀ i all_eval (st : state E) all_eval' st',
  resolve_args ev self s i (l1 ++ l2) all_eval st = (Returns all_eval', st') →
  ∃ b st1, resolve_args ev self s i l1 all_eval st = (Returns b, st1) ∧
           resolve_args ev self s (i + length l1) l2 b st1 = (Returns all_eval', st').
Proof.
  induction l1 as [|a l1 IH]; intros i all_eval st all_eval' st' Hrun.
  - exists all_eval, st. simpl. by rewrite Nat.add_0_r.
  - simpl in Hrun.
    apply bind_returns in Hrun as ([] & sta & Hscale & Hrun).
    apply bind_returns in Hrun as (flag & stb & Hcall & Hrun).
    destruct (IH _ _ _ _ _ Hrun) as (b & st1 & Hl1 & Hl2).
    exists b, st1. split.
    + simpl. rewrite (bind_run _ _ _ _ _ Hscale). rewrite (bind_run _ _ _ _ _ Hcall). done.
    + simpl. by rewrite <- Nat.add_succ_comm.
Qed.

(** What the call does once its loop has found every argument evaluable:
    the gate raises, or declines, or lets the call through to [operate],
    which returns or raises. *)
Lemma pipeline_tail_cases ev self id (force : bool) (stc st1 : state E) n0 n1 :
  nodes stc !! self = Some n0 →
  resolve_args ev self (dealias (domain n0)) 0 (args n0) true stc = (Returns true, st1) →
  nodes st1 !! self = Some n1 →
  (∃ e w, (if force return Prop then enforce_conditions n1 (world st1) = (Raise e, w)
           else check_conditions n1 (world st1) = (Raise e, w)) ∧
          pipeline ev self id force stc =
            (Raises e, State (nodes st1) w
                             (trace st1 ++ (if force then [EEnforce self] else [])))) ∨
  (∃ w, force = false ∧ check_conditions n1 (world st1) = (Ok false, w) ∧
        pipeline ev self id force stc =
          (Returns None, State (nodes st1) w (trace st1 ++ [ECheck self false]))) ∨
  (∃ w1 o st3,
     (if force return Prop then enforce_conditions n1 (world st1) = (Ok tt, w1)
      else check_conditions n1 (world st1) = (Ok true, w1)) ∧
     allocate_output self (State (nodes st1) w1 (trace st1 ++ [gate_event self force]))
       = (Returns o, st3) ∧
     nodes st3 = nodes st1 ∧
     ((∃ w', operate n1 o (set_scales o (dealias (domain n1)) (world st3)) = (Ok tt, w') ∧
             pipeline ev self id force stc =
               (Returns (Some o),
                State (<[self := store id o (set_args (original_args n1) n1)]> (nodes st1)) w'
                      (trace st3 ++ [ESetScales self o (dealias (domain n1));
                                     EOperate self o]))) ∨
      (∃ e w', operate n1 o (set_scales o (dealias (domain n1)) (world st3)) = (Raise e, w') ∧
               pipeline ev self id force stc =
                 (Raises e,
                  State (nodes st1) w'
                        (trace st3 ++ [ESetScales self o (dealias (domain n1));
                                       EOperate self o]))))).
Proof.
  intros Hn0 Hloop Hn1.
  remember (pipeline ev self id force stc) as P eqn:HP.
  unfold pipeline in HP. unfold bind at 1 in HP. unfold deref at 1 in HP. rewrite Hn0 in HP.
  unfold bind at 1 in HP. rewrite Hloop in HP. cbv beta iota delta [negb] in HP.
  unfold bind at 1 in HP. rewrite (layout_gate_run _ _ _ _ Hn1) in HP.
  assert (∀ w1,
    ∃ o st3, allocate_output self (State (nodes st1) w1 (trace st1 ++ [gate_event self force]))
               = (Returns o, st3) ∧ nodes st3 = nodes st1 ∧
         bind (allocate_output self) (fun o =>
           bind (deref self) (fun n2 =>
           bind (emit (ESetScales self o (dealias (domain n2)))) (fun _ =>
           bind (act (set_scales o (dealias (domain n2)))) (fun _ =>
           bind (deref self) (fun n3 =>
           bind (emit (EOperate self o)) (fun _ =>
           bind (hook (operate n3 o)) (fun _ =>
           bind (reset self) (fun _ =>
           bind (if store_last (cls n3) && bool_decide (id ≠ None)
                 then update self (set_last id (Some o)) else ret tt) (fun _ =>
           ret (Some o))))))))))
           (State (nodes st1) w1 (trace st1 ++ [gate_event self force])) =
         match operate n1 o (set_scales o (dealias (domain n1)) (world st3)) with
         | (Ok _, w') =>
             (Returns (Some o),
              State (<[self := store id o (set_args (original_args n1) n1)]> (nodes st1)) w'
                    (trace st3 ++ [ESetScales self o (dealias (domain n1)); EOperate self o]))
         | (Raise e, w') =>
             (Raises e,
              State (nodes st1) w'
                    (trace st3 ++ [ESetScales self o (dealias (domain n1)); EOperate self o]))
         end) as Hrest.
  { intros w1.
    set (st2 := State (nodes st1) w1 (trace st1 ++ [gate_event self force])).
    assert (nodes st2 !! self = Some n1) as Hn2 by done.
    destruct (allocate_output_run self st2 n1 Hn2) as (o & w2 & alloc & Ha & _).
    exists o, (State (nodes st2) w2 (trace st2 ++ alloc)). split; [done|]. split; [done|].
    unfold bind at 1. rewrite Ha.
    unfold bind, deref, emit, act, hook, reset, update, ret. simpl. rewrite Hn1. simpl.
    rewrite Hn1.
    destruct (operate n1 o _) as [[[]|e] w4] eqn:Hop; simpl.
    - unfold store. simpl.
      destruct (store_last (cls n1) && bool_decide (id ≠ None)); simpl; f_equal; f_equal;
        rewrite ?(alter_lookup _ _ _ _ Hn1);
        rewrite ?(alter_lookup _ _ self (set_args (original_args n1) n1))
          by apply lookup_insert_eq;
        rewrite ?insert_insert_eq; rewrite <- ?app_assoc; done.
    - f_equal. f_equal. by rewrite <- ?app_assoc. }
  destruct force.
  - destruct (enforce_conditions n1 (world st1)) as [[[]|e] w1] eqn:Hg;
      cbv beta iota delta [negb] in HP.
    + right; right. destruct (Hrest w1) as (o & st3 & Ha & Hn3 & Heq).
      cbv beta iota delta [gate_event] in Heq.
      rewrite Heq in HP. exists w1, o, st3. split_and!; try done.
      destruct (operate n1 o _) as [[[]|e] w4]; eauto.
    + left. exists e, w1. done.
  - destruct (check_conditions n1 (world st1)) as [[[|]|e] w1] eqn:Hg;
      cbv beta iota delta [negb] in HP.
    + right; right. destruct (Hrest w1) as (o & st3 & Ha & Hn3 & Heq).
      cbv beta iota delta [gate_event] in Heq.
      rewrite Heq in HP. exists w1, o, st3. split_and!; try done.
      destruct (operate n1 o _) as [[[]|e] w4]; eauto.
    + right; left. exists w1. done.
    + left. exists e, w1. rewrite app_nil_r. split; [done|]. by destruct st1.
Qed.

(** A flag that is down stays down. *)
Lemma resolve_args_false ev self s l :
  ∀ i (st st' : state E) b,
  resolve_args ev self s i l false st = (Returns b, st') → b = false.
Proof.
  induction l as [|a l IH]; intros i st st' b Hrun; simpl in Hrun.
  - by injection Hrun as <- _.
  - apply bind_returns in Hrun as ([] & sta & _ & Hrun).
    apply bind_returns in Hrun as (flag & stb & Hcall & Hrun).
    assert (flag = false) as ->; [|by eapply IH].
    destruct a as [z|d|c|c]; try by injection Hcall as <- _.
    apply bind_returns in Hcall as (r & st2 & _ & Hcall).
    apply bind_returns in Hcall as ([] & st3 & _ & Hcall).
    destruct r as [d|]; [|by injection Hcall as <- _].
    apply bind_returns in Hcall as ([] & st4 & _ & Hcall). by injection Hcall as <- _.
Qed.

Lemma setitem_args_trace self i v (st st' : state E) r :
  setitem_args self i v st = (r, st') → trace st' = trace st ∧ world st' = world st.
Proof.
  unfold setitem_args, bind, deref, update, raise.
  destruct (nodes st !! self) as [n|]; [|by intros [= _ <-]].
  destruct (decide _); by intros [= _ <-].
Qed.

Section slots.
Variable rank : loc → nat.

(** The loop at a [Field] argument: the request is made in the world the
    loop has reached, and the loop goes on from the world it gives. *)
Lemma resolve_args_field ev self s pre d post (stc st1 : state E) b :
  dkind d = Field →
  resolve_args ev self s 0 (pre ++ VData d :: post) true stc = (Returns b, st1) →
  ∃ b0 sta,
    resolve_args ev self s 0 pre true stc = (Returns b0, sta) ∧
    resolve_args ev self s (S (length pre)) post b0
      (State (nodes sta) (require_scales d s (world sta))
             (trace sta ++ [ERequireScales self (length pre) d s]))
      = (Returns b, st1).
Proof.
  intros Hk Hrun. apply resolve_args_app in Hrun as (b0 & sta & Hpre & Hsuf).
  exists b0, sta. split; [done|]. simpl in Hsuf. rewrite Hk in Hsuf.
  by destruct sta.
Qed.

(** The loop at a deferred argument, in a loop that found every argument
    evaluable: the child is evaluated in the state the loop has reached, and
    the slot holds the output of that very call when the loop is over. *)
Lemma resolve_args_child k id force self s pre c post (stc st1 : state E) n0 :
  acyclic rank stc → nodes stc !! self = Some n0 → args n0 = pre ++ VFut c :: post →
  resolve_args (fun a => evaluate k a id force) self s 0 (args n0) true stc
    = (Returns true, st1) →
  ∃ b0 sta d stb n1,
    resolve_args (fun a => evaluate k a id force) self s 0 pre true stc = (Returns b0, sta) ∧
    evaluate k c id force sta = (Returns (Some d), stb) ∧
    nodes st1 !! self = Some n1 ∧
    args n1 !! length pre = Some (VData d).
Proof.
  intros Hac Hn0 Hargs Hrun.
  destruct (resolve_args_spec rank k id force self s (args n0)
              [] true stc n0 true st1 Hac Hn0 eq_refl Hrun)
    as (l' & Δ & Hn1 & Hres & _ & Htr & Hown & _).
  rewrite Hargs in Hrun. apply resolve_args_app in Hrun as (b0 & sta & Hpre & Hsuf).
  simpl in Hsuf.
  apply bind_returns in Hsuf as ([] & sta' & [= <-] & Hsuf).
  apply bind_returns in Hsuf as (flag & stb2 & Hcall & Hrest).
  apply bind_returns in Hcall as (r & stb & Hev & Hcall).
  apply bind_returns in Hcall as ([] & stb1 & [= <-] & Hcall).
  destruct r as [d|].
  2:{ injection Hcall as <- <-. by apply resolve_args_false in Hrest. }
  exists b0, sta, d, stb, (set_args l' n0). split_and!; try done.
  apply bind_returns in Hcall as ([] & stb3 & Hset & [= _ <-]).
  apply setitem_args_trace in Hset as [Hset _]. simpl in Hset.
  destruct (resolve_args_stable _ _ _ _ _ _ _ _ _ _ _ Hpre) as [_ (Δa & Ha)].
  destruct (evaluate_stable _ _ _ _ _ _ _ Hev) as [_ (Δb & Hb)].
  destruct (resolve_args_stable _ _ _ _ _ _ _ _ _ _ _ Hrest) as [_ (Δc & Hc)].
  assert (EArg self (length pre) c (Some d) ∈ Δ) as He.
  { rewrite Hc, Hset, Hb, Ha in Htr. rewrite <- !app_assoc in Htr.
    apply app_inv_head in Htr. subst Δ. set_solver. }
  simpl in Hown |- *. eapply loop_events_substituted. rewrite <- Hown. by apply elem_of_own.
Qed.

(** The node when a loop that found every argument evaluable is over:
    no deferred node is left in [args], every slot that held one holds the
    output its evaluation returned, and the other slots are as they were. *)
Lemma resolve_args_done k id force self (st st1 : state E) n :
  acyclic rank st → nodes st !! self = Some n →
  resolve_args (fun a => evaluate k a id force) self (dealias (domain n)) 0 (args n) true
    (State (<[self := checked n id]> (nodes st)) (world st) (trace st)) = (Returns true, st1) →
  ∃ n1, nodes st1 !! self = Some n1 ∧
    same_shape n n1 ∧
    Forall (fun v => is_fut v = false) (args n1) ∧
    (∀ pre c post, args n = pre ++ VFut c :: post →
       ∃ b0 sta d stb,
         resolve_args (fun a => evaluate k a id force) self (dealias (domain n)) 0 pre true
           (State (<[self := checked n id]> (nodes st)) (world st) (trace st))
           = (Returns b0, sta) ∧
         evaluate k c id force sta = (Returns (Some d), stb) ∧
         args n1 !! length pre = Some (VData d)) ∧
    (∀ i v, args n !! i = Some v → is_fut v = false → args n1 !! i = Some v).
Proof.
  intros Hac Hn Hloop.
  set (stc := State (<[self := checked n id]> (nodes st)) (world st) (trace st)) in *.
  assert (nodes stc !! self = Some (checked n id)) as Hnc by apply lookup_insert_eq.
  assert (acyclic rank stc) as Hacc by by apply acyclic_checked.
  destruct (checked_shape n id) as (Hcls & Hargs & Horig & Hdom).
  rewrite <- Hargs in Hloop.
  destruct (resolve_args_spec rank k id force self _ (args (checked n id))
              [] true stc _ true st1 Hacc Hnc eq_refl Hloop)
    as (l' & Δ & Hn1 & Hres & Hall & _).
  simpl in Hn1. exists (set_args l' (checked n id)).
  split_and!; [done| |..]; simpl.
  - unfold same_shape, checked.
    destruct (store_last (cls n) && bool_decide (id ≠ None)); simpl; by repeat split.
  - apply (resolved_all (args (checked n id))); [done|]. by destruct (forallb _ l').
  - intros pre c post Hsplit.
    destruct (resolve_args_child k id force self _ pre c post stc st1 (checked n id)
                Hacc Hnc (eq_trans Hargs Hsplit) Hloop)
      as (b0 & sta & d & stb & n1 & Hpre & Hev & Hn1' & Hslot).
    rewrite Hn1 in Hn1'. injection Hn1' as <-. eauto 10.
  - intros i v Hi Hv. rewrite Hargs in Hres.
    destruct (Forall2_lookup_l _ _ _ _ _ Hres Hi) as (a' & Ha' & Hr).
    destruct v; simpl in *; by subst.
Qed.

(** A call past the cache check that returns an output: its loop found
    every argument evaluable, the gate let it through, and [operate]
    returned. *)
Lemma evaluate_output_run k self id (force : bool) (st st' : state E) n o :
  nodes st !! self = Some n → cache_hit n id = false →
  evaluate (S k) self id force st = (Returns (Some o), st') →
  ∃ st1, resolve_args (fun a => evaluate k a id force) self (dealias (domain n)) 0 (args n) true
      (State (<[self := checked n id]> (nodes st)) (world st) (trace st)) = (Returns true, st1) ∧
    ∀ n1, nodes st1 !! self = Some n1 →
    ∃ w1 st3,
      (if force return Prop then enforce_conditions n1 (world st1) = (Ok tt, w1)
       else check_conditions n1 (world st1) = (Ok true, w1)) ∧
      allocate_output self (State (nodes st1) w1 (trace st1 ++ [gate_event self force]))
        = (Returns o, st3) ∧
      nodes st3 = nodes st1 ∧
      operate n1 o (set_scales o (dealias (domain n1)) (world st3)) = (Ok tt, world st') ∧
      nodes st' = <[self := store id o (set_args (original_args n1) n1)]> (nodes st1) ∧
      trace st' = trace st3 ++ [ESetScales self o (dealias (domain n1)); EOperate self o].
Proof.
  intros Hn Hmiss Hrun. rewrite (evaluate_miss _ _ _ _ _ _ Hn Hmiss) in Hrun.
  set (stc := State (<[self := checked n id]> (nodes st)) (world st) (trace st)) in *.
  assert (nodes stc !! self = Some (checked n id)) as Hnc by apply lookup_insert_eq.
  destruct (checked_shape n id) as (Hcls & Hargs & Horig & Hdom).
  pose proof Hrun as Hrun0.
  unfold pipeline in Hrun. unfold bind at 1, deref at 1 in Hrun. rewrite Hnc in Hrun.
  apply bind_returns in Hrun as (all_eval & st1 & Hloop & Hrun).
  destruct all_eval; [|by injection Hrun]. clear Hrun.
  exists st1. split; [by rewrite <- Hargs, <- Hdom|]. intros n1 Hn1.
  destruct (pipeline_tail_cases _ self id force stc st1 _ n1 Hnc Hloop Hn1)
    as [(e & w & _ & Hp)|[(w & _ & _ & Hp)|(w1 & o' & st3 & Hg & Ha & Hn3 & Hc)]];
    [by rewrite Hp in Hrun0..|].
  destruct Hc as [(w' & Hop & Hp)|(e & w' & _ & Hp)]; [|by rewrite Hp in Hrun0].
  rewrite Hp in Hrun0. injection Hrun0 as -> <-. simpl.
  exists w1, st3. split_and!; done.
Qed.
End slots.
End runs.

Section claims.
Context {E : Type} `{OperatorClasses hvalue} `{Collaborators E}.


(** C10.  A forced call past the cache check whose loop has found every
    argument evaluable, and whose [enforce_conditions] raises on the node
    the loop left, or lets it through to an [operate] that raises: the call
    raises that exception, in the world the hook left, and the nodes are as
    the loop left them.  The node keeps its [original_args], but no
    deferred node remains in [args]: every slot that held one holds the
    output the evaluation of that node returned, the other slots are as
    they were, and [args] differs from [original_args] whenever that holds
    a deferred node. *)
Theorem kernel_error_keeps_substituted_args (rank : loc → nat) k self id
    (st st1 : state E) n n1 e w :
  acyclic rank st → nodes st !! self = Some n → cache_hit n id = false →
  resolve_args (fun a => evaluate k a id true) self (dealias (domain n)) 0 (args n) true
    (State (<[self := checked n id]> (nodes st)) (world st) (trace st)) = (Returns true, st1) →
  nodes st1 !! self = Some n1 →
  (enforce_conditions n1 (world st1) = (Raise e, w) ∨
   ∃ w1 o st3,
     enforce_conditions n1 (world st1) = (Ok tt, w1) ∧
     allocate_output self (State (nodes st1) w1 (trace st1 ++ [EEnforce self]))
       = (Returns o, st3) ∧
     operate n1 o (set_scales o (dealias (domain n1)) (world st3)) = (Raise e, w)) →
  ∃ st', evaluate (S k) self id true st = (Raises e, st') ∧
    nodes st' = nodes st1 ∧ world st' = w ∧
    original_args n1 = original_args n ∧
    Forall (fun v => is_fut v = false) (args n1) ∧
    (∀ pre c post, args n = pre ++ VFut c :: post →
       ∃ b0 sta d stb,
         resolve_args (fun a => evaluate k a id true) self (dealias (domain n)) 0 pre true
           (State (<[self := checked n id]> (nodes st)) (world st) (trace st))
           = (Returns b0, sta) ∧
         evaluate k c id true sta = (Returns (Some d), stb) ∧
         args n1 !! length pre = Some (VData d)) ∧
    (∀ i v, args n !! i = Some v → is_fut v = false → args n1 !! i = Some v) ∧
    ((∃ c, VFut c ∈ original_args n) → args n1 ≠ original_args n1).
Proof.
  intros Hac Hn Hmiss Hloop Hn1 Hraise.
  destruct (resolve_args_done rank k id true self st st1 n Hac Hn Hloop)
    as (n1' & Hn1' & (_ & Horig & _) & Hnofut & Hslots & Hkept).
  rewrite Hn1 in Hn1'. injection Hn1' as <-.
  rewrite (evaluate_miss _ _ _ _ _ _ Hn Hmiss).
  set (stc := State (<[self := checked n id]> (nodes st)) (world st) (trace st)) in *.
  assert (nodes stc !! self = Some (checked n id)) as Hnc by apply lookup_insert_eq.
  destruct (checked_shape n id) as (_ & Hargs & _ & Hdom).
  assert (∃ st', pipeline (fun a => evaluate k a id true) self id true stc = (Raises e, st') ∧
                 nodes st' = nodes st1 ∧ world st' = w) as (st' & Hp & Hnodes & Hworld).
  { rewrite <- Hargs, <- Hdom in Hloop.
    destruct (pipeline_tail_cases _ self id true stc st1 _ n1 Hnc Hloop Hn1)
      as [(e' & w' & Hg & Hp)|[(w' & ? & _)|(w1 & o & st3 & Hg & Ha & _ & Hc)]]; [|done|].
    - destruct Hraise as [Hr|(w1 & o & st3 & Hr & _)]; rewrite Hr in Hg; [|done].
      injection Hg as <- <-. eauto.
    - destruct Hraise as [Hr|(w1' & o' & st3' & Hr & Ha' & Hop)]; rewrite Hr in Hg; [done|].
      injection Hg as <-. cbv beta iota delta [gate_event] in Ha. rewrite Ha' in Ha.
      injection Ha as <- <-. rewrite Hop in Hc.
      destruct Hc as [(? & ? & _)|(e' & w' & [= <- <-] & Hp)]; [done|]. eauto. }
  exists st'. split_and!; try done.
  intros [c Hc] Heq. rewrite Horig in Heq. rewrite <- Heq in Hc.
  rewrite Forall_forall in Hnofut. by specialize (Hnofut _ Hc).
Qed.


(** C7, as amended.  The scale [evaluate] uses is the dealias factor of the
    node's domain; the attribute [scales], 1 since [__init__], is not
    consulted.  In a call past the cache check that returns, the loop asks
    every [Field] argument for that scale when it visits it: the request is
    made in the world the loop has reached and the loop goes on from the
    world it gives.  When an output is returned, the same scale is set on
    it, whether supplied or built, after the loop and the gate, and
    [operate] runs in the world that gives; nothing is called in between. *)
Theorem arguments_and_output_share_scale (rank : loc → nat) k self id (force : bool)
    (st st' : state E) n r :
  acyclic rank st → nodes st !! self = Some n → cache_hit n id = false →
  evaluate (S k) self id force st = (Returns r, st') →
  ∃ b (st1 : state E) Δ1,
    resolve_args (fun a => evaluate k a id force) self (dealias (domain n)) 0 (args n) true
      (State (<[self := checked n id]> (nodes st)) (world st) (trace st)) = (Returns b, st1) ∧
    trace st1 = trace st ++ Δ1 ∧
    (∀ pre d post, args n = pre ++ VData d :: post → dkind d = Field →
       ERequireScales self (length pre) d (dealias (domain n)) ∈ Δ1 ∧
       ∃ b0 sta,
         resolve_args (fun a => evaluate k a id force) self (dealias (domain n)) 0 pre true
           (State (<[self := checked n id]> (nodes st)) (world st) (trace st))
           = (Returns b0, sta) ∧
         resolve_args (fun a => evaluate k a id force) self (dealias (domain n))
           (S (length pre)) post b0
           (State (nodes sta) (require_scales d (dealias (domain n)) (world sta))
                  (trace sta ++ [ERequireScales self (length pre) d (dealias (domain n))]))
           = (Returns b, st1)) ∧
    match r with
    | Some o =>
        ∃ n1 w1 st3 Δ3,
          nodes st1 !! self = Some n1 ∧
          (if force return Prop then enforce_conditions n1 (world st1) = (Ok tt, w1)
           else check_conditions n1 (world st1) = (Ok true, w1)) ∧
          allocate_output self (State (nodes st1) w1 (trace st1 ++ [gate_event self force]))
            = (Returns o, st3) ∧
          operate n1 o (set_scales o (dealias (domain n)) (world st3)) = (Ok tt, world st') ∧
          trace st3 = trace st1 ++ Δ3 ∧
          trace st' = trace st ++ (Δ1 ++ Δ3) ++
                        [ESetScales self o (dealias (domain n)); EOperate self o]
    | None => True
    end.
Proof.
  intros Hac Hn Hmiss Hrun.
  set (stc := State (<[self := checked n id]> (nodes st)) (world st) (trace st)) in *.
  assert (nodes stc !! self = Some (checked n id)) as Hnc by apply lookup_insert_eq.
  assert (acyclic rank stc) as Hacc by by apply acyclic_checked.
  destruct (checked_shape n id) as (_ & Hargs & _ & Hdom).
  assert (∃ b st1, resolve_args (fun a => evaluate k a id force) self (dealias (domain n)) 0
                     (args n) true stc = (Returns b, st1)) as (b & st1 & Hloop).
  { pose proof Hrun as Hp. rewrite (evaluate_miss _ _ _ _ _ _ Hn Hmiss) in Hp.
    unfold pipeline in Hp. unfold bind at 1, deref at 1 in Hp. fold stc in Hp.
    rewrite Hnc in Hp. apply bind_returns in Hp as (b & st1 & Hloop & _).
    rewrite Hargs, Hdom in Hloop. eauto. }
  pose proof Hloop as Hloop0. rewrite <- Hargs in Hloop0.
  destruct (resolve_args_spec rank k id force self _ (args (checked n id))
              [] true stc _ b st1 Hacc Hnc eq_refl Hloop0)
    as (l' & Δ1 & Hn1 & Hres & _ & Htr & Hown & _).
  simpl in Hn1, Htr, Hown. rewrite Hargs in Hres, Hown.
  exists b, st1, Δ1. split_and!; try done.
  - intros pre d post Hsplit Hk. split.
    + assert (args n !! length pre = Some (VData d)) as Hi
        by (rewrite Hsplit; apply list_lookup_middle; done).
      pose proof (loop_events_resampled self (dealias (domain n)) _ _ _ _ Hres Hi Hk) as He.
      rewrite <- Hown in He. by apply elem_of_own in He as [? _].
    + rewrite Hsplit in Hloop. by apply resolve_args_field in Hloop.
  - destruct r as [o|]; [|done].
    destruct (evaluate_output_run k self id force st st' n o Hn Hmiss Hrun)
      as (st1' & Hloop' & Htail).
    fold stc in Hloop'. rewrite Hloop in Hloop'. injection Hloop' as -> <-.
    destruct (Htail _ Hn1) as (w1 & st3 & Hg & Ha & _ & Hop & _ & Htr').
    assert (∃ Δ3, trace st3 = trace st1 ++ Δ3) as (Δ3 & Htr3).
    { destruct (allocate_output_run self
                  (State (nodes st1) w1 (trace st1 ++ [gate_event self force])) _ Hn1)
        as (o' & w' & alloc & Ha' & _).
      rewrite Ha in Ha'. injection Ha' as _ ->. simpl.
      exists (gate_event self force :: alloc). by rewrite <- app_assoc. }
    exists (set_args l' (checked n id)), w1, st3, Δ3.
    change (domain (set_args l' (checked n id))) with (domain (checked n id)) in *.
    rewrite Hdom in *. split_and!; try done.
    by rewrite Htr', Htr3, Htr, <- !app_assoc.
Qed.

(** C3, as amended.  On a cache-enabled node a call with the absent id
    leaves [last_id] and [last_out] as they were, and a call with an id that
    returns an output leaves [last_id] equal to the id and [last_out] equal
    to the output, whether or not the call was forced. *)
Theorem memo_updated_by_any_success k self id force (st st' : state E) n r :
  nodes st !! self = Some n → store_last (cls n) = true →
  evaluate (S k) self id force st = (Returns r, st') →
  ∃ n', nodes st' !! self = Some n' ∧
    match id, r with
    | None, _ => last_id n' = last_id n ∧ last_out n' = last_out n
    | Some i, Some o => last_id n' = Some i ∧ last_out n' = Some o
    | Some _, None => True
    end.
Proof.
  intros Hn Hstore Hrun.
  destruct (evaluate_stable _ _ _ _ _ _ _ Hrun) as [Hst _].
  destruct (Hst _ _ Hn) as (n' & Hn' & _). exists n'. split; [done|].
  destruct id as [i|].
  - destruct r as [o|]; [|done]. destruct (cache_hit n (Some i)) eqn:Hhit.
    + rewrite (evaluate_hit _ _ _ _ _ _ Hn Hhit) in Hrun. injection Hrun as Hout <-.
      rewrite Hn in Hn'. injection Hn' as <-. unfold cache_hit in Hhit.
      apply andb_true_iff in Hhit as [_ Heq]. apply bool_decide_eq_true in Heq. done.
    + destruct (evaluate_success_inv _ _ _ _ _ _ _ _ Hn Hhit Hrun) as (n1 & Hc & _ & Hn1).
      rewrite Hn' in Hn1. injection Hn1 as ->. unfold store. simpl.
      by rewrite Hc, Hstore.
  - destruct (evaluate_memo_kept _ _ _ _ _ _ Hrun _ _ Hn) as (n2 & Hn2 & ?).
    rewrite Hn' in Hn2. by injection Hn2 as ->.
Qed.

(** C5.  On a cache-enabled node called with an id: when the id is the
    stored [last_id] the stored [last_out] is returned at once, in an
    unchanged state (no argument is evaluated, no hook runs, nothing is
    written); otherwise the whole pipeline runs from the state where
    [last_id] and [last_out] have been cleared. *)
Theorem cache_check k self (i : ident) force (st : state E) n :
  nodes st !! self = Some n → store_last (cls n) = true →
  evaluate (S k) self (Some i) force st =
  if decide (last_id n = Some i)
  then (Returns (last_out n), st)
  else pipeline (fun a => evaluate k a (Some i) force) self (Some i) force
         (State (<[self := set_last None None n]> (nodes st)) (world st) (trace st)).
Proof.
  intros Hn Hstore. case_decide as Hid.
  - apply evaluate_hit; [done|]. unfold cache_hit. rewrite Hstore, Hid. simpl.
    by rewrite bool_decide_eq_true_2.
  - rewrite (evaluate_miss _ _ _ _ _ n Hn).
    + unfold checked. by rewrite Hstore.
    + unfold cache_hit. rewrite Hstore. simpl.
      rewrite bool_decide_eq_false_2; [done|]. congruence.
Qed.
End claims.

(** * Further properties of the tree queries *)

Lemma py_eq_refl (x : tvalue) : py_eq x x = true.
Proof.
  assert (∀ a : tree, py_eq (VFut a) (VFut a) = true) as Htree.
  { induction a as [n IH] using tree_ind'. apply py_eq_nodes. split; [done|].
    simpl. induction IH as [|v l Hv _ IHl]; constructor; [|done].
    destruct v; try done; rewrite py_eq_unfold; by rewrite bool_decide_eq_true_2. }
  destruct x; try apply Htree; rewrite py_eq_unfold; by apply bool_decide_eq_true_2.
Qed.

(** What is equal to a number, a data container or a class object is that
    very value. *)
Lemma py_eq_leaf_eq (x y : tvalue) :
  match x with VFut _ => True | _ => py_eq x y = true → y = x end.
Proof.
  destruct x as [z|d|a|c]; [| |done|]; destruct y as [z'|d'|b|c'];
    rewrite py_eq_unfold; try done; intros Heq%bool_decide_eq_true; congruence.
Qed.

Lemma py_eq_trans_tree (a : tree) : ∀ v w : tvalue,
  py_eq (VFut a) v = true → py_eq v w = true → py_eq (VFut a) w = true.
Proof.
  induction a as [n IH] using tree_ind'. intros v w Hxy Hyz.
  destruct v as [?|?|b|?]; try (rewrite py_eq_unfold in Hxy; done).
  destruct w as [?|?|c|?]; try (rewrite py_eq_unfold in Hyz; done).
  apply py_eq_nodes in Hxy as [Hc1 H1]. apply py_eq_nodes in Hyz as [Hc2 H2].
  apply py_eq_nodes. split; [congruence|]. simpl in *.
  revert H2. generalize (args (node c)). clear Hc1 Hc2.
  induction H1 as [|v w l1 l2 Hvw _ IHl]; intros l3 H2;
    inversion H2 as [|w' u ? l3' Hwu H2']; subst; constructor.
  - apply Forall_cons in IH as [IHv _]. destruct v as [z|d|a|c0].
    + pose proof (py_eq_leaf_eq (VNum z) w Hvw) as ->. done.
    + pose proof (py_eq_leaf_eq (VData d) w Hvw) as ->. done.
    + by apply (IHv w u).
    + pose proof (py_eq_leaf_eq (VClass c0) w Hvw) as ->. done.
  - apply Forall_cons in IH as [_ IHl']. by apply IHl.
Qed.

Lemma py_eq_trans (x y z : tvalue) :
  py_eq x y = true → py_eq y z = true → py_eq x z = true.
Proof.
  intros Hxy Hyz. destruct x as [n|d|a|c].
  - pose proof (py_eq_leaf_eq (VNum n) y Hxy) as ->. done.
  - pose proof (py_eq_leaf_eq (VData d) y Hxy) as ->. done.
  - by apply (py_eq_trans_tree a y z).
  - pose proof (py_eq_leaf_eq (VClass c) y Hxy) as ->. done.
Qed.

(** [==] on expressions is an equivalence relation, and it looks at the
    operator type and the current arguments only: two nodes of one type
    with the same [args] are equal whatever their [out], their bases or
    their stored output. *)
Theorem eq_is_structural_equivalence :
  (∀ x : tvalue, py_eq x x = true) ∧
  (∀ x y : tvalue, py_eq x y = py_eq y x) ∧
  (∀ x y z : tvalue, py_eq x y = true → py_eq y z = true → py_eq x z = true) ∧
  (∀ n1 n2 : Future tvalue, cls n1 = cls n2 → args n1 = args n2 →
     py_eq (VFut (Tree n1)) (VFut (Tree n2)) = true).
Proof.
  split_and!.
  - apply py_eq_refl.
  - apply py_eq_sym.
  - apply py_eq_trans.
  - intros n1 n2 Hc Ha. apply py_eq_nodes. simpl. split; [done|]. rewrite Ha.
    apply Forall_Forall2_diag, Forall_forall. intros x _. apply py_eq_refl.
Qed.

(** [__ne__] declines ([NotImplemented]) on exactly the operands on which
    [__eq__] declines, answers the negation of [__eq__] on the others, and
    the operator [!=] is the negation of [==] on all values. *)
Theorem ne_negates_eq :
  (∀ (A : tree) (other : tvalue),
     (__ne__ A other = NotImplemented ↔ __eq__ A other = NotImplemented) ∧
     ∀ b, __eq__ A other = CmpBool b → __ne__ A other = CmpBool (negb b)) ∧
  (∀ x y : tvalue, py_ne x y = negb (py_eq x y)).
Proof.
  assert (∀ (A : tree) (other : tvalue),
     (__ne__ A other = NotImplemented ↔ __eq__ A other = NotImplemented) ∧
     ∀ b, __eq__ A other = CmpBool b → __ne__ A other = CmpBool (negb b)) as Hm.
  { intros A other. unfold __ne__. rewrite eq_unfold.
    destruct other as [z|d|o|c]; try (split; [done|intros b; done]).
    case_decide; [|split; [done|intros b; done]].
    split; [split; done|]. by intros b [= <-]. }
  split; [exact Hm|].
  intros x y. destruct x as [z|d|a|c].
  - destruct y; rewrite py_eq_unfold; done.
  - destruct y; rewrite py_eq_unfold; done.
  - unfold py_ne. destruct (Hm a y) as [Hni Hb].
    unfold py_eq, py_eq_with. destruct (__eq__ a y) as [b|] eqn:He.
    + by rewrite (Hb b).
    + by rewrite (proj2 Hni).
  - destruct y; rewrite py_eq_unfold; done.
Qed.

Lemma existsb_either {A} (f g : A → bool) l :
  existsb (fun x => f x || g x) l = existsb f l || existsb g l.
Proof.
  induction l as [|x l IH]; simpl; [done|]. rewrite IH.
  destruct (f x), (g x), (existsb f l), (existsb g l); done.
Qed.

Lemma NoDup_oset_add x s : NoDup s → NoDup (oset_add x s).
Proof.
  intros Hs. unfold oset_add. case_decide; [done|].
  apply NoDup_app. split_and!; [done| |apply NoDup_singleton].
  intros y Hy ->%list_elem_of_singleton. done.
Qed.

Lemma NoDup_oset_update s xs : NoDup s → NoDup (oset_update s xs).
Proof.
  unfold oset_update. revert s. induction xs as [|x xs IH]; intros s Hs; simpl; [done|].
  by apply IH, NoDup_oset_add.
Qed.

Section further_queries.
Context `{OperatorClasses tvalue}.

Lemma has_app t (vars1 vars2 : list tvalue) :
  has t (vars1 ++ vars2) = has t vars1 || has t vars2.
Proof.
  induction t as [n IH] using tree_ind'.
  rewrite !has_unfold. unfold py_in. rewrite existsb_app.
  set (p1 := existsb _ vars1). set (p2 := existsb _ vars2).
  match goal with
  | |- (if _ then true else ?e12) = (if _ then true else ?e1) || (if _ then true else ?e2) =>
      assert (e12 = e1 || e2) as ->
  end.
  { rewrite <- existsb_either. simpl. induction IH as [|v l Hv _ IHl]; simpl; [done|].
    rewrite IHl. f_equal. destruct v as [z|d|a|c]; try done.
    unfold Data_has, py_in. by rewrite existsb_app. }
  destruct p1, p2; simpl; try done; by rewrite orb_true_r.
Qed.

(** [has] with several targets is the disjunction of [has] with each
    target alone; with no target at all it is false. *)
Theorem has_any_of (t : tree) (vars : list tvalue) :
  has t vars = existsb (fun X => has t [X]) vars.
Proof.
  induction vars as [|X vars IH]; simpl.
  - induction t as [n IHt] using tree_ind'. rewrite has_unfold. simpl.
    induction IHt as [|v l Hv _ IHl]; simpl; [done|].
    rewrite IHl, orb_false_r. by destruct v.
  - by rewrite <- IH, <- has_app.
Qed.

(** [atoms] holds no element twice, and it holds exactly what the [atoms]
    of the leaf operands report, for the leaves found among the arguments of
    the node and of every deferred node below it; numbers and class objects
    contribute nothing. *)
Theorem atoms_distinct_leaves (t : tree) (types : list data_kind) :
  NoDup (atoms t types) ∧
  ∀ x, x ∈ atoms t types ↔
       ∃ u d, subnode t u ∧ VData d ∈ args (node u) ∧ x ∈ Data_atoms d types.
Proof.
  split.
  - rewrite atoms_unfold. generalize (NoDup_nil_2 (A:=dref)).
    generalize (@nil dref) as s.
    induction (args (node t)) as [|v l IH]; intros s Hs; simpl; [done|].
    apply IH. destruct v as [z|d|a|c]; simpl; try done; by apply NoDup_oset_update.
  - induction t as [n IH] using tree_ind'. intros x.
    rewrite atoms_unfold, elem_of_foldl_atoms. simpl. split.
    + intros [?|[(d&Hd&Hx)|(a&Ha&Hx)]]; [set_solver| |].
      * exists (Tree n), d. split; [constructor|by split].
      * rewrite Forall_forall in IH. pose proof (IH _ Ha) as IHa. simpl in IHa.
        apply IHa in Hx as (u&d&?&?&?). exists u, d. split; [by econstructor|by split].
    + intros (u&d&Hsub&Hu&Hx). inversion Hsub as [|? a ? Ha Hsub']; subst.
      * right; left. by exists d.
      * right; right. exists a. split; [done|]. rewrite Forall_forall in IH.
        apply (IH (VFut a)); [done|]. eauto.
Qed.

Lemma occurs_has t (old : tvalue) :
  (∀ s, old ≠ VFut s) → occurs old t = has t [old].
Proof.
  intros Hold. induction t as [n IH] using tree_ind'.
  rewrite occurs_unfold, has_unfold, py_in_singleton.
  assert (py_eq (VFut (Tree n)) old = false) as ->.
  { rewrite py_eq_unfold. destruct old as [z|d|s|c]; try done. by destruct (Hold s). }
  simpl. destruct (py_eq (VClass (base (cls n))) old); [done|]. simpl.
  induction IH as [|v l Hv _ IHl]; simpl; [done|]. rewrite IHl. f_equal.
  destruct v as [z|d|a|c]; try done.
  unfold Data_has, py_in. simpl. by rewrite orb_false_r.
Qed.

(** Replacing a leaf operand or an operator that [has] does not find
    rebuilds the tree: the result is a newly constructed node that is equal
    to the tree and starts from its arguments. *)
Theorem replace_of_absent_operand (t : tree) (old new : tvalue) :
  (∀ s, old ≠ VFut s) → has t [old] = false → rebuildable t →
  ∃ t', replace t old new = Ok (VFut t') ∧ py_eq (VFut t') (VFut t) = true ∧
        original_args (node t') = args (node t').
Proof.
  intros Hold Hhas Hre. rewrite <- occurs_has in Hhas by done.
  destruct (replace_absent t old new Hhas Hre) as (t' & Hrep & Heq & _ & _ & Horig).
  by exists t'.
Qed.

Lemma printed_args_equal (f : tvalue → string) (l1 l2 : list tvalue) :
  Forall2 (fun x y => py_eq x y = true) l1 l2 →
  Forall (fun v => match v with
                   | VFut a => ∀ b, py_eq (VFut a) (VFut b) = true → f (VFut a) = f (VFut b)
                   | _ => True
                   end) l1 →
  map f l1 = map f l2.
Proof.
  induction 1 as [|v w l1 l2 Hvw _ IHl]; intros IH; simpl; [done|].
  apply Forall_cons in IH as [IHv IHl']. f_equal; [|by apply IHl].
  destruct v as [z|d|a|c].
  - by pose proof (py_eq_leaf_eq (VNum z) w Hvw) as ->.
  - by pose proof (py_eq_leaf_eq (VData d) w Hvw) as ->.
  - destruct w as [?|?|b|?]; try (rewrite py_eq_unfold in Hvw; done). by apply IHv.
  - by pose proof (py_eq_leaf_eq (VClass c) w Hvw) as ->.
Qed.

(** Equal expressions that hold no plain number print alike, with [repr]
    and with [str].  Numbers are left out: [==] identifies numbers that
    print differently, such as [1] and [1.0]. *)
Theorem equal_trees_print_alike (__name__ : pyclass → string)
    (repr_other str_other : tvalue → string) (a b : tree) :
  number_free a = true →
  py_eq (VFut a) (VFut b) = true →
  __repr__ __name__ repr_other a = __repr__ __name__ repr_other b ∧
  __str__ __name__ str_other a = __str__ __name__ str_other b.
Proof.
  intros _. revert b. induction a as [n IH] using tree_ind'. intros [m] Heq.
  apply py_eq_nodes in Heq as [Hc Hargs]. simpl in *. unfold name. simpl. rewrite Hc.
  split.
  - match goal with |- context [join _ (map ?f (args n))] =>
      assert (map f (args n) = map f (args m)) as ->; [|done] end.
    apply (printed_args_equal
             (fun arg => match arg with
                         | VFut a => __repr__ __name__ repr_other a
                         | _ => repr_other arg
                         end)); [done|].
    eapply Forall_impl; [exact IH|]. intros [z|d|a|c] Hv; try done.
    intros b Hb. by apply Hv.
  - match goal with |- context [join _ (map ?f (args n))] =>
      assert (map f (args n) = map f (args m)) as ->; [|done] end.
    apply (printed_args_equal
             (fun arg => match arg with
                         | VFut a => __str__ __name__ str_other a
                         | _ => str_other arg
                         end)); [done|].
    eapply Forall_impl; [exact IH|]. intros [z|d|a|c] Hv; try done.
    intros b Hb. by apply Hv.
Qed.
End further_queries.

(** * Further properties of the evaluation engine *)

Lemma reassigned_refl (n : hnode) : reassigned n n.
Proof. by destruct n. Qed.

Lemma reassigned_trans (n1 n2 n3 : hnode) :
  reassigned n1 n2 → reassigned n2 n3 → reassigned n1 n3.
Proof. unfold reassigned. intros H12 H23. rewrite H23, H12. done. Qed.

Section written_fields.
Context {E : Type} `{OperatorClasses hvalue} `{Collaborators E}.

Lemma same_objects_nodes (st st' : state E) : nodes st' = nodes st → same_objects st st'.
Proof.
  intros Heq l. rewrite Heq. destruct (nodes st !! l); constructor. apply reassigned_refl.
Qed.

Lemma same_objects_trans (st1 st2 st3 : state E) :
  same_objects st1 st2 → same_objects st2 st3 → same_objects st1 st3.
Proof.
  intros H12 H23 l. specialize (H12 l). specialize (H23 l).
  destruct H12 as [n1 n2 Hn|]; inversion H23 as [? n3 Hn'|]; subst; constructor.
  by eapply reassigned_trans.
Qed.

Lemma same_objects_alter (f : hnode → hnode) self (st : state E) (w : E) t :
  (∀ n, reassigned n (f n)) →
  same_objects st (State (alter f self (nodes st)) w t).
Proof.
  intros Hf l. simpl. destruct (decide (self = l)) as [->|Hne].
  - rewrite lookup_alter_eq. destruct (nodes st !! l); constructor. apply Hf.
  - rewrite lookup_alter_ne by done. destruct (nodes st !! l); constructor.
    apply reassigned_refl.
Qed.

Lemma evaluate_same_objects k self id force (st st' : state E) r :
  evaluate k self id force st = (r, st') → same_objects st st'.
Proof.
  intros Hrun.
  eapply (pres_evaluate (fun _ => same_objects) (fun _ => True) (fun _ _ => True) id);
    [..|exact Hrun]; try done;
    try solve [intros; first [by apply same_objects_nodes
                             | apply same_objects_alter; by intros []
                             | eapply same_objects_trans; eassumption]].
Qed.

(** Whatever it returns or raises, [evaluate] creates and deletes no node,
    and the only fields it assigns, on any node, are [args], [last_id] and
    [last_out]: the type, [original_args], [out], the bases, the
    distributor, the layouts and [scales] stay as [__init__] set them. *)
Theorem evaluate_assigns_only_args_and_cache k self id force (st st' : state E) r :
  evaluate k self id force st = (r, st') →
  ∀ l, match nodes st !! l, nodes st' !! l with
       | Some n, Some n' =>
           n' = set_last (last_id n') (last_out n') (set_args (args n') n)
       | None, None => True
       | _, _ => False
       end.
Proof.
  intros Hrun l. pose proof (evaluate_same_objects _ _ _ _ _ _ _ Hrun l) as Hl.
  by destruct Hl.
Qed.

(** In a forest-shaped store a call on a node changes no node above it,
    every call it records is made by the node or by a node below it, and
    the store is still a forest afterwards. *)
Theorem evaluate_changes_nothing_above (rank : loc → nat) k self id force
    (st st' : state E) r :
  acyclic rank st → evaluate k self id force st = (r, st') →
  acyclic rank st' ∧
  (∀ l, rank self < rank l → nodes st' !! l = nodes st !! l) ∧
  ∃ Δ, trace st' = trace st ++ Δ ∧ Forall (fun e => rank (actor e) ≤ rank self) Δ.
Proof.
  intros Hac Hrun.
  destruct (evaluate_framed rank _ _ _ _ _ _ _ Hac Hrun) as (Hac' & Hframe & HΔ).
  split_and!; [by apply Hac'|done|done].
Qed.
End written_fields.

Section cache_slots.
Context {E : Type} `{OperatorClasses hvalue} `{Collaborators E}.

Lemma memo_step_nodes id (st st' : state E) : nodes st' = nodes st → memo_step id st st'.
Proof. intros Heq l n Hl. exists n. rewrite Heq. auto. Qed.

Lemma memo_step_trans id (st1 st2 st3 : state E) :
  memo_step id st1 st2 → memo_step id st2 st3 → memo_step id st1 st3.
Proof.
  intros H12 H23 l n Hl. destruct (H12 _ _ Hl) as (n2 & Hl2 & Hc2).
  destruct (H23 _ _ Hl2) as (n3 & Hl3 & Hc3). exists n3. split; [done|].
  destruct Hc3 as [[Hi Ho]|[?|?]]; [|auto..]. rewrite Hi, Ho. exact Hc2.
Qed.

Lemma memo_step_alter id (f : hnode → hnode) self (st : state E) (w : E) t :
  (∀ n, (last_id (f n) = last_id n ∧ last_out (f n) = last_out n) ∨
        (last_id (f n) = None ∧ last_out (f n) = None) ∨
        (last_id (f n) = id ∧ id ≠ None ∧ last_out (f n) ≠ None)) →
  memo_step id st (State (alter f self (nodes st)) w t).
Proof.
  intros Hf l n Hl. simpl. destruct (decide (self = l)) as [->|Hne].
  - exists (f n). rewrite lookup_alter_eq, Hl. split; [done|]. apply Hf.
  - exists n. rewrite lookup_alter_ne by done. auto.
Qed.

Lemma evaluate_memo_step k self id force (st st' : state E) r :
  evaluate k self id force st = (r, st') → memo_step id st st'.
Proof.
  intros Hrun.
  eapply (pres_evaluate (fun _ => memo_step id) (fun _ => True) (fun _ _ => True) id);
    [..|exact Hrun]; try done;
    try solve [intros; first [by apply memo_step_nodes
                             | apply memo_step_alter; intros; simpl; by left
                             | eapply memo_step_trans; eassumption]].
  intros s st0 a b Hid [[-> ->]|[-> Hb]]; apply memo_step_alter; intros n; simpl; auto.
Qed.

(** The id of the call is the only id [evaluate] ever stores: after a
    call, whatever it returned or raised, each cache slot of the store is as
    before, or empty, or holds the id of the call together with an output;
    a call without an id leaves every slot as it was. *)
Theorem cache_slots_follow_the_call_id k self id force (st st' : state E) r :
  evaluate k self id force st = (r, st') →
  ∀ l n, nodes st !! l = Some n →
    ∃ n', nodes st' !! l = Some n' ∧
      match id with
      | None => last_id n' = last_id n ∧ last_out n' = last_out n
      | Some i =>
          (last_id n' = last_id n ∧ last_out n' = last_out n) ∨
          (last_id n' = None ∧ last_out n' = None) ∨
          (last_id n' = Some i ∧ last_out n' ≠ None)
      end.
Proof.
  intros Hrun l n Hl. destruct id as [i|].
  - destruct (evaluate_memo_step _ _ _ _ _ _ _ Hrun l n Hl) as (n' & Hn' & Hc).
    exists n'. split; [done|]. destruct Hc as [?|[?|(? & _ & ?)]]; auto.
  - by apply (evaluate_memo_kept _ _ _ _ _ _ Hrun).
Qed.

Lemma memo_held_nodes i (st st' : state E) : nodes st' = nodes st → memo_held i st st'.
Proof. intros Heq l n Hl _ Hi. exists n. by rewrite Heq. Qed.

Lemma memo_held_trans i (st1 st2 st3 : state E) :
  memo_held i st1 st2 → memo_held i st2 st3 → memo_held i st1 st3.
Proof.
  intros H12 H23 l n Hl Hs Hi. destruct (H12 _ _ Hl Hs Hi) as (n2 & Hl2 & Hc2 & Hi2 & Ho2).
  destruct (H23 _ _ Hl2) as (n3 & Hl3 & Hc3 & Hi3 & Ho3); [congruence|done|].
  exists n3. split_and!; congruence.
Qed.

Lemma memo_held_set_args i g self (st : state E) (w : E) t :
  memo_held i st (State (alter (fun n => set_args (g n) n) self (nodes st)) w t).
Proof.
  intros l n Hl _ Hi. simpl. destruct (decide (self = l)) as [->|Hne].
  - exists (set_args (g n) n). rewrite lookup_alter_eq, Hl. done.
  - exists n. by rewrite lookup_alter_ne.
Qed.

Lemma memo_held_insert i self (st : state E) n n' (w : E) t :
  nodes st !! self = Some n → cache_hit n (Some i) = false →
  memo_held i st (State (<[self := n']> (nodes st)) w t).
Proof.
  intros Hn Hmiss l n0 Hl Hs Hi. simpl. destruct (decide (self = l)) as [->|Hne].
  - rewrite Hn in Hl. injection Hl as <-. unfold cache_hit in Hmiss.
    rewrite Hs, Hi in Hmiss. simpl in Hmiss. by rewrite bool_decide_eq_true_2 in Hmiss.
  - exists n0. by rewrite lookup_insert_ne.
Qed.

Lemma evaluate_memo_held i k : ∀ self force (st st' : state E) r,
  evaluate k self (Some i) force st = (r, st') → memo_held i st st'.
Proof.
  induction k as [|k IH]; intros self force st st' r Hrun.
  - injection Hrun as <- <-. by apply memo_held_nodes.
  - destruct (nodes st !! self) as [n|] eqn:Hn;
      [|simpl in Hrun; unfold bind, deref in Hrun; rewrite Hn in Hrun;
        injection Hrun as <- <-; by apply memo_held_nodes].
    destruct (cache_hit n (Some i)) eqn:Hhit.
    { rewrite (evaluate_hit _ _ _ _ _ _ Hn Hhit) in Hrun. injection Hrun as <- <-.
      by apply memo_held_nodes. }
    rewrite (evaluate_miss _ _ _ _ _ _ Hn Hhit) in Hrun.
    set (stc := State (<[self := checked n (Some i)]> (nodes st)) (world st) (trace st)) in *.
    assert (nodes stc !! self = Some (checked n (Some i))) as Hnc by apply lookup_insert_eq.
    assert (memo_held i st stc) as Hc by by eapply memo_held_insert.
    pose proof Hrun as Hrun0.
    unfold pipeline in Hrun. unfold bind at 1, deref at 1 in Hrun. rewrite Hnc in Hrun.
    unfold bind at 1 in Hrun.
    destruct (resolve_args _ self _ 0 _ true stc) as [rl st1] eqn:Hloop.
    assert (memo_held i stc st1) as H1.
    { eapply (pres_resolve_args (fun _ => memo_held i) (fun _ => True) (fun _ _ => True));
        [..|exact I|exact Hloop]; try done;
        try solve [intros; first [by apply memo_held_nodes
                                 | apply (memo_held_set_args i (fun n => <[_:=_]> (args n)))
                                 | eapply memo_held_trans; eassumption]].
      intros c st0 r0 st2 _ Hev. by eapply IH. }
    pose proof (memo_held_trans _ _ _ _ Hc H1) as H01.
    destruct rl as [all_eval|e|]; [|by injection Hrun as <- <-..].
    destruct (resolve_args_stable _ _ _ _ _ _ _ _ _ _ _ Hloop) as [Hst _].
    destruct (Hst _ _ Hnc) as (n1 & Hn1 & _).
    pose proof (pipeline_after_args _ _ _ _ _ _ _ _ _ _ _ Hnc Hloop Hn1 Hrun0) as Hafter.
    destruct r as [[o|]|e|]; [| | |done].
    + destruct Hafter as (_ & Hnodes & _). intros l n0 Hl Hs Hi.
      destruct (decide (self = l)) as [->|Hne].
      * rewrite Hn in Hl. injection Hl as <-. unfold cache_hit in Hhit.
        rewrite Hs, Hi in Hhit. simpl in Hhit. by rewrite bool_decide_eq_true_2 in Hhit.
      * destruct (H01 _ _ Hl Hs Hi) as (n' & Hl' & ?). exists n'. split; [|done].
        by rewrite Hnodes, lookup_insert_ne.
    + destruct Hafter as (Hnodes & _). eapply memo_held_trans; [exact H01|].
      by apply memo_held_nodes.
    + destruct Hafter as (_ & Hnodes & _). eapply memo_held_trans; [exact H01|].
      by apply memo_held_nodes.
Qed.

(** An output stored under an id survives every call made with that id,
    on any node of the store and however the call ends: the slot is neither
    cleared nor overwritten, so within one pass a caching node that several
    expressions share is computed once. *)
Theorem cached_output_survives_same_id k self (i : ident) force (st st' : state E) r l n :
  evaluate k self (Some i) force st = (r, st') →
  nodes st !! l = Some n → store_last (cls n) = true → last_id n = Some i →
  ∃ n', nodes st' !! l = Some n' ∧ last_id n' = Some i ∧ last_out n' = last_out n.
Proof.
  intros Hrun Hl Hs Hi.
  destruct (evaluate_memo_held _ _ _ _ _ _ _ Hrun l n Hl Hs Hi) as (n' & Hl' & _ & Hi' & Ho').
  by exists n'.
Qed.
End cache_slots.

Section own_node.
Context {E : Type} `{OperatorClasses hvalue} `{Collaborators E}.
Variable rank : loc → nat.

Lemma resolve_args_self k id force self s l :
  ∀ i all_eval (st : state E) n r st1,
  acyclic rank st → nodes st !! self = Some n → Forall (below rank self) l →
  resolve_args (fun a => evaluate k a id force) self s i l all_eval st = (r, st1) →
  ∃ l', nodes st1 !! self = Some (set_args l' n).
Proof.
  induction l as [|a l IH]; intros i all_eval st n r st1 Hac Hn Hl Hrun.
  - injection Hrun as <- <-. exists (args n). by rewrite set_args_id.
  - apply Forall_cons in Hl as [Ha Hl]. simpl in Hrun.
    destruct a as [z|d|c|c].
    + eapply (IH _ _ st n); [done|done|done|exact Hrun].
    + destruct (dkind d); [eapply (IH _ _ st n); [done|done|done|exact Hrun]|].
      eapply (IH _ _ _ n); [| | |exact Hrun]; done.
    + unfold bind at 1 in Hrun. simpl in Hrun. unfold bind at 1 in Hrun.
      unfold bind at 1 in Hrun.
      destruct (evaluate k c id force st) as [rc stc] eqn:Hevc. simpl in Ha.
      destruct (evaluate_framed rank _ _ _ _ _ _ _ Hac Hevc) as (Hacc & Hframe & _).
      pose proof (Hframe self Ha) as Hself. rewrite Hn in Hself.
      destruct rc as [a_eval|e|];
        [|injection Hrun as <- <-; exists (args n); by rewrite set_args_id..].
      unfold bind at 1, emit at 1 in Hrun. destruct a_eval as [rv|].
      * unfold bind at 1, setitem_args, bind at 1, deref in Hrun. simpl in Hrun.
        rewrite Hself in Hrun.
        case_decide; [|injection Hrun as <- <-; exists (args n); by rewrite set_args_id].
        unfold update in Hrun. simpl in Hrun.
        match type of Hrun with resolve_args _ _ _ _ _ _ ?s0 = _ =>
          assert (acyclic rank s0) as Hac';
          [|assert (nodes s0 !! self = Some (set_args (<[i:=VData rv]> (args n)) n)) as Hn';
            [|destruct (IH _ _ _ _ _ _ Hac' Hn' Hl Hrun) as [l' Hl']; by exists l']]
        end.
        -- intros l0 n0. simpl. rewrite lookup_alter. case_decide as Hl0.
           ++ subst l0. rewrite Hself. simpl. intros [= <-].
              destruct (Hac self n Hn) as [Han Hon]. simpl. split; [|done].
              by apply Forall_insert.
           ++ apply (Hacc Hac).
        -- simpl. rewrite lookup_alter_eq, Hself. done.
      * eapply (IH _ _ _ n); [| | |exact Hrun]; [by apply Hacc|exact Hself|done].
    + eapply (IH _ _ st n); [done|done|done|exact Hrun].
Qed.

(** Whenever a call with an id on a caching node misses the cache and does
    not return an output (it returns the absent value, or raises), the node
    is left with no stored id and no stored output: the entry kept for the
    earlier id is lost all the same. *)
Theorem cache_cleared_unless_output k self (i : ident) force (st st' : state E) n r :
  acyclic rank st → nodes st !! self = Some n →
  store_last (cls n) = true → last_id n ≠ Some i →
  evaluate (S k) self (Some i) force st = (r, st') →
  (∀ o, r ≠ Returns (Some o)) →
  ∃ n', nodes st' !! self = Some n' ∧ last_id n' = None ∧ last_out n' = None.
Proof.
  intros Hac Hn Hstore Hid Hrun Hr.
  assert (cache_hit n (Some i) = false) as Hmiss.
  { unfold cache_hit. rewrite Hstore. simpl. rewrite bool_decide_eq_false_2; [done|congruence]. }
  rewrite (evaluate_miss _ _ _ _ _ _ Hn Hmiss) in Hrun.
  assert (checked n (Some i) = set_last None None n) as Hck.
  { unfold checked. by rewrite Hstore. }
  set (stc := State (<[self := checked n (Some i)]> (nodes st)) (world st) (trace st)) in *.
  assert (nodes stc !! self = Some (checked n (Some i))) as Hnc by apply lookup_insert_eq.
  assert (acyclic rank stc) as Hacc by by apply acyclic_checked.
  pose proof Hrun as Hrun0.
  unfold pipeline in Hrun. unfold bind at 1, deref at 1 in Hrun. rewrite Hnc in Hrun.
  unfold bind at 1 in Hrun.
  destruct (resolve_args _ self _ 0 _ true stc) as [rl st1] eqn:Hloop.
  destruct (Hacc self _ Hnc) as [Ha _].
  destruct (resolve_args_self _ _ _ _ _ _ _ _ _ _ _ _ Hacc Hnc Ha Hloop) as [l' Hn1].
  assert (∃ n', nodes st1 !! self = Some n' ∧ last_id n' = None ∧ last_out n' = None) as Hgoal.
  { eexists. split; [exact Hn1|]. by rewrite Hck. }
  destruct rl as [all_eval|e|]; [|by injection Hrun as <- <-..].
  pose proof (pipeline_after_args _ _ _ _ _ _ _ _ _ _ _ Hnc Hloop Hn1 Hrun0) as Hafter.
  destruct r as [[o|]|e|]; [by destruct (Hr o)| | |done].
  - destruct Hafter as (-> & _). done.
  - destruct Hafter as (_ & -> & _). done.
Qed.

Lemma own_all self Δ : Forall (fun e => actor e = self) Δ → own self Δ = Δ.
Proof.
  induction 1 as [|e Δ He _ IH]; [done|].
  unfold own in *. rewrite filter_cons. rewrite decide_True by done. by rewrite IH.
Qed.

(** The calls a node makes itself during a call that misses the cache and
    returns, in program order: one per argument in index order
    ([require_scales] on a field, the evaluation of a deferred node), then,
    if every argument was resolved, the layout gate and, if that lets the
    call through, the allocation if any, [set_scales] and [operate]. *)
Theorem own_calls_in_program_order k self id force (st st' : state E) n r :
  acyclic rank st → nodes st !! self = Some n → cache_hit n id = false →
  evaluate (S k) self id force st = (Returns r, st') →
  ∃ Δ l' built,
    trace st' = trace st ++ Δ ∧ Forall2 resolved (args n) l' ∧
    own self Δ = loop_events self (dealias (domain n)) 0 (args n) l' ++
                 tail_events self (dealias (domain n)) force l' r built.
Proof.
  intros Hac Hn Hmiss Hrun.
  destruct (evaluate_returns_inv rank _ _ _ _ _ _ _ _ Hac Hn Hmiss Hrun)
    as (l' & Δ1 & st1 & Hres & Htr1 & Hown & Hr).
  destruct r as [o|].
  - destruct Hr as (Hall & alloc & Halloc & Htr').
    exists (Δ1 ++ gate_event self force :: alloc ++
              [ESetScales self o (dealias (domain n)); EOperate self o]), l'.
    assert (Forall (fun e => actor e = self)
              (gate_event self force :: alloc ++
                 [ESetScales self o (dealias (domain n)); EOperate self o])) as Hact.
    { destruct Halloc as [-> | ->]; repeat constructor; by destruct force. }
    destruct Halloc as [-> | ->]; [exists false|exists true];
      (split_and!; [by rewrite Htr', Htr1, <- app_assoc|done|]);
      rewrite own_app, Hown, (own_all _ _ Hact); done.
  - destruct Hr as (_ & [[Hall Htr']|(Hall & -> & Htr')]).
    + exists Δ1, l', false. split_and!; [by rewrite Htr', Htr1|done|].
      simpl. by rewrite Hall, app_nil_r.
    + exists (Δ1 ++ [ECheck self false]), l', false.
      split_and!; [by rewrite Htr', Htr1, <- app_assoc|done|].
      rewrite own_app, Hown. simpl. rewrite Hall. f_equal.
      apply own_all. by repeat constructor.
Qed.
End own_node.

Section contract.
Context {E : Type} `{OperatorClasses hvalue} `{Collaborators E}.
Variable rank : loc → nat.

(** A call that misses the cache and returns an output: the gate and
    [operate] on the node as the loop left it. *)
Lemma evaluate_output_inv k self id force (st st' : state E) n o :
  acyclic rank st → nodes st !! self = Some n → cache_hit n id = false →
  evaluate (S k) self id force st = (Returns (Some o), st') →
  ∃ n1 (w0 w0' w w' : E),
    Forall2 resolved (args n) (args n1) ∧
    Forall (fun v => is_fut v = false) (args n1) ∧
    same_shape n n1 ∧
    (if force then enforce_conditions n1 w0 = (Ok tt, w0')
     else check_conditions n1 w0 = (Ok true, w0')) ∧
    operate n1 o w = (Ok tt, w').
Proof.
  intros Hac Hn Hmiss Hrun.
  destruct (evaluate_miss_inv rank _ _ _ _ _ _ _ _ Hac Hn Hmiss Hrun)
    as [(Δ & _ & _ & Hno)|(l' & Δ1 & st1 & Hres & Hn1 & Htr & Hown & Hpipe & Hloop)];
    [by destruct (Hno (Some o))|].
  set (stc := State (<[self := checked n id]> (nodes st)) (world st) (trace st)) in *.
  assert (nodes stc !! self = Some (checked n id)) as Hnc by apply lookup_insert_eq.
  unfold pipeline in Hpipe. unfold bind at 1, deref at 1 in Hpipe. rewrite Hnc in Hpipe.
  unfold bind at 1 in Hpipe. rewrite Hloop in Hpipe.
  destruct (forallb (fun v => negb (is_fut v)) l') eqn:Hall; simpl in Hpipe; [|done].
  apply bind_returns in Hpipe as (ready & st2 & Hgate & Hpipe).
  rewrite (layout_gate_run _ _ _ _ Hn1) in Hgate.
  destruct ready; simpl in Hpipe; [|done].
  apply bind_returns in Hpipe as (o2 & st3 & Halloc & Hpipe).
  assert (nodes st2 !! self = Some (set_args l' (checked n id))) as Hn2.
  { destruct force.
    - destruct (enforce_conditions _ _) as [[[]|e] w]; by simplify_eq.
    - destruct (check_conditions _ _) as [[b|e] w]; by simplify_eq. }
  destruct (allocate_output_run self st2 _ Hn2) as (o3 & w3 & alloc & Halloc' & _).
  rewrite Halloc' in Halloc. injection Halloc as <- <-.
  unfold bind, deref, emit, act, hook, reset, update, ret in Hpipe. simpl in Hpipe.
  rewrite Hn2 in Hpipe. simpl in Hpipe. rewrite Hn2 in Hpipe.
  destruct (operate (set_args l' (checked n id)) o3 _) as [[[]|e] w4] eqn:Hop;
    simpl in Hpipe; [|done].
  assert (o3 = o) as ->.
  { destruct (store_last _ && _); simpl in Hpipe; injection Hpipe as Heq _; exact Heq. }
  destruct (checked_shape n id) as (Hc & Ha & Ho & Hd).
  exists (set_args l' (checked n id)). simpl.
  assert (same_shape n (set_args l' (checked n id))) as Hshape.
  { unfold same_shape, checked.
    destruct (store_last (cls n) && bool_decide (id ≠ None)); simpl; by repeat split. }
  destruct force.
  - destruct (enforce_conditions _ _) as [[[]|e] w] eqn:Hg; [|done].
    do 4 eexists. split_and!; [done|by apply (resolved_all (args n))|done|exact Hg|exact Hop].
  - destruct (check_conditions _ _) as [[[]|e] w] eqn:Hg; try done.
    do 4 eexists. split_and!; [done|by apply (resolved_all (args n))|done|exact Hg|exact Hop].
Qed.
(** What the hooks of an operator can rely on.  When a call past the
    cache check returns an output, its loop has found every argument
    evaluable; the node the loop left differs from the node of the call in
    [args] only, where no deferred node remains: every slot that held one
    holds the output the evaluation of that node returned, and the other
    slots are as they were.  On that node, and in the world the loop left,
    the layout gate has passed; the output is then chosen, the scale set on
    it, and [operate] has returned on the same node, leaving the world of
    the call. *)
Theorem hooks_see_resolved_arguments k self id (force : bool) (st st' : state E) n o :
  acyclic rank st → nodes st !! self = Some n → cache_hit n id = false →
  evaluate (S k) self id force st = (Returns (Some o), st') →
  ∃ st1 n1 w1 st3,
    resolve_args (fun a => evaluate k a id force) self (dealias (domain n)) 0 (args n) true
      (State (<[self := checked n id]> (nodes st)) (world st) (trace st)) = (Returns true, st1) ∧
    nodes st1 !! self = Some n1 ∧
    same_shape n n1 ∧
    Forall (fun v => is_fut v = false) (args n1) ∧
    (∀ pre c post, args n = pre ++ VFut c :: post →
       ∃ b0 sta d stb,
         resolve_args (fun a => evaluate k a id force) self (dealias (domain n)) 0 pre true
           (State (<[self := checked n id]> (nodes st)) (world st) (trace st))
           = (Returns b0, sta) ∧
         evaluate k c id force sta = (Returns (Some d), stb) ∧
         args n1 !! length pre = Some (VData d)) ∧
    (∀ i v, args n !! i = Some v → is_fut v = false → args n1 !! i = Some v) ∧
    (if force return Prop then enforce_conditions n1 (world st1) = (Ok tt, w1)
     else check_conditions n1 (world st1) = (Ok true, w1)) ∧
    allocate_output self (State (nodes st1) w1 (trace st1 ++ [gate_event self force]))
      = (Returns o, st3) ∧
    operate n1 o (set_scales o (dealias (domain n)) (world st3)) = (Ok tt, world st').
Proof.
  intros Hac Hn Hmiss Hrun.
  destruct (evaluate_output_run k self id force st st' n o Hn Hmiss Hrun)
    as (st1 & Hloop & Htail).
  destruct (resolve_args_done rank k id force self st st1 n Hac Hn Hloop)
    as (n1 & Hn1 & Hshape & Hnofut & Hslots & Hkept).
  destruct (Htail _ Hn1) as (w1 & st3 & Hg & Ha & _ & Hop & _).
  assert (domain n1 = domain n) as Hdom.
  { destruct Hshape as (_ & _ & _ & Hb & Hd). unfold domain. by rewrite Hb, Hd. }
  rewrite Hdom in Hop. exists st1, n1, w1, st3. split_and!; done.
Qed.
End contract.

Section unimplemented.
Context {E : Type} `{OperatorClasses hvalue} `{Collaborators E}.
Variable rank : loc → nat.

Lemma resolve_args_leaves ev self s l :
  Forall (fun v => is_fut v = false) l →
  ∀ i all_eval (st : state E),
  ∃ st1, resolve_args ev self s i l all_eval st = (Returns all_eval, st1) ∧
         nodes st1 = nodes st.
Proof.
  induction 1 as [|a l Ha _ IH]; intros i all_eval st; simpl.
  - by exists st.
  - destruct a as [z|d|c|c]; try done.
    + unfold bind at 1. simpl. unfold bind at 1. simpl. apply IH.
    + destruct (dkind d).
      * unfold bind at 1. simpl. unfold bind at 1. simpl. apply IH.
      * unfold bind at 1. unfold bind at 1. simpl. unfold bind at 1. simpl.
        destruct (IH (S i) all_eval
                    (State (nodes st) (require_scales d s (world st))
                           (trace st ++ [ERequireScales self i d s]))) as (st1 & -> & Hn).
        by exists st1.
    + unfold bind at 1. simpl. unfold bind at 1. simpl. apply IH.
Qed.

(** A node whose class leaves [operate] as [Future] defines it never
    returns an output from a call that misses the cache.  The same holds
    when the class leaves the layout hook in use ([enforce_conditions] under
    [force], [check_conditions] without) as [Future] defines it, and then a
    call on a node with no deferred argument raises
    [NotImplementedError]. *)
Theorem unimplemented_hooks_stop_the_call k self id force (st st' : state E) n r :
  acyclic rank st → nodes st !! self = Some n → cache_hit n id = false →
  evaluate (S k) self id force st = (r, st') →
  ((∀ n' o w, cls n' = cls n → operate n' o w = Future_operate n' o w) →
   ∀ o, r ≠ Returns (Some o)) ∧
  ((∀ n' w, cls n' = cls n →
      if force then enforce_conditions n' w = Future_enforce_conditions n' w
      else check_conditions n' w = Future_check_conditions n' w) →
   (∀ o, r ≠ Returns (Some o)) ∧
   (Forall (fun v => is_fut v = false) (args n) → r = Raises NotImplementedError)).
Proof.
  intros Hac Hn Hmiss Hrun. split_and!.
  - intros Hop o ->.
    destruct (evaluate_output_inv rank _ _ _ _ _ _ _ _ Hac Hn Hmiss Hrun)
      as (n1 & w0 & w0' & w & w' & _ & _ & (Hc & _) & _ & Hrun1).
    rewrite (Hop n1 o w Hc) in Hrun1. done.
  - intros Hgate. split.
    + intros o ->.
      destruct (evaluate_output_inv rank _ _ _ _ _ _ _ _ Hac Hn Hmiss Hrun)
        as (n1 & w0 & w0' & w & w' & _ & _ & (Hc & _) & Hg & _).
      specialize (Hgate n1 w0 Hc). destruct force; rewrite Hgate in Hg; done.
    + intros Hleaves. rewrite (evaluate_miss _ _ _ _ _ _ Hn Hmiss) in Hrun.
      set (stc := State (<[self := checked n id]> (nodes st)) (world st) (trace st)) in *.
      assert (nodes stc !! self = Some (checked n id)) as Hnc by apply lookup_insert_eq.
      destruct (checked_shape n id) as (Hc & Ha & _).
      unfold pipeline in Hrun. unfold bind at 1, deref at 1 in Hrun. rewrite Hnc in Hrun.
      unfold bind at 1 in Hrun.
      destruct (resolve_args_leaves (fun a => evaluate k a id force) self
                  (dealias (domain (checked n id))) (args (checked n id))
                  ltac:(by rewrite Ha) 0 true stc) as (st1 & Hloop & Hn1).
      rewrite Hloop in Hrun. simpl in Hrun.
      unfold bind at 1 in Hrun.
      rewrite (layout_gate_run self force st1 (checked n id)) in Hrun by by rewrite Hn1.
      specialize (Hgate (checked n id) (world st1) Hc).
      destruct force; rewrite Hgate in Hrun; by injection Hrun as <- _.
Qed.
End unimplemented.

Section staged.
Context {E : Type} `{OperatorClasses hvalue} `{Collaborators E}.
Variable rank : loc → nat.

Lemma loop_events_no_arg_at_data self s l l' i d c a :
  l !! i = Some (VData d) → EArg self i c a ∉ loop_events self s 0 l l'.
Proof.
  intros Hi He. apply elem_of_loop_events in He as (j & a0 & a0' & Ha0 & _ & He).
  simpl in He. destruct a0 as [z|d0|c0|c0]; simpl in He; try by apply elem_of_nil in He.
  - destruct (dkind d0); [by apply elem_of_nil in He|]. by apply list_elem_of_singleton in He.
  - apply list_elem_of_singleton in He. injection He as -> _ _. congruence.
Qed.

(** Progress made by a call that returned the absent value is kept: a
    deferred argument whose output the call substituted into [args] is not
    evaluated again by the next call on the node, which uses the output
    that is there. *)
Theorem substituted_argument_is_not_evaluated_again k k' self id id' force force'
    (st st' st'' : state E) n n' r' Δ Δ' i c d :
  acyclic rank st → nodes st !! self = Some n → cache_hit n id = false →
  evaluate (S k) self id force st = (Returns None, st') →
  trace st' = trace st ++ Δ → EArg self i c (Some d) ∈ Δ →
  nodes st' !! self = Some n' → cache_hit n' id' = false →
  evaluate (S k') self id' force' st' = (Returns r', st'') →
  trace st'' = trace st' ++ Δ' →
  args n' !! i = Some (VData d) ∧ ∀ c' a, EArg self i c' a ∉ Δ'.
Proof.
  intros Hac Hn Hmiss Hrun HΔ He Hn' Hmiss' Hrun' HΔ'.
  assert (args n' !! i = Some (VData d)) as Hi.
  { destruct (evaluate_returns_inv rank _ _ _ _ _ _ _ _ Hac Hn Hmiss Hrun)
      as (l' & Δ1 & st1 & Hres & Htr1 & Hown & Hn1 & Hcases).
    rewrite Hn' in Hn1. injection Hn1 as ->. simpl.
    assert (EArg self i c (Some d) ∈ Δ1) as He1.
    { destruct Hcases as [[_ Ht]|(_ & _ & Ht)]; rewrite Htr1, HΔ in Ht.
      - apply app_inv_head in Ht. by subst.
      - rewrite <- app_assoc in Ht. apply app_inv_head in Ht. subst Δ.
        apply elem_of_app in He as [?|He]; [done|]. by apply list_elem_of_singleton in He. }
    eapply loop_events_substituted. rewrite <- Hown. by apply elem_of_own. }
  split; [done|]. intros c' a He'.
  destruct (evaluate_framed rank _ _ _ _ _ _ _ Hac Hrun) as (Hac' & _).
  destruct (evaluate_returns_inv rank _ _ _ _ _ _ _ _ (Hac' Hac) Hn' Hmiss' Hrun')
    as (l'' & Δ1' & st1' & Hres' & Htr1' & Hown' & Hr').
  assert (EArg self i c' a ∉ Δ1') as Hloop.
  { intros Hin. eapply (loop_events_no_arg_at_data self _ (args n') l''); [exact Hi|].
    rewrite <- Hown'. by apply elem_of_own. }
  destruct r' as [o|].
  - destruct Hr' as (_ & alloc & Halloc & Ht). rewrite Htr1', HΔ', <- app_assoc in Ht.
    apply app_inv_head in Ht. subst Δ'.
    apply elem_of_app in He' as [?|He']; [done|].
    apply elem_of_cons in He' as [He'|He']; [by destruct force'|].
    apply elem_of_app in He' as [He'|He'].
    + destruct Halloc as [-> | ->]; [by apply elem_of_nil in He'|].
      by apply list_elem_of_singleton in He'.
    + apply elem_of_cons in He' as [He'|He']; [done|]. by apply list_elem_of_singleton in He'.
  - destruct Hr' as (_ & [[_ Ht]|(_ & _ & Ht)]); rewrite Htr1', HΔ' in Ht.
    + apply app_inv_head in Ht. by subst.
    + rewrite <- app_assoc in Ht. apply app_inv_head in Ht. subst Δ'.
      apply elem_of_app in He' as [?|He']; [done|]. by apply list_elem_of_singleton in He'.
Qed.
End staged.

Section gate_discipline.
Context {E : Type} `{OperatorClasses hvalue} `{Collaborators E}.
Variable Q : event → Prop.

Lemma emits_trace (st st' : state E) : trace st' = trace st → emits Q st st'.
Proof. intros Ht. exists []. by rewrite app_nil_r. Qed.

Lemma emits_trans (st1 st2 st3 : state E) :
  emits Q st1 st2 → emits Q st2 st3 → emits Q st1 st3.
Proof.
  intros (Δ1 & T1 & Q1) (Δ2 & T2 & Q2). exists (Δ1 ++ Δ2).
  split; [by rewrite T2, T1, app_assoc|by apply Forall_app].
Qed.

Lemma emits_bind {A B} self (m : M E A) (k : A → M E B) :
  pres (E:=E) (fun _ => emits Q) (fun _ => True) self m →
  (∀ a, pres (E:=E) (fun _ => emits Q) (fun _ => True) self (k a)) →
  pres (E:=E) (fun _ => emits Q) (fun _ => True) self (bind m k).
Proof.
  apply pres_bind; try done.
  - intros _ st. by apply emits_trace.
  - intros _. apply emits_trans.
Qed.

Lemma emits_silent {A} self (m : M E A) :
  (∀ st r st', m st = (r, st') → trace st' = trace st) →
  pres (E:=E) (fun _ => emits Q) (fun _ => True) self m.
Proof. intros Hm st r st' _ Hrun. apply emits_trace. by eapply Hm. Qed.

Lemma emits_emit self e :
  Q e → pres (E:=E) (fun _ => emits Q) (fun _ => True) self (emit e).
Proof. intros He st r st' _ [= <- <-]. exists [e]. split; [done|by repeat constructor]. Qed.

Lemma silent_ret {A} (a : A) (st : state E) r st' : ret a st = (r, st') → trace st' = trace st.
Proof. by intros [= <- <-]. Qed.

Lemma silent_deref l (st : state E) r st' : deref l st = (r, st') → trace st' = trace st.
Proof. unfold deref. destruct (nodes st !! l); by intros [= <- <-]. Qed.

Lemma silent_hook {A} (h : E → result A * E) (st : state E) r st' :
  hook h st = (r, st') → trace st' = trace st.
Proof. unfold hook. destruct (h (world st)) as [[a|e] w]; by intros [= <- <-]. Qed.

Lemma silent_update l f (st : state E) r st' : update l f st = (r, st') → trace st' = trace st.
Proof. by intros [= <- <-]. Qed.

Lemma silent_setitem l i v (st : state E) r st' :
  setitem_args l i v st = (r, st') → trace st' = trace st.
Proof.
  unfold setitem_args, bind, deref. destruct (nodes st !! l); [|by intros [= <- <-]].
  case_decide; by intros [= <- <-].
Qed.
End gate_discipline.

Section gate_by_force.
Context {E : Type} `{OperatorClasses hvalue} `{Collaborators E}.
Variable force : bool.

Lemma resolve_args_gate ev self s l :
  (∀ c, pres (E:=E) (fun _ => emits (gate_matches force)) (fun _ => True) c (ev c)) →
  ∀ i all_eval, pres (E:=E) (fun _ => emits (gate_matches force)) (fun _ => True) self
                     (resolve_args ev self s i l all_eval).
Proof.
  intros Hev. induction l as [|a l IH]; intros i all_eval; simpl.
  - apply emits_silent, @silent_ret.
  - apply emits_bind.
    { destruct a as [z|d|c|c]; try apply emits_silent, @silent_ret.
      destruct (dkind d); [apply emits_silent, @silent_ret|].
      apply emits_bind; [by apply emits_emit|]. intros _.
      apply emits_silent. by intros st r st' [= <- <-]. }
    intros _. apply emits_bind; [|intros b; apply IH].
    destruct a as [z|d|c|c]; try apply emits_silent, @silent_ret.
    apply emits_bind; [exact (Hev c)|]. intros a_eval.
    apply emits_bind; [by apply emits_emit|]. intros _.
    destruct a_eval; [|apply emits_silent, @silent_ret].
    apply emits_bind; [apply emits_silent, @silent_setitem|]. intros _.
    apply emits_silent, @silent_ret.
Qed.

Lemma pipeline_gate ev self id :
  (∀ c, pres (E:=E) (fun _ => emits (gate_matches force)) (fun _ => True) c (ev c)) →
  pres (E:=E) (fun _ => emits (gate_matches force)) (fun _ => True) self
       (pipeline ev self id force).
Proof.
  intros Hev. unfold pipeline.
  apply emits_bind; [apply emits_silent, @silent_deref|]. intros n0.
  apply emits_bind; [by apply resolve_args_gate|]. intros all_eval.
  destruct all_eval; simpl; [|apply emits_silent, @silent_ret].
  apply emits_bind.
  { unfold layout_gate. apply emits_bind; [apply emits_silent, @silent_deref|]. intros n.
    destruct force eqn:Hf.
    - apply emits_bind; [by apply emits_emit|]. intros _.
      apply emits_bind; [apply emits_silent, @silent_hook|]. intros _.
      apply emits_silent, @silent_ret.
    - apply emits_bind; [apply emits_silent, @silent_hook|]. intros b.
      apply emits_bind; [by apply emits_emit|]. intros _.
      apply emits_silent, @silent_ret. }
  intros ready. destruct ready; simpl; [|apply emits_silent, @silent_ret].
  apply emits_bind.
  { apply emits_bind; [apply emits_silent, @silent_deref|]. intros n.
    match goal with |- pres _ _ _ (let allocate := ?m in _) =>
      assert (pres (E:=E) (fun _ => emits (gate_matches force)) (fun _ => True) self m)
        as Halloc end.
    { apply emits_bind; [apply emits_silent, @silent_hook|]. intros o.
      apply emits_bind; [by apply emits_emit|]. intros _. apply emits_silent, @silent_ret. }
    simpl. destruct (out n); [|exact Halloc].
    apply emits_bind; [apply emits_silent; by intros st r st' [= <- <-]|].
    intros [|]; [apply emits_silent, @silent_ret|exact Halloc]. }
  intros o.
  apply emits_bind; [apply emits_silent, @silent_deref|]. intros n2.
  apply emits_bind; [by apply emits_emit|]. intros _.
  apply emits_bind; [apply emits_silent; by intros st r st' [= <- <-]|]. intros _.
  apply emits_bind; [apply emits_silent, @silent_deref|]. intros n3.
  apply emits_bind; [by apply emits_emit|]. intros _.
  apply emits_bind; [apply emits_silent, @silent_hook|]. intros _.
  apply emits_bind; [apply emits_silent, @silent_update|]. intros _.
  apply emits_bind; [|intros _; apply emits_silent, @silent_ret].
  destruct (store_last (cls n3) && bool_decide (id ≠ None));
    [apply emits_silent, @silent_update|apply emits_silent, @silent_ret].
Qed.

Lemma evaluate_gate k : ∀ self id,
  pres (E:=E) (fun _ => emits (gate_matches force)) (fun _ => True) self
       (evaluate k self id force).
Proof.
  induction k as [|k IH]; intros self id; simpl.
  - apply emits_silent. by intros st r st' [= <- <-].
  - apply emits_bind; [apply emits_silent, @silent_deref|]. intros n.
    destruct (store_last (cls n) && bool_decide (id ≠ None));
      [|apply pipeline_gate; intros c; apply IH].
    case_bool_decide; [apply emits_silent, @silent_ret|].
    apply emits_bind; [apply emits_silent, @silent_update|]. intros _.
    apply pipeline_gate. intros c. apply IH.
Qed.
End gate_by_force.

(** Two sequences whose steps give the same results give the same result. *)
Lemma bind_ext {E A B} (m m' : M E A) (k k' : A → M E B) (st : state E) :
  m st = m' st → (∀ a st1, k a st1 = k' a st1) → bind m k st = bind m' k' st.
Proof. intros Hm Hk. unfold bind. rewrite Hm. destruct (m' st) as [[a|e|] st1]; auto. Qed.

Section gate_independence.
Context {E : Type} {ops : OperatorClasses hvalue} {col : Collaborators E}.

(** The loop reads its collaborators through [require_scales] only. *)
Lemma resolve_args_ext (col' : Collaborators E) ev ev' self s l :
  (∀ c st, ev c st = ev' c st) →
  @require_scales E col' = @require_scales E col →
  ∀ i all_eval (st : state E),
    @resolve_args E col' ev self s i l all_eval st = @resolve_args E col ev' self s i l all_eval st.
Proof.
  intros Hev Hreq. induction l as [|a l IH]; intros i all_eval st; simpl; [done|].
  apply bind_ext; [by rewrite Hreq|]. intros _ st1.
  apply bind_ext; [|intros; apply IH].
  destruct a as [z|d|c|c]; try done. by apply bind_ext.
Qed.

(** A forced call does the same whatever [check_conditions] is. *)
Lemma evaluate_without_check chk k : ∀ self id (st : state E),
  @evaluate E ops (with_check chk col) k self id true st = evaluate k self id true st.
Proof.
  induction k as [|k IH]; intros self id st; [done|]. simpl.
  apply bind_ext; [done|]. intros n st1.
  assert (∀ st2, @pipeline E ops (with_check chk col)
                   (fun a => @evaluate E ops (with_check chk col) k a id true) self id true st2
                 = pipeline (fun a => evaluate k a id true) self id true st2) as Hp.
  { intros st2. unfold pipeline. apply bind_ext; [done|]. intros n0 st3.
    apply bind_ext; [|done]. apply resolve_args_ext; [|done]. intros c st4. apply IH. }
  destruct (store_last (cls n) && bool_decide (id ≠ None)); [|apply Hp].
  destruct (bool_decide (id = last_id n)); [done|]. apply bind_ext; [done|]. intros _ st2.
  apply Hp.
Qed.

(** An attempt does the same whatever [enforce_conditions] is. *)
Lemma attempt_without_enforce enf k : ∀ self id (st : state E),
  @evaluate E ops (with_enforce enf col) k self id false st = evaluate k self id false st.
Proof.
  induction k as [|k IH]; intros self id st; [done|]. simpl.
  apply bind_ext; [done|]. intros n st1.
  assert (∀ st2, @pipeline E ops (with_enforce enf col)
                   (fun a => @evaluate E ops (with_enforce enf col) k a id false) self id false st2
                 = pipeline (fun a => evaluate k a id false) self id false st2) as Hp.
  { intros st2. unfold pipeline. apply bind_ext; [done|]. intros n0 st3.
    apply bind_ext; [|done]. apply resolve_args_ext; [|done]. intros c st4. apply IH. }
  destruct (store_last (cls n) && bool_decide (id ≠ None)); [|apply Hp].
  destruct (bool_decide (id = last_id n)); [done|]. apply bind_ext; [done|]. intros _ st2.
  apply Hp.
Qed.
End gate_independence.

Section gate_choice.
Context {E : Type} {ops : OperatorClasses hvalue} {col : Collaborators E}.

(** The flag decides which layout hook is ever called, on the node and on
    every node below it.  [attempt] never calls [enforce_conditions]: with
    any other [enforce_conditions] in its place the attempt gives the same
    result and the same state, and no call of it is among the calls made.
    A forced [evaluate] never calls [check_conditions]: with any other
    [check_conditions] in its place it gives the same result and the same
    state, and no answer of it is among the calls made. *)
Theorem force_selects_the_gate k self id (st : state E) :
  (∀ enf, @attempt E ops (with_enforce enf col) k self id st = attempt k self id st) ∧
  (∀ chk, @evaluate E ops (with_check chk col) k self id true st
          = evaluate k self id true st) ∧
  (∃ Δ, trace (attempt k self id st).2 = trace st ++ Δ ∧ ∀ l, EEnforce l ∉ Δ) ∧
  (∃ Δ, trace (evaluate k self id true st).2 = trace st ++ Δ ∧ ∀ l b, ECheck l b ∉ Δ).
Proof.
  split_and!.
  - intros enf. apply attempt_without_enforce.
  - intros chk. apply evaluate_without_check.
  - destruct (evaluate_gate false k self id st _ _ I
                (surjective_pairing (evaluate k self id false st))) as (Δ & HΔ & HQ).
    exists Δ. split; [done|]. rewrite Forall_forall in HQ.
    intros l Hl. apply HQ in Hl. simpl in Hl. done.
  - destruct (evaluate_gate true k self id st _ _ I
                (surjective_pairing (evaluate k self id true st))) as (Δ & HΔ & HQ).
    exists Δ. split; [done|]. rewrite Forall_forall in HQ.
    intros l b Hl. apply HQ in Hl. simpl in Hl. done.
Qed.

Lemma allocate_output_choice self (st : state E) n :
  nodes st !! self = Some n →
  allocate_output self st =
  match out n with
  | Some so =>
      if truth so (world st) then (Returns so, st)
      else (Returns (new_data (future_type (cls n)) (output_request n) (world st)).1,
            State (nodes st)
                  (new_data (future_type (cls n)) (output_request n) (world st)).2
                  (trace st ++ [ENewData self
                     (new_data (future_type (cls n)) (output_request n) (world st)).1]))
  | None =>
      (Returns (new_data (future_type (cls n)) (output_request n) (world st)).1,
       State (nodes st)
             (new_data (future_type (cls n)) (output_request n) (world st)).2
             (trace st ++ [ENewData self
                (new_data (future_type (cls n)) (output_request n) (world st)).1]))
  end.
Proof.
  intros Hn. unfold allocate_output, bind at 1, deref. rewrite Hn. simpl.
  unfold output_request.
  destruct (out n) as [so|].
  - unfold bind at 1, ask. destruct (truth so (world st)); [done|].
    unfold bind, hook, emit, ret. by destruct (new_data _ _ _).
  - unfold bind, hook, emit, ret. by destruct (new_data _ _ _).
Qed.

(** The output of a call that misses the cache is the supplied [out] when
    there is one and it is true; when there is none, or it is false, the
    output is what [future_type] builds, from the bases when any of them is
    set and from the domain when none is. *)
Theorem output_is_supplied_or_built k self id force (st st' : state E) n o :
  nodes st !! self = Some n → cache_hit n id = false →
  evaluate (S k) self id force st = (Returns (Some o), st') →
  ∃ n1 w, same_shape n n1 ∧
    match out n with
    | Some so =>
        if truth so w then o = so
        else o = (new_data (future_type (cls n)) (output_request n1) w).1
    | None => o = (new_data (future_type (cls n)) (output_request n1) w).1
    end.
Proof.
  intros Hn Hmiss Hrun. rewrite (evaluate_miss _ _ _ _ _ _ Hn Hmiss) in Hrun.
  set (stc := State (<[self := checked n id]> (nodes st)) (world st) (trace st)) in *.
  assert (nodes stc !! self = Some (checked n id)) as Hnc by apply lookup_insert_eq.
  unfold pipeline in Hrun. unfold bind at 1, deref at 1 in Hrun. rewrite Hnc in Hrun.
  unfold bind at 1 in Hrun.
  destruct (resolve_args _ self _ 0 _ true stc) as [rl st1] eqn:Hloop.
  destruct rl as [all_eval|e|]; [|done..].
  destruct (resolve_args_stable _ _ _ _ _ _ _ _ _ _ _ Hloop) as [Hst _].
  destruct (Hst _ _ Hnc) as (n1 & Hn1 & Hshape).
  assert (same_shape n n1) as Hshape'.
  { unfold same_shape in *. unfold checked in Hshape.
    destruct (store_last (cls n) && bool_decide (id ≠ None)); simpl in Hshape; exact Hshape. }
  destruct all_eval; simpl in Hrun; [|done].
  apply bind_returns in Hrun as (ready & st2 & Hgate & Hrun).
  assert (nodes st2 = nodes st1) as Hn2.
  { rewrite (layout_gate_run _ _ _ _ Hn1) in Hgate. destruct force.
    - destruct (enforce_conditions _ _) as [[[]|e] w]; by simplify_eq.
    - destruct (check_conditions _ _) as [[b|e] w]; by simplify_eq. }
  destruct ready; simpl in Hrun; [|done].
  apply bind_returns in Hrun as (o2 & st3 & Halloc & Hrun).
  assert (o2 = o) as ->.
  { repeat (apply bind_returns in Hrun as (? & ? & _ & Hrun)). by injection Hrun as -> _. }
  rewrite (allocate_output_choice self st2 n1) in Halloc by by rewrite Hn2.
  exists n1, (world st2). split; [done|].
  destruct Hshape' as (Hc & _ & Ho & _). rewrite <- Hc, <- Ho.
  destruct (out n1) as [so|].
  - destruct (truth so (world st2)); by injection Halloc as <- _.
  - by injection Halloc as <- _.
Qed.

End gate_choice.

Section round_trip.
Context {E : Type} `{OperatorClasses hvalue} `{Collaborators E}.
Variable rank : loc → nat.

Lemma resolve_args_clean ev self s l :
  (∀ c (st0 st1 : state E) r, rank c < rank self → acyclic rank st0 → memo_ok st0 →
     clean_upto rank (rank c) st0 → ev c st0 = (Returns r, st1) →
     framed rank c st0 st1 ∧ memo_ok st1 ∧ clean_upto rank (rank c) st1) →
  ∀ i all_eval (st : state E) n all_eval' st1,
  acyclic rank st → memo_ok st → nodes st !! self = Some n → Forall (below rank self) l →
  (∀ l0 n0, nodes st !! l0 = Some n0 → l0 ≠ self → rank l0 ≤ rank self →
            args n0 = original_args n0) →
  resolve_args ev self s i l all_eval st = (Returns all_eval', st1) →
  ∀ l0 n0, nodes st1 !! l0 = Some n0 → l0 ≠ self → rank l0 ≤ rank self →
           args n0 = original_args n0.
Proof.
  intros Hev. induction l as [|a l IH]; intros i all_eval st n r st1 Hac Hok Hn Hl Hcl Hrun.
  - by injection Hrun as <- <-.
  - apply Forall_cons in Hl as [Ha Hl]. simpl in Hrun.
    destruct a as [z|d|c|c].
    + eapply (IH _ _ st n); [done|done|done|done|done|exact Hrun].
    + destruct (dkind d); [eapply (IH _ _ st n); [done|done|done|done|done|exact Hrun]|].
      eapply (IH _ _ _ n); [| | | | |exact Hrun]; done.
    + unfold bind at 1 in Hrun. simpl in Hrun. unfold bind at 1 in Hrun.
      unfold bind at 1 in Hrun.
      destruct (ev c st) as [rc stc] eqn:Hevc. simpl in Ha.
      destruct rc as [a_eval|e|]; [|done..].
      assert (clean_upto rank (rank c) st) as Hcc.
      { intros l0 n0 Hl0 Hr0. apply (Hcl l0 n0 Hl0); [|lia]. intros ->. lia. }
      destruct (Hev _ _ _ _ Ha Hac Hok Hcc Hevc) as ((Hacc & Hframe & _) & Hokc & Hclc).
      pose proof (Hframe self Ha) as Hself. rewrite Hn in Hself.
      assert (∀ l0 n0, nodes stc !! l0 = Some n0 → l0 ≠ self → rank l0 ≤ rank self →
                       args n0 = original_args n0) as Hcl'.
      { intros l0 n0 Hl0 Hne Hr0. destruct (decide (rank l0 ≤ rank c)) as [Hle|Hgt].
        - by apply (Hclc l0 n0).
        - rewrite Hframe in Hl0 by lia. by apply (Hcl l0 n0). }
      unfold bind at 1, emit at 1 in Hrun. destruct a_eval as [rv|].
      * unfold bind at 1, setitem_args, bind at 1, deref in Hrun. simpl in Hrun.
        rewrite Hself in Hrun. case_decide; [|done].
        unfold update in Hrun. simpl in Hrun.
        match type of Hrun with resolve_args _ _ _ _ _ _ ?s0 = _ =>
          assert (acyclic rank s0) as Hac';
          [|assert (memo_ok s0) as Hok';
            [|assert (nodes s0 !! self = Some (set_args (<[i:=VData rv]> (args n)) n)) as Hn';
              [|refine (IH _ _ _ _ _ _ Hac' Hok' Hn' Hl _ Hrun)]]]
        end.
        -- intros l0 n0. simpl. rewrite lookup_alter. case_decide as Hl0.
           ++ subst l0. rewrite Hself. simpl. intros [= <-].
              destruct (Hac self n Hn) as [Han Hon]. simpl. split; [|done].
              by apply Forall_insert.
           ++ apply (Hacc Hac).
        -- apply memo_ok_alter; [done|]. simpl. done.
        -- simpl. rewrite lookup_alter_eq, Hself. done.
        -- intros l0 n0. simpl. intros Hl0 Hne. rewrite lookup_alter_ne in Hl0 by done.
           by apply Hcl'.
      * eapply (IH _ _ _ n); [| | | | |exact Hrun]; [by apply Hacc|done|exact Hself|done|].
        intros l0 n0 Hl0. simpl in Hl0. by apply Hcl'.
    + eapply (IH _ _ st n); [done|done|done|done|done|exact Hrun].
Qed.

Lemma forced_clean_upto k : ∀ self id (st st' : state E) r,
  acyclic rank st → memo_ok st → clean_upto rank (rank self) st →
  evaluate k self id true st = (Returns r, st') →
  clean_upto rank (rank self) st'.
Proof.
  induction k as [|k IH]; intros self id st st' r Hac Hok Hcl Hrun; [done|].
  destruct (nodes st !! self) as [n|] eqn:Hn;
    [|simpl in Hrun; unfold bind, deref in Hrun; by rewrite Hn in Hrun].
  destruct (cache_hit n id) eqn:Hhit.
  { rewrite (evaluate_hit _ _ _ _ _ _ Hn Hhit) in Hrun. by injection Hrun as _ <-. }
  destruct r as [o|]; [|by destruct (forced_never_absent rank _ _ _ _ _ Hac Hok Hrun)].
  rewrite (evaluate_miss _ _ _ _ _ _ Hn Hhit) in Hrun.
  set (stc := State (<[self := checked n id]> (nodes st)) (world st) (trace st)) in *.
  assert (nodes stc !! self = Some (checked n id)) as Hnc by apply lookup_insert_eq.
  assert (acyclic rank stc) as Hacc by by apply acyclic_checked.
  assert (memo_ok stc) as Hokc.
  { unfold memo_ok, stc. simpl. apply map_Forall_insert_2; [|done].
    unfold checked. destruct (_ && _); simpl; [done|]. apply (Hok self n Hn). }
  pose proof Hrun as Hrun0.
  unfold pipeline in Hrun. unfold bind at 1, deref at 1 in Hrun. rewrite Hnc in Hrun.
  unfold bind at 1 in Hrun.
  destruct (resolve_args _ self _ 0 _ true stc) as [rl st1] eqn:Hloop.
  destruct rl as [all_eval|e|]; [|done..].
  assert (∀ l0 n0, nodes st1 !! l0 = Some n0 → l0 ≠ self → rank l0 ≤ rank self →
                   args n0 = original_args n0) as Hcl1.
  { destruct (Hacc self _ Hnc) as [Ha _].
    refine (resolve_args_clean _ _ _ _ _ _ _ _ _ _ _ Hacc Hokc Hnc Ha _ Hloop).
    - intros c st0 st2 r0 Hc Hac0 Hok0 Hcl0 Hev. split_and!.
      + by eapply evaluate_framed.
      + by eapply evaluate_memo_ok.
      + by eapply IH.
    - intros l0 n0 Hl0 Hne Hr0. simpl in Hl0. rewrite lookup_insert_ne in Hl0 by done.
      by apply (Hcl l0 n0). }
  destruct (resolve_args_stable _ _ _ _ _ _ _ _ _ _ _ Hloop) as [Hst _].
  destruct (Hst _ _ Hnc) as (n1 & Hn1 & _).
  pose proof (pipeline_after_args _ _ _ _ _ _ _ _ _ _ _ Hnc Hloop Hn1 Hrun0)
    as (_ & Hnodes & _).
  intros l0 n0 Hl0 Hr0. rewrite Hnodes in Hl0.
  destruct (decide (self = l0)) as [<-|Hne].
  - rewrite lookup_insert_eq in Hl0. injection Hl0 as <-.
    by destruct (store_args id o (set_args (original_args n1) n1)) as [-> ->].
  - rewrite lookup_insert_ne in Hl0 by done. by apply (Hcl1 l0 n0).
Qed.

(** In a forest-shaped store where every node holds its original
    arguments, a forced call that returns leaves every node with its
    original arguments again, down to the last descendant; called without an
    id it leaves the store of nodes exactly as it found it. *)
Theorem forced_evaluation_restores_every_node k self id (st st' : state E) r :
  acyclic rank st → memo_ok st → clean st →
  evaluate k self id true st = (Returns r, st') →
  clean st' ∧ (id = None → nodes st' = nodes st).
Proof.
  intros Hac Hok Hcl Hrun.
  assert (clean st') as Hcl'.
  { intros l0 n0 Hl0. destruct (decide (rank l0 ≤ rank self)) as [Hle|Hgt].
    - eapply (forced_clean_upto k self id st st' r); try done.
      intros l1 n1 Hl1 _. by apply (Hcl l1 n1).
    - destruct (evaluate_framed rank _ _ _ _ _ _ _ Hac Hrun) as (_ & Hframe & _).
      rewrite Hframe in Hl0 by lia. by apply (Hcl l0 n0). }
  split; [done|]. intros ->. apply map_eq. intros l0.
  destruct (evaluate_stable _ _ _ _ _ _ _ Hrun) as [Hst _].
  destruct (nodes st !! l0) as [n0|] eqn:Hl0.
  - destruct (evaluate_memo_kept _ _ _ _ _ _ Hrun _ _ Hl0) as (n' & Hl' & Hi & Ho).
    rewrite Hl'. f_equal.
    destruct (Hst _ _ Hl0) as (n'' & Hl'' & Hshape). rewrite Hl' in Hl''. injection Hl'' as <-.
    pose proof (Hcl _ _ Hl0) as Ha. pose proof (Hcl' _ _ Hl') as Ha'. simpl in Ha, Ha'.
    pose proof (evaluate_same_objects _ _ _ _ _ _ _ Hrun l0) as Hso.
    rewrite Hl0, Hl' in Hso. inversion Hso as [? ? Hre|]; subst.
    destruct Hshape as (_ & Hoa & _). unfold reassigned in Hre.
    rewrite Hre. rewrite Hi, Ho, Ha', Hoa, <- Ha. by destruct n0.
  - pose proof (evaluate_same_objects _ _ _ _ _ _ _ Hrun l0) as Hso.
    rewrite Hl0 in Hso. by inversion Hso.
Qed.
End round_trip.


(** * Concrete runs *)

#[local] Existing Instance demo_ops.
#[local] Existing Instance demo_tree_ops.
#[local] Existing Instance demo_collaborators.

(** [Add(Negate(a), b)] is rebuilt by its own operators. *)
Lemma ex_tree_rebuildable : rebuildable ex_tree.
Proof.
  constructor.
  - intros a' Ha'. eexists. split; [reflexivity|reflexivity].
  - intros a Ha. apply elem_of_cons in Ha as [[= ->]|Ha].
    + constructor.
      * intros a' Ha'. eexists. split; reflexivity.
      * intros b Hb. simpl in Hb. apply list_elem_of_singleton in Hb. done.
    + apply list_elem_of_singleton in Ha. done.
Qed.

(** [replace_cases] on [Add(Negate(a), b)] and a leaf that does not occur. *)
Lemma replace_cases_witness :
  ∃ t', replace ex_tree (VData (leaf Field 7)) (VNum 0) = Ok (VFut t') ∧
        py_eq (VFut t') (VFut ex_tree) = true ∧
        original_args (node t') = args (node t').
Proof.
  destruct (proj2 (replace_cases ex_tree (VData (leaf Field 7)) (VNum 0)))
    as (t' & Hrep & Heq & _ & _ & _ & Horig).
  - reflexivity.
  - exact ex_tree_rebuildable.
  - exists t'. split; [exact Hrep|]. split; [exact Heq|exact Horig].
Defined.

(** C6 fails as stated: [Add(Negate(a), b)] has [Negate], which is neither
    the operator identity of the root nor a leaf. *)
Lemma has_nested_operator :
  ¬ (has ex_tree [VClass "Negate"] = true ↔
     (VClass "Negate" : tvalue) = VClass (base (cls (node ex_tree))) ∨
     ∃ d, (VClass "Negate" : tvalue) = VData d ∧ d ∈ atoms ex_tree [dkind d]).
Proof.
  intros [Hhas _]. destruct Hhas as [Hroot|(d & Hd & _)]; [reflexivity| |done].
  vm_compute in Hroot. done.
Qed.

(** C2 at concrete inputs: [__init__] compares the bases of [out] with
    [self.bases] before it has assigned it.  With operator classes that
    declare no class-level [bases] any supplied [out] ends in an
    [AttributeError], whether or not its bases are the computed ones; with a
    class that declares one, the check passes an [out] whose bases differ
    from the computed ones. *)
Lemma init_out_check_reads_unset_bases :
  (* an output whose bases differ from the computed ones *)
  __init__ "Add" [VData (leaf Field 1); VData (leaf Field 2) : tvalue]
           (Some (Data Field 9 [Some 5]))
    = Raise (AttributeError "bases") ∧
  (* an output whose bases are the computed ones *)
  _build_bases "Add" [VData (leaf Field 1); VData (leaf Field 2) : tvalue]
    = Ok [Some 0] ∧
  __init__ "Add" [VData (leaf Field 1); VData (leaf Field 2) : tvalue]
           (Some (Data Field 9 [Some 0]))
    = Raise (AttributeError "bases") ∧
  (* a class that declares [bases]: the check compares with that one *)
  (bases <$> @__init__ tvalue (preset_classes tvalue_bases) "Convert"
               [VData (leaf Field 1)] (Some (Data Field 9 [Some 7])),
   out <$> @__init__ tvalue (preset_classes tvalue_bases) "Convert"
               [VData (leaf Field 1)] (Some (Data Field 9 [Some 7])))
    = (Ok [Some 0], Ok (Some (Data Field 9 [Some 7]))).
Proof. vm_compute. done. Qed.

(** The demonstration store is a forest. *)
Lemma demo_acyclic : acyclic demo_rank demo_state.
Proof.
  unfold acyclic, demo_state, demo_nodes. simpl.
  repeat apply map_Forall_insert_2; try apply map_Forall_empty;
    simpl; split; repeat constructor; unfold demo_rank; lia.
Qed.



(** C3 fails as stated: a successful [attempt] with the id 7 on the caching
    [Differentiate(a)] stores the id and the output. *)
Lemma attempt_updates_memo :
  (last_id <$> nodes demo_state !! 3, last_out <$> nodes demo_state !! 3)
    = (Some None, Some None) ∧
  store_last "Differentiate" = true ∧
  (attempt 1 3 (Some 7%Z) demo_state).1 = Returns (Some (Data Field 10 [Some 0])) ∧
  (last_id <$> nodes (attempt 1 3 (Some 7%Z) demo_state).2 !! 3,
   last_out <$> nodes (attempt 1 3 (Some 7%Z) demo_state).2 !! 3)
    = (Some (Some 7%Z), Some (Some (Data Field 10 [Some 0]))).
Proof. vm_compute. done. Qed.

(** [memo_updated_by_any_success] on that attempt. *)
Lemma memo_updated_by_any_success_witness :
  ∃ n', nodes (attempt 1 3 (Some 7%Z) demo_state).2 !! 3 = Some n' ∧
        last_id n' = Some 7%Z ∧ last_out n' = Some (Data Field 10 [Some 0]).
Proof.
  apply (memo_updated_by_any_success 0 3 (Some 7%Z) false demo_state
           (attempt 1 3 (Some 7%Z) demo_state).2
           (fresh "Differentiate" [VData (leaf Field 1)])
           (Some (Data Field 10 [Some 0]))); [reflexivity|reflexivity|by vm_compute].
Defined.


(** [cache_check] on the node that remembers the id 7: the stored output
    comes back and the state is the same. *)
Lemma cache_check_witness :
  evaluate 1 5 (Some 7%Z) true demo_state = (Returns (Some (leaf Field 9)), demo_state).
Proof.
  apply (cache_check 0 5 7%Z true demo_state
           (set_last (Some 7%Z) (Some (leaf Field 9))
              (fresh "Differentiate" [VData (leaf Field 1)]))); reflexivity.
Defined.

(** The demonstration store is a forest over the recording world too. *)
Lemma logging_acyclic : acyclic demo_rank logging_state.
Proof.
  unfold acyclic, logging_state, demo_nodes. simpl.
  repeat apply map_Forall_insert_2; try apply map_Forall_empty;
    simpl; split; repeat constructor; unfold demo_rank; lia.
Qed.

(** C7 fails as stated.  The scale of [Negate(a)] is 1, yet its forced
    evaluation asks the argument, and then the output, for the scale 3/2,
    the dealias factor of the domain; and the call that is answered from
    the cache asks nothing of its [Field] argument. *)
Lemma scale_is_the_dealias_factor :
  scales <$> nodes logging_state !! 0 = Some 1%Q ∧
  world (@evaluate scale_log demo_ops logging_collaborators 1 0 None true logging_state).2
    = [(10, (3 # 2)%Q); (1, (3 # 2)%Q)] ∧
  @evaluate scale_log demo_ops logging_collaborators 1 5 (Some 7%Z) true logging_state
    = (Returns (Some (leaf Field 9)), logging_state).
Proof. vm_compute. done. Qed.

(** [arguments_and_output_share_scale] on the forced evaluation of
    [Negate(a)] over the world that records the scales, with the dealias
    factor 3/2. *)
Lemma arguments_and_output_share_scale_witness :
  ∃ (st1 st3 : state scale_log) (n1 : hnode) Δ1,
    trace st1 = trace logging_state ++ Δ1 ∧
    ERequireScales 0 0 (leaf Field 1) (3 # 2)%Q ∈ Δ1 ∧
    nodes st1 !! 0 = Some n1 ∧
    @operate scale_log logging_collaborators n1 (Data Field 10 [Some 0])
      (@set_scales scale_log logging_collaborators (Data Field 10 [Some 0]) (3 # 2)%Q
         (world st3))
    = (Ok tt,
       world (@evaluate scale_log demo_ops logging_collaborators 1 0 None true
                logging_state).2).
Proof.
  destruct (@arguments_and_output_share_scale scale_log demo_ops logging_collaborators
              demo_rank 0 0 None true logging_state
              (@evaluate scale_log demo_ops logging_collaborators 1 0 None true
                 logging_state).2
              (fresh "Negate" [VData (leaf Field 1)])
              (Some (Data Field 10 [Some 0])))
    as (b & st1 & Δ1 & _ & Htr & Hreq & n1 & w1 & st3 & Δ3 & Hn1 & _ & _ & Hop & _);
    [exact logging_acyclic|reflexivity|reflexivity|by vm_compute|].
  exists st1, st3, n1, Δ1. split; [exact Htr|]. split; [|split; [exact Hn1|exact Hop]].
  exact (proj1 (Hreq [] (leaf Field 1) [] eq_refl eq_refl)).
Defined.

(** [kernel_error_keeps_substituted_args] on [Divide(Negate(a), b)], whose
    [operate] raises after the output of [Negate(a)] has been substituted. *)
Lemma kernel_error_keeps_substituted_args_witness :
  ∃ (st' : state demo_world) (n1 : hnode),
    evaluate 2 4 None true demo_state = (Raises (KernelError 0), st') ∧
    nodes st' !! 4 = Some n1 ∧
    args n1 = [VData (Data Field 10 [Some 0]); VData (leaf Field 2)] ∧
    args n1 ≠ original_args n1.
Proof.
  destruct (kernel_error_keeps_substituted_args demo_rank 1 4 None demo_state
              (resolve_args (fun a => evaluate 1 a None true) 4 (3 # 2)%Q 0
                 [VFut 0; VData (leaf Field 2)] true
                 (State (<[4 := fresh "Divide" [VFut 0; VData (leaf Field 2)]]>
                           (nodes demo_state))
                        (world demo_state) (trace demo_state))).2
              (fresh "Divide" [VFut 0; VData (leaf Field 2)])
              (set_args [VData (Data Field 10 [Some 0]); VData (leaf Field 2)]
                 (fresh "Divide" [VFut 0; VData (leaf Field 2)]))
              (KernelError 0) (World [10; 2; 10; 1; 1] 12))
    as (st' & Hrun & Hnodes & _ & _ & _ & _ & _ & Hne).
  - exact demo_acyclic.
  - reflexivity.
  - reflexivity.
  - by vm_compute.
  - by vm_compute.
  - right. exists (World [10; 2; 10; 1; 1] 11), (Data Field 11 [Some 0]).
    eexists. split; [by vm_compute|]. split; [lazy; reflexivity|by vm_compute].
  - exists st'. eexists. split; [exact Hrun|]. rewrite Hnodes.
    split; [by vm_compute|]. split; [reflexivity|].
    apply Hne. exists 0. apply list_elem_of_here.
Defined.

(** No cache slot of the demonstration store is stale. *)
Lemma demo_memo_ok : memo_ok demo_state.
Proof.
  unfold memo_ok, demo_state, demo_nodes. simpl.
  repeat apply map_Forall_insert_2; try apply map_Forall_empty; simpl; done.
Qed.

(** [evaluate_enough_fuel] on the [Add] node, of rank 2. *)
Lemma evaluate_enough_fuel_witness : (evaluate 3 2 None true demo_state).1 ≠ OutOfFuel.
Proof.
  apply (evaluate_enough_fuel demo_rank 3 2 None true demo_state);
    [exact demo_acyclic|unfold demo_rank; lia].
Defined.

(** [same_id_returns_stored_output] after the attempt with the id 7. *)
Lemma same_id_returns_stored_output_witness :
  evaluate 1 3 (Some 7%Z) true (attempt 1 3 (Some 7%Z) demo_state).2
  = (Returns (Some (Data Field 10 [Some 0])), (attempt 1 3 (Some 7%Z) demo_state).2).
Proof.
  apply (same_id_returns_stored_output 0 0 3 7%Z false true demo_state
           (attempt 1 3 (Some 7%Z) demo_state).2
           (fresh "Differentiate" [VData (leaf Field 1)]));
    [reflexivity|reflexivity|by vm_compute].
Defined.

(** [forced_evaluate_restores_args] on the [Add] node. *)
Lemma forced_evaluate_restores_args_witness :
  ∃ o n', (evaluate 2 2 None true demo_state).1 = Returns (Some o) ∧
          nodes (evaluate 2 2 None true demo_state).2 !! 2 = Some n' ∧
          args n' = original_args n'.
Proof.
  destruct (forced_evaluate_restores_args demo_rank 1 2 None demo_state
              (evaluate 2 2 None true demo_state).2 (fresh "Add" [VFut 0; VFut 1])
              (Some (Data Field 12 [Some 0])))
    as (o & n' & Ho & Hn' & Hargs & _);
    [exact demo_acyclic|exact demo_memo_ok|reflexivity|reflexivity|by vm_compute|].
  exists o, n'. split; [|split; [exact Hn'|exact Hargs]].
  injection Ho as <-. by vm_compute.
Defined.

(** ** Concrete runs of the further properties *)

(** [replace_of_absent_operand] on [Add(Negate(a), b)] and a field that is
    not in it. *)
Lemma replace_of_absent_operand_witness :
  ∃ t', replace ex_tree (VData (leaf Field 7)) (VNum 0) = Ok (VFut t') ∧
        py_eq (VFut t') (VFut ex_tree) = true ∧
        original_args (node t') = args (node t').
Proof.
  apply (replace_of_absent_operand ex_tree (VData (leaf Field 7)) (VNum 0));
    [done|reflexivity|exact ex_tree_rebuildable].
Defined.

(** [equal_trees_print_alike] on [Add(Negate(a), b)] and the equal node
    that has a stored output. *)
Lemma equal_trees_print_alike_witness :
  __repr__ (fun c => c) (fun _ => "f") ex_tree
  = __repr__ (fun c => c) (fun _ => "f") ex_tree_cached.
Proof.
  destruct (equal_trees_print_alike (fun c => c) (fun _ => "f") (fun _ => "f")
              ex_tree ex_tree_cached) as [Hrepr _];
    [reflexivity|by vm_compute|exact Hrepr].
Defined.

(** [evaluate_assigns_only_args_and_cache] on the attempt that leaves a
    substituted argument in the [Add] node. *)
Lemma evaluate_assigns_only_args_and_cache_witness :
  match nodes demo_state !! 2, nodes (attempt 2 2 None demo_state).2 !! 2 with
  | Some n, Some n' => n' = set_last (last_id n') (last_out n') (set_args (args n') n)
  | None, None => True
  | _, _ => False
  end.
Proof.
  apply (evaluate_assigns_only_args_and_cache 2 2 None false demo_state
           (attempt 2 2 None demo_state).2 (attempt 2 2 None demo_state).1).
  apply surjective_pairing.
Defined.

(** [evaluate_changes_nothing_above]: evaluating [Negate(a)] leaves the
    [Add] node above it alone. *)
Lemma evaluate_changes_nothing_above_witness :
  nodes (evaluate 1 0 None true demo_state).2 !! 2 = nodes demo_state !! 2.
Proof.
  destruct (evaluate_changes_nothing_above demo_rank 1 0 None true demo_state
              (evaluate 1 0 None true demo_state).2 (evaluate 1 0 None true demo_state).1)
    as (_ & Hframe & _); [exact demo_acyclic|apply surjective_pairing|].
  apply Hframe. unfold demo_rank. lia.
Defined.

(** [cache_slots_follow_the_call_id] on a call with the id 7, seen from
    the node that already holds an output for that id. *)
Lemma cache_slots_follow_the_call_id_witness :
  ∃ n', nodes (attempt 1 3 (Some 7%Z) demo_state).2 !! 5 = Some n' ∧
    ((last_id n' = Some 7%Z ∧ last_out n' = Some (leaf Field 9)) ∨
     (last_id n' = None ∧ last_out n' = None) ∨
     (last_id n' = Some 7%Z ∧ last_out n' ≠ None)).
Proof.
  apply (cache_slots_follow_the_call_id 1 3 (Some 7%Z) false demo_state
           (attempt 1 3 (Some 7%Z) demo_state).2 (attempt 1 3 (Some 7%Z) demo_state).1
           (surjective_pairing _) 5
           (set_last (Some 7%Z) (Some (leaf Field 9))
              (fresh "Differentiate" [VData (leaf Field 1)]))).
  reflexivity.
Defined.

(** [cached_output_survives_same_id]: the output stored for the id 7 is
    still there after another expression was evaluated with the id 7. *)
Lemma cached_output_survives_same_id_witness :
  ∃ n', nodes (evaluate 2 2 (Some 7%Z) true demo_state).2 !! 5 = Some n' ∧
        last_id n' = Some 7%Z ∧ last_out n' = Some (leaf Field 9).
Proof.
  apply (cached_output_survives_same_id 2 2 7%Z true demo_state
           (evaluate 2 2 (Some 7%Z) true demo_state).2
           (evaluate 2 2 (Some 7%Z) true demo_state).1 5
           (set_last (Some 7%Z) (Some (leaf Field 9))
              (fresh "Differentiate" [VData (leaf Field 1)])));
    [apply surjective_pairing|reflexivity|reflexivity|reflexivity].
Defined.

(** The second demonstration store is a forest. *)
Lemma demo_acyclic2 : acyclic demo_rank demo_state2.
Proof.
  unfold acyclic, demo_state2, demo_nodes2. simpl.
  repeat apply map_Forall_insert_2; try apply map_Forall_empty;
    simpl; split; repeat constructor; unfold demo_rank; lia.
Qed.

(** [cache_cleared_unless_output]: an attempt with the id 8 that the
    operator refuses leaves the node without the output it held for the
    id 7. *)
Lemma cache_cleared_unless_output_witness :
  ∃ n', nodes (attempt 1 0 (Some 8%Z) demo_state2).2 !! 0 = Some n' ∧
        last_id n' = None ∧ last_out n' = None.
Proof.
  apply (cache_cleared_unless_output demo_rank 0 0 8%Z false demo_state2
           (attempt 1 0 (Some 8%Z) demo_state2).2
           (set_last (Some 7%Z) (Some (leaf Field 9))
              (fresh "Differentiate" [VData (leaf Field 2)]))
           (attempt 1 0 (Some 8%Z) demo_state2).1);
    [exact demo_acyclic2|reflexivity|reflexivity|by vm_compute
    |apply surjective_pairing|by vm_compute].
Defined.

(** [output_is_supplied_or_built] on the node built with an output: the
    call returns that output. *)
Lemma output_is_supplied_or_built_witness :
  ∃ (n1 : hnode) (w : demo_world),
    same_shape (with_out (leaf Field 20) (fresh "Negate" [VData (leaf Field 1)])) n1 ∧
    if truth (leaf Field 20) w then leaf Field 20 = leaf Field 20
    else leaf Field 20 = (new_data (future_type "Negate") (output_request n1) w).1.
Proof.
  refine (output_is_supplied_or_built 0 1 None true demo_state2
            (evaluate 1 1 None true demo_state2).2
            (with_out (leaf Field 20) (fresh "Negate" [VData (leaf Field 1)]))
            (leaf Field 20) _ _ _); [reflexivity|reflexivity|by vm_compute].
Defined.

(** [own_calls_in_program_order] on the forced evaluation of the [Add]
    node. *)
Lemma own_calls_in_program_order_witness :
  ∃ Δ l' built,
    trace (evaluate 2 2 None true demo_state).2 = trace demo_state ++ Δ ∧
    Forall2 resolved [VFut 0; VFut 1] l' ∧
    own 2 Δ = loop_events 2 (3 # 2)%Q 0 [VFut 0; VFut 1] l' ++
              tail_events 2 (3 # 2)%Q true l' (Some (Data Field 12 [Some 0])) built.
Proof.
  refine (own_calls_in_program_order demo_rank 1 2 None true demo_state
            (evaluate 2 2 None true demo_state).2 (fresh "Add" [VFut 0; VFut 1])
            (Some (Data Field 12 [Some 0])) _ _ _ _);
    [exact demo_acyclic|reflexivity|reflexivity|by vm_compute].
Defined.

(** Every node of the demonstration store holds its original arguments. *)
Lemma demo_clean : clean demo_state.
Proof.
  unfold clean, demo_state, demo_nodes. simpl.
  repeat apply map_Forall_insert_2; try apply map_Forall_empty; done.
Qed.

(** [forced_evaluation_restores_every_node]: after the forced evaluation of
    the [Add] node the store of nodes is what it was. *)
Lemma forced_evaluation_restores_every_node_witness :
  nodes (evaluate 3 2 None true demo_state).2 = nodes demo_state.
Proof.
  destruct (forced_evaluation_restores_every_node demo_rank 3 2 None demo_state
              (evaluate 3 2 None true demo_state).2 (Some (Data Field 12 [Some 0])))
    as [_ Hnodes]; [exact demo_acyclic|exact demo_memo_ok|exact demo_clean|by vm_compute|].
  by apply Hnodes.
Defined.

(** [substituted_argument_is_not_evaluated_again]: after the attempt that
    left the output of [Negate(a)] in the [Add] node, the forced call
    evaluates [Negate(b)] only. *)
Lemma substituted_argument_is_not_evaluated_again_witness :
  args (set_args [VData (Data Field 10 [Some 0]); VFut 1] (fresh "Add" [VFut 0; VFut 1]))
    !! 0 = Some (VData (Data Field 10 [Some 0])) ∧
  EArg 2 0 0 (Some (Data Field 10 [Some 0])) ∉
    drop 9 (trace (evaluate 2 2 None true (attempt 2 2 None demo_state).2).2).
Proof.
  destruct (substituted_argument_is_not_evaluated_again demo_rank 1 1 2 None None
              false true demo_state (attempt 2 2 None demo_state).2
              (evaluate 2 2 None true (attempt 2 2 None demo_state).2).2
              (fresh "Add" [VFut 0; VFut 1])
              (set_args [VData (Data Field 10 [Some 0]); VFut 1]
                 (fresh "Add" [VFut 0; VFut 1]))
              (Some (Data Field 12 [Some 0]))
              (trace (attempt 2 2 None demo_state).2)
              (drop 9 (trace (evaluate 2 2 None true (attempt 2 2 None demo_state).2).2))
              0 0 (Data Field 10 [Some 0])) as [Hslot Hnone];
    [exact demo_acyclic|reflexivity|reflexivity|by vm_compute|reflexivity
    |vm_compute; repeat (first [apply list_elem_of_here|apply list_elem_of_further])
    |by vm_compute|reflexivity|by vm_compute|by vm_compute|].
  split; [exact Hslot|apply Hnone].
Defined.

(** [hooks_see_resolved_arguments] on the forced evaluation of the [Add]
    node: [operate] ran on the node the loop left, which holds no deferred
    node, and gave the world of the call. *)
Lemma hooks_see_resolved_arguments_witness :
  ∃ (st1 st3 : state demo_world) (n1 : hnode),
    nodes st1 !! 2 = Some n1 ∧
    Forall (fun v => is_fut v = false) (args n1) ∧
    operate n1 (Data Field 12 [Some 0])
      (set_scales (Data Field 12 [Some 0]) (3 # 2)%Q (world st3))
    = (Ok tt, world (evaluate 2 2 None true demo_state).2).
Proof.
  destruct (hooks_see_resolved_arguments demo_rank 1 2 None true demo_state
              (evaluate 2 2 None true demo_state).2 (fresh "Add" [VFut 0; VFut 1])
              (Data Field 12 [Some 0]))
    as (st1 & n1 & w1 & st3 & _ & Hn1 & _ & Hnofut & _ & _ & _ & _ & Hop);
    [exact demo_acyclic|reflexivity|reflexivity|by vm_compute|].
  exists st1, st3, n1. split; [exact Hn1|]. split; [exact Hnofut|exact Hop].
Defined.

(** [unimplemented_hooks_stop_the_call]: with the hooks as [Future] defines
    them, the forced evaluation of [Negate(a)] raises
    [NotImplementedError]. *)
Lemma unimplemented_hooks_stop_the_call_witness :
  (@evaluate demo_world demo_ops bare_collaborators 1 0 None true demo_state).1
  = Raises NotImplementedError.
Proof.
  destruct (@unimplemented_hooks_stop_the_call demo_world demo_ops bare_collaborators
              demo_rank 0 0 None true demo_state
              (@evaluate demo_world demo_ops bare_collaborators 1 0 None true demo_state).2
              (fresh "Negate" [VData (leaf Field 1)])
              (@evaluate demo_world demo_ops bare_collaborators 1 0 None true demo_state).1)
    as [_ Hgate].
  - exact demo_acyclic.
  - reflexivity.
  - reflexivity.
  - apply surjective_pairing.
  - apply Hgate; [reflexivity|]. by repeat constructor.
Defined.
